(** * PySP scenario-tree worker and SP solver facade

    A shallow embedding of

    - [pyomo/pysp/solvers/spsolver.py]
      ([SPSolverResults], [SPSolver.solve], [SPSolverFactory],
      [_register_solver]), and
    - [pyomo/pysp/scenariotree/manager_worker_pyro.py]
      ([ScenarioTreeManagerWorkerPyro]: [_init], [_close_impl],
      [_invoke_function_impl], [invoke_function], [invoke_method]).

    Python methods become functions in a state-and-exception monad: the
    state is the object graph the method can reach, a raised exception is
    the left summand of the result, and the state reached when the
    exception left the method is kept.  Console output and the layout of
    messages are not modelled; wall-clock readings are arguments. *)

From stdpp Require Import gmap strings list fin_maps.
From Stdlib Require Import ZArith QArith.
Close Scope Q_scope.
Set Warnings "-register-all".

(* ===================================================================== *)
(** ** Python runtime: values, exceptions, statements                     *)
(* ===================================================================== *)

Module Py.

(** The exception classes the two modules raise or let through. *)
Inductive Exn : Type :=
| ValueError (msg : string)
| TypeError (msg : string)
| AssertionError
| AttributeError (attr : string)
| KeyError (key : string)
| IndexError
| NameError (name : string)
| UnboundLocalError (name : string)
| NotImplementedError
| MPIException
| UserException (tag : string).

(** Transport-serializable values exchanged with user code. *)
Inductive Value : Type :=
| VNone
| VBool (b : bool)
| VInt (z : Z)
| VStr (s : string)
| VDict (items : list (Value * Value))
| VAsyncResult (result : Value).

(** The name of an object as a dictionary key: [None] stays [None]. *)
Definition name_value (n : option string) : Value :=
  match n with Some s => VStr s | None => VNone end.

(** A statement over a state [S] producing an [A] or raising. *)
Definition M (S A : Type) : Type := S -> (Exn + A) * S.

Definition ret {S A} (a : A) : M S A := fun s => (inr a, s).

Definition raise {S A} (e : Exn) : M S A := fun s => (inl e, s).

Definition bind {S A B} (c : M S A) (k : A -> M S B) : M S B :=
  fun s => match c s with
           | (inr a, s') => k a s'
           | (inl e, s') => (inl e, s')
           end.

Definition get {S} : M S S := fun s => (inr s, s).

Definition modify {S} (f : S -> S) : M S unit := fun s => (inr tt, f s).

(** An expression that can raise but does not touch the state. *)
Definition lift {S A} (r : Exn + A) : M S A := fun s => (r, s).

(** [assert b] *)
Definition assert_ {S} (b : bool) : M S unit :=
  if b then ret tt else raise AssertionError.

(** [try: body finally: cleanup]: the cleanup runs on both exits; the
    outcome of the body stands unless the cleanup itself raises. *)
Definition try_finally {S A} (body : M S A) (cleanup : M S unit) : M S A :=
  fun s => match body s with
           | (r, s') => match cleanup s' with
                        | (inr _, s'') => (r, s'')
                        | (inl e, s'') => (inl e, s'')
                        end
           end.

(** [for x in l: body x] *)
Fixpoint for_ {S A} (l : list A) (body : A -> M S unit) : M S unit :=
  match l with
  | [] => ret tt
  | x :: l' => bind (body x) (fun _ => for_ l' body)
  end.

(** Reading a local variable that may not have been assigned yet. *)
Definition read_local {S} (name : string) (v : option Value) : M S Value :=
  match v with
  | Some x => ret x
  | None => raise (UnboundLocalError name)
  end.

(** A [dict]: its items in insertion order.  A lookup takes the item of
    the key; an assignment replaces the value of a key that is present, in
    place, and appends the item of a key that is not; the dictionary holds
    a key once. *)
Record dict (V : Type) : Type := Dict { dict_items : list (string * V) }.
Arguments Dict {V} _.
Arguments dict_items {V} _.

Fixpoint assoc {V} (k : string) (l : list (string * V)) : option V :=
  match l with
  | [] => None
  | (k', v) :: l' => if decide (k' = k) then Some v else assoc k l'
  end.

Fixpoint assoc_set {V} (k : string) (v : V) (l : list (string * V))
  : list (string * V) :=
  match l with
  | [] => [(k, v)]
  | (k', v') :: l' =>
      if decide (k' = k) then (k, v) :: l' else (k', v') :: assoc_set k v l'
  end.

(** [d[k]] (as an option), [d[k] = v] and [{}] *)
#[export] Instance dict_lookup {V} : Lookup string V (dict V) :=
  fun k d => assoc k (dict_items d).

#[export] Instance dict_insert {V} : Insert string V (dict V) :=
  fun k v d => Dict (assoc_set k v (dict_items d)).

#[export] Instance dict_empty {V} : Empty (dict V) := Dict [].

(** [d.keys()] and [d.values()], in iteration order *)
Definition dict_keys {V} (d : dict V) : list string := (dict_items d).*1.

Definition dict_values {V} (d : dict V) : list V := (dict_items d).*2.

(** The slice [l[:-1]] and the slice [l[1:-1]]. *)
Definition but_last {A} (l : list A) : list A := removelast l.

Definition interior {A} (l : list A) : list A := removelast (tail l).

End Py.

Notation "'let*' x ':=' c 'in' k" := (Py.bind c (fun x => k))
  (at level 10, x name, c at level 100, k at level 200).
Notation "c ';;' k" := (Py.bind c (fun _ => k))
  (at level 100, k at level 200, right associativity).

(* ===================================================================== *)
(** ** spsolver.py                                                        *)
(* ===================================================================== *)

Module SPSolver.
Import Py.

(** [pyutilib.misc.Options], a class of the library the module imports: a
    [dict] of named values.  What is kept here of an object is its
    dictionary, which is what [items()] and a subscript read; the
    attributes of the instance are left out. *)
Abbreviation Options := (dict Value).

(** [options[name] = val] goes through [__setattr__], which reads
    [name[0]]: the empty name raises [IndexError], a name that starts with
    an underscore is kept as an attribute only and does not enter the
    dictionary, any other name is assigned in the dictionary. *)
Definition Options__setitem__ (name : string) (val : Value) (o : Options)
  : Exn + Options :=
  if String.eqb name "" then inl IndexError
  else if String.prefix "_" name then inr o
  else inr (<[name := val]> o).

(** *** SPSolverResults *)

(** [pyomo.opt.undefined] against a value that was set. *)
Inductive Attr : Type :=
| undefined
| defined (v : Value).

(** The solution map [xhat]: tree object name, then variable identifier. *)
Abbreviation XHat := (dict (dict Value)).

(** The five attributes of [__init__] and the two that [solve] and the
    strategies add; an absent attribute is [None]. *)
Record SPSolverResults : Type := {
  objective : Attr;
  bound : Attr;
  solver_name : Attr;
  solver_time : Attr;
  solver_status : Attr;
  pysp_time : option Z;
  xhat : option XHat
}.

(** [SPSolverResults.__init__] *)
Definition SPSolverResults__init__ : SPSolverResults :=
  {| objective := undefined; bound := undefined; solver_name := undefined;
     solver_time := undefined; solver_status := undefined;
     pysp_time := None; xhat := None |}.

(** *** The stochastic program handed to [solve] *)

Record Var : Type := { is_continuous : bool }.

Record TreeNode : Type := {
  _standard_variable_ids : list string;
  is_variable_discrete : string -> bool
}.

Inductive SP : Type :=
| EmbeddedSP (time_stages : list string)
             (stage_to_variables_map : gmap string (list (Var * bool)))
| ScenarioTreeSP (scenarios : list string) (stages : list (list TreeNode)).

Record Statistics : Type := {
  num_scenarios : option nat;          (* [None] prints as "<unknown>" *)
  num_stages : nat;
  num_na_variables : nat;
  num_na_continuous_variables : nat
}.

(** The counting loops of lines 89-112. *)
Definition count_embedded_stage (vars : list (Var * bool)) (acc : nat * nat)
  : nat * nat :=
  foldl (fun (a : nat * nat) (entry : Var * bool) =>
           let '(na, cont) := a in
           let '(var, derived) := entry in
           if derived then (na, cont)
           else (S na, if is_continuous var then S cont else cont))
        acc vars.

Fixpoint count_embedded (stages : list string)
    (map_ : gmap string (list (Var * bool))) (acc : nat * nat)
  : Exn + (nat * nat) :=
  match stages with
  | [] => inr acc
  | stage :: rest =>
      match map_ !! stage with
      | None => inl (KeyError stage)
      | Some vars => count_embedded rest map_ (count_embedded_stage vars acc)
      end
  end.

Definition count_tree_node (tree_node : TreeNode) (acc : nat * nat)
  : nat * nat :=
  let '(na, cont) := acc in
  (na + length (_standard_variable_ids tree_node),
   foldl (fun c id_ => if is_variable_discrete tree_node id_ then c else S c)
         cont (_standard_variable_ids tree_node)).

Definition count_tree (stages : list (list TreeNode)) : nat * nat :=
  foldl (fun acc stage => foldl (fun a n => count_tree_node n a) acc stage)
        (0, 0) stages.

Definition problem_statistics (sp : SP) : Exn + Statistics :=
  match sp with
  | EmbeddedSP time_stages map_ =>
      match count_embedded (but_last time_stages) map_ (0, 0) with
      | inl e => inl e
      | inr (na, cont) =>
          inr {| num_scenarios := None; num_stages := length time_stages;
                 num_na_variables := na;
                 num_na_continuous_variables := cont |}
      end
  | ScenarioTreeSP scenarios stages =>
      let '(na, cont) := count_tree (but_last stages) in
      inr {| num_scenarios := Some (length scenarios);
             num_stages := length stages;
             num_na_variables := na;
             num_na_continuous_variables := cont |}
  end.

(** *** The solver object and the objects it reaches *)

(** A component of the reference model. *)
Record Component : Type := {
  is_expression : bool;
  value : Value;
  stale : bool
}.

(** [_solver_options] is a reference into the store of [Options] objects:
    [solve] swaps the reference, it does not copy the object back.
    [components] is the store of the reference model's components. *)
Record State : Type := {
  _name : option string;
  _solver_options : nat;
  heap : gmap nat Options;
  components : gmap nat Component
}.

(** The object behind a reference. *)
Definition deref (h : gmap nat Options) (l : nat) : Options :=
  default ∅ (h !! l).

(** The property [options]. *)
Definition options (s : State) : nat := _solver_options s.

(** The option set an observer sees through [solver.options]. *)
Definition observed_options (s : State) : Options :=
  deref (heap s) (options s).

Definition set_solver_options (l : nat) (s : State) : State :=
  {| _name := _name s; _solver_options := l; heap := heap s;
     components := components s |}.

(** The object behind [self._solver_options] becomes [o]. *)
Definition store_solver_options (o : Options) (s : State) : State :=
  {| _name := _name s; _solver_options := _solver_options s;
     heap := <[_solver_options s := o]> (heap s);
     components := components s |}.

(** [self._solver_options[key] = val] *)
Definition setitem_solver_options (key : string) (val : Value)
  : M State unit :=
  let* s := get in
  let* o := lift (Options__setitem__ key val
                    (deref (heap s) (_solver_options s))) in
  modify (store_solver_options o).

(** [self._solver_options = pyutilib.misc.Options()]: a new object, which
    is none of the objects of the store and not the one the solver pointed
    to. *)
Definition new_reference (s : State) : nat :=
  fresh ({[_solver_options s]} ∪ dom (heap s)).

Definition new_solver_options (s : State) : State :=
  {| _name := _name s; _solver_options := new_reference s;
     heap := <[new_reference s := ∅]> (heap s);
     components := components s |}.

(** A reference model resolves an identifier to one of its components:
    [ComponentUID(id_).find_component(reference_model)]. *)
Definition ReferenceModel : Type := string -> option nat.

Definition find_component (reference_model : ReferenceModel) (id_ : string)
    (s : State) : option (nat * Component) :=
  match reference_model id_ with
  | None => None
  | Some h => match components s !! h with
              | None => None
              | Some c => Some (h, c)
              end
  end.

(** [var.value = v; var.stale = False] *)
Definition assign_value (h : nat) (c : Component) (v : Value) (s : State)
  : State :=
  {| _name := _name s; _solver_options := _solver_options s; heap := heap s;
     components := <[h := {| is_expression := is_expression c;
                              value := v; stale := false |}]> (components s) |}.

(** Lines 141-148: the body of the inner loop, on an identifier and the
    value the solution holds for it (the subscript of line 147 reads the
    item of the key the loop is at), then the two loops. *)
Definition load_variable (reference_model : ReferenceModel)
    (entry : string * Value) : M State unit :=
  let '(id_, val) := entry in
  let* s := get in
  match find_component reference_model id_ s with
  | None => raise (AttributeError "is_expression")
  | Some (h, var) =>
      if negb (is_expression var) then modify (assign_value h var val)
      else ret tt
  end.

(** [d[k]] *)
Definition getitem {V} (k : string) (d : dict V) : Exn + V :=
  match d !! k with
  | Some v => inr v
  | None => inl (KeyError k)
  end.

Definition load_solution (reference_model : ReferenceModel) (xhat : XHat)
  : M State unit :=
  for_ (dict_keys xhat) (fun tree_obj_name =>
    let* tree_obj_solution := lift (getitem tree_obj_name xhat) in
    for_ (dict_keys tree_obj_solution) (fun id_ =>
      let* val := lift (getitem id_ tree_obj_solution) in
      load_variable reference_model (id_, val))).

(** What a strategy, a method of the solver, works on: the solver's
    name, the options object the solver points to while the strategy runs,
    and the components of the model. *)
Record Self : Type := {
  self_name : option string;
  self_options : Options;
  model_components : gmap nat Component
}.

(** The strategy a subclass supplies; the base class raises. *)
Definition Strategy : Type :=
  SP -> list Value -> gmap string Value -> M Self SPSolverResults.

Definition _solve_impl : Strategy :=
  fun _ _ _ => raise NotImplementedError.

Definition view (s : State) : Self :=
  {| self_name := _name s; self_options := observed_options s;
     model_components := components s |}.

Definition update (s : State) (v : Self) : State :=
  {| _name := self_name v; _solver_options := _solver_options s;
     heap := <[_solver_options s := self_options v]> (heap s);
     components := model_components v |}.

(** [self._solve_impl(sp, *args, **kwds)] *)
Definition call_solve_impl (impl : Strategy) (sp : SP) (args : list Value)
    (kwds : gmap string Value) : M State SPSolverResults :=
  fun s => match impl sp args kwds (view s) with
           | (r, v) => (r, update s v)
           end.

(** Lines 79-85: entering the scope of the per-call options. *)
Definition enter_options (tmp_options : option Options) : M State unit :=
  match tmp_options with
  | None => ret tt
  | Some tmp =>
      let* s := get in
      let orig_options := options s in
      modify new_solver_options ;;
      for_ (dict_items (deref (heap s) orig_options))
           (fun '(key, val) => setitem_solver_options key val) ;;
      for_ (dict_items tmp)
           (fun '(key, val) => setitem_solver_options key val)
  end.

(** Lines 87-137: the guarded block. *)
Definition solve_guarded (impl : Strategy) (sp : SP) (args : list Value)
    (kwds : gmap string Value) (tmp_options : option Options)
    (orig_options : nat) (start stop : Z) : M State SPSolverResults :=
  try_finally
    (lift (problem_statistics sp) ;;
     let* results := call_solve_impl impl sp args kwds in
     let* s := get in
     ret {| objective := objective results; bound := bound results;
            solver_name := defined (name_value (_name s));
            solver_time := solver_time results;
            solver_status := solver_status results;
            pysp_time := Some (stop - start)%Z;
            xhat := xhat results |})
    (match tmp_options with
     | Some _ => modify (set_solver_options orig_options)
     | None => ret tt
     end).

(** [del results.xhat] *)
Definition del_xhat (results : SPSolverResults) : SPSolverResults :=
  {| objective := objective results; bound := bound results;
     solver_name := solver_name results; solver_time := solver_time results;
     solver_status := solver_status results; pysp_time := pysp_time results;
     xhat := None |}.

(** [SPSolver.solve]; [reference_model] and [options] are the two keywords
    popped from [kwds], [start] and [stop] the two clock readings. *)
Definition solve (impl : Strategy) (sp : SP) (args : list Value)
    (kwds : gmap string Value) (reference_model : option ReferenceModel)
    (tmp_options : option Options) (start stop : Z)
  : M State SPSolverResults :=
  let* s := get in
  let orig_options := options s in
  enter_options tmp_options ;;
  let* results :=
    solve_guarded impl sp args kwds tmp_options orig_options start stop in
  match reference_model with
  | None => ret results
  | Some rm =>
      match xhat results with
      | None => raise (AttributeError "xhat")
      | Some x => load_solution rm x ;; ret (del_xhat results)
      end
  end.

(** *** SPSolverFactory *)

(** A class object: its name and the names of the classes it derives from
    (itself included). *)
Record PyClass : Type := {
  cls_name : string;
  cls_mro : list string
}.

Definition issubclass (type_ : PyClass) (base : string) : bool :=
  bool_decide (base ∈ cls_mro type_).

(** [SPSolverFactory._registered_solvers] *)
Abbreviation Registry := (gmap string PyClass).

Definition _registered_solvers : Registry := ∅.

Definition _register_solver (name : string) (type_ : PyClass)
  : M Registry unit :=
  if negb (issubclass type_ "SPSolver") then
    raise (TypeError "Can not register SP solver type")
  else
    modify (fun reg : Registry => <[name := type_]> reg).

(** What the factory asks of the registered classes, whose code is not
    among the sources: [type_.register_options()], which builds the
    configuration block of the class; the assignment [config[key] = val]
    of that block, which may refuse the key or the value; and the
    constructor [type_(config)]. *)
Record SolverClasses (Config : Type) : Type := {
  register_options : PyClass -> Exn + Config;
  config_setitem : string -> Value -> Config -> Exn + Config;
  solver_init : PyClass -> Config -> Exn + unit
}.
Arguments register_options {Config} _ _.
Arguments config_setitem {Config} _ _ _ _.
Arguments solver_init {Config} _ _ _.

(** A solver instance: its class and the configuration it was built with. *)
Record Solver (Config : Type) : Type := {
  solver_type : PyClass;
  solver_config : Config
}.
Arguments solver_type {Config} _.
Arguments solver_config {Config} _.

(** Lines 161-162: the keywords are assigned one by one, in their order. *)
Fixpoint populate {Config} (C : SolverClasses Config)
    (kwds : list (string * Value)) (config : Config) : Exn + Config :=
  match kwds with
  | [] => inr config
  | (key, val) :: rest =>
      match config_setitem C key val config with
      | inl e => inl e
      | inr config' => populate C rest config'
      end
  end.

(** [SPSolverFactory(solver_name, **kwds)] *)
Definition SPSolverFactory {Config} (C : SolverClasses Config)
    (solver_name : string) (kwds : list (string * Value))
  : M Registry (Solver Config) :=
  let* reg := get in
  match (reg : Registry) !! solver_name with
  | Some type_ =>
      let* config := lift (register_options C type_) in
      let* config := lift (populate C kwds config) in
      lift (solver_init C type_ config) ;;
      ret {| solver_type := type_; solver_config := config |}
  | None =>
      raise (ValueError "No SPSolver object has been registered with name")
  end.

End SPSolver.

(* ===================================================================== *)
(** ** The scenario tree (collaborator of the worker)                     *)
(* ===================================================================== *)

Module ScenarioTree.
Import Py.

Inductive Sense : Type := minimize | maximize.

Definition Sense_eqb (a b : option Sense) : bool :=
  match a, b with
  | None, None => true
  | Some minimize, Some minimize => true
  | Some maximize, Some maximize => true
  | _, _ => false
  end.

(** A constructed model instance, as far as the worker looks at it. *)
Record Instance : Type := {
  instance_objective_name : string;
  instance_objective_sense : Sense
}.

Record Scenario : Type := {
  scenario_name : string;
  _probability : Q;
  _objective_name : option string;
  _objective_sense : option Sense
}.

(** [parent] is the name of the parent node; the root has none.
    [node_scenarios] names the scenarios whose path visits the node. *)
Record TreeNode : Type := {
  name : string;
  parent : option string;
  node_scenarios : list string
}.

Record Stage : Type := {
  stage_name : string;
  nodes : list TreeNode
}.

Record t : Type := {
  stages : list Stage;
  _scenarios : list Scenario;
  _bundles : gmap string (list string);
  _scenario_instance_factory : string -> Exn + Instance
}.

Definition all_nodes (tree : t) : list TreeNode :=
  concat (nodes <$> stages tree).

Definition scenario_names (tree : t) : list string :=
  scenario_name <$> _scenarios tree.

(** Modelled from the spec: [contains_node] of the scenario tree class,
    which is not among the sources; a tree contains the nodes of its
    stages. *)
Definition contains_node (tree : t) (node_name : string) : bool :=
  bool_decide (node_name ∈ name <$> all_nodes tree).

(** Modelled from the spec: [contains_bundle] of the scenario tree class. *)
Definition contains_bundle (tree : t) (bundle_name : string) : bool :=
  bool_decide (is_Some (_bundles tree !! bundle_name)).

(** Modelled from the spec: [findRootNode]; the root is the node without
    a parent. *)
Definition findRootNode (tree : t) : option TreeNode :=
  List.find (fun n => bool_decide (parent n = None)) (all_nodes tree).

Definition total_probability (l : list Scenario) : Q :=
  foldr (fun s acc => Qplus (_probability s) acc) (0 # 1)%Q l.

Definition with_probability (p : Q) (s : Scenario) : Scenario :=
  {| scenario_name := scenario_name s; _probability := p;
     _objective_name := _objective_name s;
     _objective_sense := _objective_sense s |}.

Definition compress_node (scenario_list : list string) (n : TreeNode)
  : TreeNode :=
  {| name := name n; parent := parent n;
     node_scenarios := filter (fun s => s ∈ scenario_list) (node_scenarios n) |}.

Definition compress_stage (scenario_list : list string) (st : Stage)
  : Stage :=
  {| stage_name := stage_name st;
     nodes := compress_node scenario_list <$>
              filter (fun n => Exists (fun s => s ∈ scenario_list)
                                      (node_scenarios n))
                     (nodes st) |}.

(** Modelled from the spec: [make_compressed], which is not among the
    sources: the tree restricted to the scenarios of [scenario_list] and
    to the nodes some retained scenario visits; the probabilities are the
    original ones unless [normalize] asks to rescale them to sum to one.
    The compressed tree starts without bundles. *)
Definition make_compressed (tree : t) (scenario_list : list string)
    (normalize : bool) : t :=
  let kept := filter (fun s => scenario_name s ∈ scenario_list)
                     (_scenarios tree) in
  let total := total_probability kept in
  {| stages := compress_stage scenario_list <$> stages tree;
     _scenarios :=
       if normalize
       then (fun s => with_probability (Qdiv (_probability s) total) s) <$> kept
       else kept;
     _bundles := ∅;
     _scenario_instance_factory := _scenario_instance_factory tree |}.

(** Modelled from the spec: [construct_instances_for_scenario_tree] of the
    instance factory: one instance for each scenario of the tree, in
    order; the first construction that raises aborts the call.  The three
    reporting and compilation flags do not change which instances are
    built. *)
Fixpoint construct_instances (factory : string -> Exn + Instance)
    (l : list Scenario) : Exn + gmap string Instance :=
  match l with
  | [] => inr ∅
  | s :: rest =>
      match factory (scenario_name s) with
      | inl e => inl e
      | inr i =>
          match construct_instances factory rest with
          | inl e => inl e
          | inr m => inr (<[scenario_name s := i]> m)
          end
      end
  end.

Definition construct_instances_for_scenario_tree
    (factory : string -> Exn + Instance) (tree : t)
    (output_instance_construction_time profile_memory
       compile_scenario_instances : bool)
  : Exn + gmap string Instance :=
  construct_instances factory (_scenarios tree).

Definition link_scenario (i : Instance) (objective_sense : option Sense)
    (s : Scenario) : Scenario :=
  {| scenario_name := scenario_name s; _probability := _probability s;
     _objective_name := Some (instance_objective_name i);
     _objective_sense :=
       Some (match objective_sense with
             | Some forced => forced
             | None => instance_objective_sense i
             end) |}.

Fixpoint link_scenarios (instances : gmap string Instance)
    (objective_sense : option Sense) (l : list Scenario)
  : Exn + list Scenario :=
  match l with
  | [] => inr []
  | s :: rest =>
      match instances !! scenario_name s with
      | None => inl (KeyError (scenario_name s))
      | Some i =>
          match link_scenarios instances objective_sense rest with
          | inl e => inl e
          | inr rest' => inr (link_scenario i objective_sense s :: rest')
          end
      end
  end.

(** Modelled from the spec: [linkInInstances]: every scenario takes the
    objective its instance declares, with the sense forced when the
    stage-based option gives one.  The variable identifiers it assigns to
    the nodes are not modelled. *)
Definition linkInInstances (tree : t) (instances : gmap string Instance)
    (objective_sense : option Sense) (create_variable_ids : bool)
  : Exn + t :=
  match link_scenarios instances objective_sense (_scenarios tree) with
  | inl e => inl e
  | inr l =>
      inr {| stages := stages tree; _scenarios := l;
             _bundles := _bundles tree;
             _scenario_instance_factory := _scenario_instance_factory tree |}
  end.

(** Modelled from the spec: [add_bundle] of the manager: the named bundle
    is added to the tree; a name already present is refused. *)
Definition add_bundle (tree : t) (bundle_name : string)
    (scenario_list : list string) : Exn + t :=
  if contains_bundle tree bundle_name
  then inl (ValueError "bundle already exists")
  else inr {| stages := stages tree; _scenarios := _scenarios tree;
              _bundles := <[bundle_name := scenario_list]> (_bundles tree);
              _scenario_instance_factory := _scenario_instance_factory tree |}.

End ScenarioTree.

(* ===================================================================== *)
(** ** The collective-communication layer                                 *)
(* ===================================================================== *)

Module mpi4py.
Import Py.

(** The module object handed to the worker. *)
Inductive Namespace : Type := MPI_module.

Inductive Comm : Type :=
| COMM_NULL
| comm (handle : nat).

(** A split key: an integer colour, or [MPI.UNDEFINED]. *)
Inductive Color : Type :=
| color (c : Z)
| UNDEFINED.

(** The calls a process issues, oldest first. *)
Inductive Call : Type :=
| CallSplit (on : Comm) (key : Color) (result : Comm)
| CallFree (on : Comm).

Record Runtime : Type := {
  calls : list Call;
  next_handle : nat
}.

(** [comm.Split(key)]: the call is recorded; a colour yields a new
    communicator, [MPI.UNDEFINED] yields the null communicator.  Failures
    of the layer itself are not modelled. *)
Definition Split (on : Comm) (key : Color) : M Runtime Comm :=
  fun r =>
    let result := match key with
                  | color _ => comm (next_handle r)
                  | UNDEFINED => COMM_NULL
                  end in
    (inr result,
     {| calls := calls r ++ [CallSplit on key result];
        next_handle := S (next_handle r) |}).

(** [comm.Free()] *)
Definition Free (on : Comm) : M Runtime unit :=
  fun r => (inr tt, {| calls := calls r ++ [CallFree on];
                       next_handle := next_handle r |}).

End mpi4py.

(* ===================================================================== *)
(** ** manager_worker_pyro.py                                             *)
(* ===================================================================== *)

Module WorkerPyro.
Import Py.

(** *** Data the worker receives *)

Inductive WorkerInitType : Type := Scenarios | Bundles.

(** [data] is [None] or a dictionary from bundle names to scenario
    lists. *)
Record WorkerInit : Type := {
  type_ : WorkerInitType;
  names : list string;
  data : option (gmap string (list string))
}.

(** Modelled from the spec: the [InvocationType] enumeration, which is not
    among the sources: [Single], or a collective variant that may carry
    extra data ([carries_data] tells the members that accept some). *)
Inductive InvocationType : Type :=
| Single
| Variant (tag : string) (carries_data : bool) (payload : option Value).

(** An invocation type arrives as an enumeration member or, depending on
    the serializer, as a (key, data) tuple. *)
Inductive InvocationArg : Type :=
| AsEnum (it : InvocationType)
| AsTuple (key : string) (payload : option Value).

(** [invocation_type == InvocationType.Single] *)
Definition is_Single (a : InvocationArg) : bool :=
  match a with
  | AsEnum Single => true
  | _ => false
  end.

(** A function is named by a string or travels as an object. *)
Inductive Function : Type :=
| FunctionName (s : string)
| FunctionObject (blob : Value).

(** *** The worker object *)

Record Options : Type := {
  objective_sense_stage_based : option ScenarioTree.Sense;
  output_instance_construction_time : bool;
  compile_scenario_instances : bool;
  verbose : bool;
  profile_memory : bool;
  output_times : bool
}.

(** The attributes the base classes keep. *)
Record Manager : Type := {
  _options : Options;
  _uncompressed_scenario_tree : option ScenarioTree.t;
  _scenario_tree : option ScenarioTree.t;
  _instances : option (gmap string ScenarioTree.Instance);
  _objective_sense : option ScenarioTree.Sense
}.

(** The attributes [ScenarioTreeManagerWorkerPyro.__init__] adds. *)
Record Worker : Type := {
  base : Manager;
  _modules_imported : option Value;
  _server_name : option string;
  _worker_name : option string;
  MPI : option mpi4py.Namespace;
  mpi_comm_tree : dict mpi4py.Comm
}.

(** The worker together with the communication layer of its process. *)
Record World : Type := {
  self : Worker;
  mpi : mpi4py.Runtime
}.

(** [__init__] *)
Definition __init__ (opts : Options) : Worker :=
  {| base := {| _options := opts; _uncompressed_scenario_tree := None;
                _scenario_tree := None; _instances := None;
                _objective_sense := None |};
     _modules_imported := None; _server_name := None; _worker_name := None;
     MPI := None; mpi_comm_tree := ∅ |}.

(** What the module finds around it: the names its globals bind, the
    enumeration, the serializer, and the methods of the base classes. *)
Record Environment : Type := {
  (** the global [_map_deprecated_invocation_type]; [None] when the
      module's namespace does not bind the name *)
  _map_deprecated_invocation_type :
    option (InvocationArg -> Exn + InvocationArg);
  (** [getattr(InvocationType, key)] *)
  InvocationType_getattr : string -> option InvocationType;
  (** [dill.loads], [None] when [dill_available] is false *)
  dill_loads : option (Function -> Exn + Function);
  (** the general invocation helper of the worker base class *)
  _invoke_function_by_worker :
    Function -> option string -> InvocationType -> list Value ->
    option (list (string * Value)) -> M World Value;
  (** [getattr(self, method_name)] *)
  getattr_self :
    string -> option (list Value -> list (string * Value) -> M World Value);
  (** [_init] of the base classes *)
  base_init : Exn + unit;
  (** [_close_impl] of the base classes: it acts on the attributes the
      base classes keep, and may have changed them when it raises *)
  base_close_impl : M Manager unit
}.

(** *** Attribute assignments *)

Definition with_base (f : Manager -> Manager) (w : World) : World :=
  {| self := {| base := f (base (self w));
                _modules_imported := _modules_imported (self w);
                _server_name := _server_name (self w);
                _worker_name := _worker_name (self w);
                MPI := MPI (self w);
                mpi_comm_tree := mpi_comm_tree (self w) |};
     mpi := mpi w |}.

(** Lines 129-134. *)
Definition set_bookkeeping (modules_imported : Value) (server_name : string)
    (uncompressed_scenario_tree : ScenarioTree.t) (worker_name : string)
    (w : World) : World :=
  {| self := {| base := {| _options := _options (base (self w));
                           _uncompressed_scenario_tree :=
                             Some uncompressed_scenario_tree;
                           _scenario_tree := _scenario_tree (base (self w));
                           _instances := _instances (base (self w));
                           _objective_sense :=
                             _objective_sense (base (self w)) |};
                _modules_imported := Some modules_imported;
                _server_name := Some server_name;
                _worker_name := Some worker_name;
                MPI := MPI (self w);
                mpi_comm_tree := mpi_comm_tree (self w) |};
     mpi := mpi w |}.

Definition set_scenario_tree (tree : ScenarioTree.t) : World -> World :=
  with_base (fun m =>
    {| _options := _options m;
       _uncompressed_scenario_tree := _uncompressed_scenario_tree m;
       _scenario_tree := Some tree; _instances := _instances m;
       _objective_sense := _objective_sense m |}).

Definition set_instances (i : gmap string ScenarioTree.Instance)
  : World -> World :=
  with_base (fun m =>
    {| _options := _options m;
       _uncompressed_scenario_tree := _uncompressed_scenario_tree m;
       _scenario_tree := _scenario_tree m; _instances := Some i;
       _objective_sense := _objective_sense m |}).

Definition set_objective_sense (o : option ScenarioTree.Sense)
  : World -> World :=
  with_base (fun m =>
    {| _options := _options m;
       _uncompressed_scenario_tree := _uncompressed_scenario_tree m;
       _scenario_tree := _scenario_tree m; _instances := _instances m;
       _objective_sense := o |}).

Definition set_MPI (ns : mpi4py.Namespace) (w : World) : World :=
  {| self := {| base := base (self w);
                _modules_imported := _modules_imported (self w);
                _server_name := _server_name (self w);
                _worker_name := _worker_name (self w);
                MPI := Some ns;
                mpi_comm_tree := mpi_comm_tree (self w) |};
     mpi := mpi w |}.

(** [self.mpi_comm_tree[node_name] = c] *)
Definition set_comm (node_name : string) (c : mpi4py.Comm) (w : World)
  : World :=
  {| self := {| base := base (self w);
                _modules_imported := _modules_imported (self w);
                _server_name := _server_name (self w);
                _worker_name := _worker_name (self w);
                MPI := MPI (self w);
                mpi_comm_tree := <[node_name := c]> (mpi_comm_tree (self w)) |};
     mpi := mpi w |}.

(** A call into the communication layer. *)
Definition on_mpi {A} (c : M mpi4py.Runtime A) : M World A :=
  fun w => match c (mpi w) with
           | (r, rt) => (r, {| self := self w; mpi := rt |})
           end.

(** [self._scenario_tree], an object by the time it is read. *)
Definition the_scenario_tree : M World ScenarioTree.t :=
  let* w := get in
  match _scenario_tree (base (self w)) with
  | Some tree => ret tree
  | None => raise (AttributeError "_scenario_tree")
  end.

(** *** _init *)

(** The bundle loop of lines 160-162. *)
Fixpoint extend_bundles (d : gmap string (list string))
    (bundle_names : list string) (acc : list string) : Exn + list string :=
  match bundle_names with
  | [] => inr acc
  | bundle_name :: rest =>
      match d !! bundle_name with
      | None => inl (KeyError bundle_name)
      | Some l => extend_bundles d rest (acc ++ l)
      end
  end.

(** Lines 136-162: validation of [worker_init] and the list of scenarios
    to construct.  Under [verbose] the bundle entries are looked up once
    more, for the report. *)
Definition scenarios_to_construct (worker_init : WorkerInit)
    (verbose_ : bool) : Exn + list string :=
  match type_ worker_init with
  | Scenarios =>
      if negb (0 <? length (names worker_init)) then inl AssertionError
      else match data worker_init with
           | Some _ => inl AssertionError
           | None => inr ([] ++ names worker_init)
           end
  | Bundles =>
      match data worker_init with
      | None => inl AssertionError
      | Some d =>
          if negb (0 <? length (names worker_init)) then inl AssertionError
          else
            match (if verbose_
                   then extend_bundles d (names worker_init) []
                   else inr []) with
            | inl e => inl e
            | inr _ => extend_bundles d (names worker_init) []
            end
      end
  end.

(** Lines 121-127: no base class may have implemented [_init]. *)
Definition check_base_init (E : Environment) : M World unit :=
  match base_init E with
  | inl NotImplementedError => ret tt
  | inl e => raise e
  | inr _ => raise AssertionError
  end.

(** Lines 194-198, one bundle. *)
Definition create_bundle (worker_init : WorkerInit) (bundle_name : string)
  : M World unit :=
  let* tree := the_scenario_tree in
  assert_ (negb (ScenarioTree.contains_bundle tree bundle_name)) ;;
  let* l := lift (match data worker_init with
                  | None => inl (TypeError "NoneType is not subscriptable")
                  | Some d => match d !! bundle_name with
                              | None => inl (KeyError bundle_name)
                              | Some l => inr l
                              end
                  end) in
  let* tree' := lift (ScenarioTree.add_bundle tree bundle_name l) in
  modify (set_scenario_tree tree') ;;
  assert_ (ScenarioTree.contains_bundle tree' bundle_name).

(** Lines 121-198: everything before the communicators. *)
Definition build_scenario_tree (E : Environment) (server_name : string)
    (uncompressed_scenario_tree : ScenarioTree.t) (worker_name : string)
    (worker_init : WorkerInit) (modules_imported : Value) : M World unit :=
  check_base_init E ;;
  modify (set_bookkeeping modules_imported server_name
                          uncompressed_scenario_tree worker_name) ;;
  let* w := get in
  let opts := _options (base (self w)) in
  let* to_construct :=
    lift (scenarios_to_construct worker_init (verbose opts)) in
  let tree := ScenarioTree.make_compressed uncompressed_scenario_tree
                to_construct false in
  modify (set_scenario_tree tree) ;;
  let* instances :=
    lift (ScenarioTree.construct_instances_for_scenario_tree
            (ScenarioTree._scenario_instance_factory
               uncompressed_scenario_tree)
            tree (output_instance_construction_time opts)
            (profile_memory opts) (compile_scenario_instances opts)) in
  modify (set_instances instances) ;;
  let* linked :=
    lift (ScenarioTree.linkInInstances tree instances
            (objective_sense_stage_based opts) true) in
  modify (set_scenario_tree linked) ;;
  let* first := lift (match ScenarioTree._scenarios linked with
                      | [] => inl IndexError
                      | s :: _ => inr s
                      end) in
  modify (set_objective_sense (ScenarioTree._objective_sense first)) ;;
  assert_ (forallb (fun _s => ScenarioTree.Sense_eqb
                                (ScenarioTree._objective_sense _s)
                                (ScenarioTree._objective_sense first))
                   (ScenarioTree._scenarios linked)) ;;
  match type_ worker_init with
  | Bundles => for_ (names worker_init) (create_bundle worker_init)
  | Scenarios => ret tt
  end.

(** [node.parent.name] *)
Definition parent_name (node : ScenarioTree.TreeNode) : M World string :=
  match ScenarioTree.parent node with
  | Some p => ret p
  | None => raise (AttributeError "name")
  end.

(** [self.mpi_comm_tree[node_name]] *)
Definition comm_of (node_name : string) : M World mpi4py.Comm :=
  let* w := get in
  match mpi_comm_tree (self w) !! node_name with
  | Some c => ret c
  | None => raise (KeyError node_name)
  end.

(** Lines 213-219: the body of the loop over the nodes of a stage. *)
Definition split_for_node (tree : ScenarioTree.t)
    (node : ScenarioTree.TreeNode) : M World unit :=
  if ScenarioTree.contains_node tree (ScenarioTree.name node) then
    let* p := parent_name node in
    let* pc := comm_of p in
    let* c := on_mpi (mpi4py.Split pc (mpi4py.color 0)) in
    modify (set_comm (ScenarioTree.name node) c)
  else
    let* p := parent_name node in
    let* w := get in
    if bool_decide (is_Some (mpi_comm_tree (self w) !! p)) then
      let* pc := comm_of p in
      let* _unused := on_mpi (mpi4py.Split pc mpi4py.UNDEFINED) in
      ret tt
    else ret tt.

(** Lines 200-219. *)
Definition generate_communicators
    (uncompressed_scenario_tree : ScenarioTree.t)
    (MPI_ : option mpi4py.Namespace) (root_comm : option mpi4py.Comm)
  : M World unit :=
  match MPI_ with
  | None => assert_ (bool_decide (root_comm = None))
  | Some ns =>
      match root_comm with
      | None => raise AssertionError
      | Some rc =>
          let* tree := the_scenario_tree in
          let root_node := ScenarioTree.findRootNode tree in
          modify (set_MPI ns) ;;
          let* root_name :=
            lift (match root_node with
                  | Some n => inr (ScenarioTree.name n)
                  | None => inl (AttributeError "name")
                  end) in
          modify (set_comm root_name rc) ;;
          for_ (interior (ScenarioTree.stages uncompressed_scenario_tree))
               (fun stage =>
                  for_ (ScenarioTree.nodes stage) (split_for_node tree))
      end
  end.

Definition _init (E : Environment) (server_name : string)
    (uncompressed_scenario_tree : ScenarioTree.t) (worker_name : string)
    (worker_init : WorkerInit) (modules_imported : Value)
    (MPI_ : option mpi4py.Namespace) (root_comm : option mpi4py.Comm)
  : M World unit :=
  build_scenario_tree E server_name uncompressed_scenario_tree worker_name
                      worker_init modules_imported ;;
  generate_communicators uncompressed_scenario_tree MPI_ root_comm.

(** *** _close_impl *)

(** A call of a method of the base classes. *)
Definition on_base {A} (c : M Manager A) : M World A :=
  fun w => match c (base (self w)) with
           | (r, m) => (r, with_base (fun _ => m) w)
           end.

(** Lines 222-227; the report of the ignored options is console output. *)
Definition _close_impl (E : Environment) : M World unit :=
  on_base (base_close_impl E) ;;
  let* w := get in
  for_ (dict_values (mpi_comm_tree (self w)))
       (fun comm_ => on_mpi (mpi4py.Free comm_)).

(** *** Remote invocation *)

(** Lines 259-266. *)
Definition resolve_invocation_type (E : Environment) (a : InvocationArg)
  : Exn + InvocationType :=
  match a with
  | AsEnum it => inr it
  | AsTuple key payload =>
      match InvocationType_getattr E key with
      | None => inl (AttributeError key)
      | Some it =>
          match payload with
          | None => inr it
          | Some d =>
              match it with
              | Variant tag true _ => inr (Variant tag true (Some d))
              | _ => inl AssertionError
              end
          end
      end
  end.

Definition _invoke_function_impl (E : Environment) (function : Function)
    (module_name : option string) (invocation_type : InvocationArg)
    (function_args : list Value)
    (function_kwds : option (list (string * Value))) : M World Value :=
  let* invocation_type := lift (resolve_invocation_type E invocation_type) in
  let* function :=
    lift (match module_name with
          | Some _ => inr function
          | None => match dill_loads E with
                    | None => inl AssertionError
                    | Some loads => loads function
                    end
          end) in
  let* result := _invoke_function_by_worker E function module_name
                   invocation_type function_args function_kwds in
  ret result.

(** [_invoke_method_impl], lines 290-310: the method is looked up on the
    worker and called; its value goes back as it is. *)
Definition _invoke_method_impl (E : Environment) (method_name : string)
    (method_args : list Value)
    (method_kwds : option (list (string * Value))) : M World Value :=
  let method_kwds := match method_kwds with
                     | None => []
                     | Some k => k
                     end in
  let* method := lift (match getattr_self E method_name with
                       | None => inl (AttributeError method_name)
                       | Some m => inr m
                       end) in
  let* result := method method_args method_kwds in
  ret result.

(** A call of a global name of the module. *)
Definition call_global {A B} (name_ : string) (f : option (A -> Exn + B))
    (a : A) : Exn + B :=
  match f with
  | None => inl (NameError name_)
  | Some g => g a
  end.

(** Lines 347-356. *)
Definition check_module_name (function : Function)
    (module_name : option string) : Exn + unit :=
  match function, module_name with
  | FunctionObject _, Some _ =>
      inl (ValueError "The module_name keyword must be None when the function argument is not a string.")
  | FunctionName _, None =>
      inl (ValueError "A module name is required when a function name is given")
  | _, _ => inr tt
  end.

(** Lines 364-370 over the local variable [result], which is [None] as
    long as no statement has assigned it. *)
Definition wrap_function_result (invocation_type : InvocationArg)
    (async oneway : bool) (result : option Value) : M World Value :=
  let* result :=
    (if negb oneway then
       if is_Single invocation_type then
         let* w := get in
         let* r := read_local "result" result in
         ret (Some (VDict [(name_value (_worker_name (self w)), r)]))
       else ret result
     else ret result) in
  let* result :=
    (if async then
       let* r := read_local "result" result in
       ret (Some (VAsyncResult r))
     else ret result) in
  read_local "result" result.

(** [invoke_function]: the value of [_invoke_function_impl] is not
    assigned to anything (line 358), so [result] is unbound when line 364
    is reached. *)
Definition invoke_function (E : Environment) (function : Function)
    (module_name : option string) (invocation_type : InvocationArg)
    (function_args : list Value)
    (function_kwds : option (list (string * Value)))
    (async oneway : bool) : M World Value :=
  (if async && oneway
   then raise (ValueError "async oneway calls do not make sense")
   else ret tt) ;;
  let* invocation_type :=
    lift (call_global "_map_deprecated_invocation_type"
            (_map_deprecated_invocation_type E) invocation_type) in
  lift (check_module_name function module_name) ;;
  let* _discarded := _invoke_function_impl E function module_name
                       invocation_type function_args function_kwds in
  wrap_function_result invocation_type async oneway None.

Definition invoke_method (E : Environment) (method_name : string)
    (method_args : list Value)
    (method_kwds : option (list (string * Value)))
    (async oneway : bool) : M World Value :=
  (if async && oneway
   then raise (ValueError "async oneway calls do not make sense")
   else ret tt) ;;
  let method_kwds := match method_kwds with
                     | None => []
                     | Some k => k
                     end in
  let* method := lift (match getattr_self E method_name with
                       | None => inl (AttributeError method_name)
                       | Some m => inr m
                       end) in
  let* result := method method_args method_kwds in
  let* w := get in
  let result := if negb oneway
                then VDict [(name_value (_worker_name (self w)), result)]
                else result in
  let result := if async then VAsyncResult result else result in
  ret result.

End WorkerPyro.

(* ===================================================================== *)
(** ** Vocabulary of the statements, and sample inputs                    *)
(* ===================================================================== *)

Module MonadSpec.
Import Py.

(** A statement relates the state it starts in to the state it ends in,
    on both of its exits, by [R]. *)
Definition keeps {S A} (R : S -> S -> Prop) (c : M S A) : Prop :=
  ∀ s r s', c s = (r, s') → R s s'.

End MonadSpec.

Module SPSolverSpec.
Import Py SPSolver.

(** What a run of option assignments leaves alone. *)
Definition same_but_current (s0 s : State) : Prop :=
  _name s = _name s0 ∧ _solver_options s = _solver_options s0 ∧
  components s = components s0 ∧
  ∀ l, l ≠ _solver_options s0 → heap s !! l = heap s0 !! l.

(** A component that is a variable, and one that holds the value [v]
    freshly written. *)
Definition is_variable (h : nat) (cs : gmap nat Component) : Prop :=
  ∃ c, cs !! h = Some c ∧ is_expression c = false.

Definition written (h : nat) (v : Value) (cs : gmap nat Component) : Prop :=
  ∃ c, cs !! h = Some c ∧ is_expression c = false ∧ value c = v ∧
       stale c = false.

(** The items of a dictionary as the loop over its keys reads them. *)
Definition read_items {V} (d : dict V) : list (string * V) :=
  omap (fun k => pair k <$> d !! k) (dict_keys d).

(** The entries of a solution map, in the order the loops visit them. *)
Definition entries (x : XHat) : list (string * Value) :=
  concat ((fun p : string * dict Value => read_items p.2) <$> read_items x).

(** The value of the last entry, in the order of the loops, whose
    identifier resolves to the component [h]. *)
Definition last_value (rm : ReferenceModel) (x : XHat) (h : nat)
  : option Value :=
  snd <$> last (filter (fun e : string * Value => rm e.1 = Some h)
                       (entries x)).



(** Sample inputs. *)
Definition EF : PyClass :=
  {| cls_name := "EFSolver"; cls_mro := ["EFSolver"; "SPSolver"; "object"] |}.

Definition DDSIP : PyClass :=
  {| cls_name := "DDSIPSolver";
     cls_mro := ["DDSIPSolver"; "SPSolver"; "object"] |}.

Definition sample_sp : SP :=
  ScenarioTreeSP ["s1"; "s2"]
    [[{| _standard_variable_ids := ["x"];
         is_variable_discrete := fun _ => false |}]; []].

Definition sample_state : State :=
  {| _name := Some "ef"; _solver_options := 0;
     heap := {[0 := Dict [("mipgap", VInt 5)]]};
     components :=
       <[0 := {| is_expression := false; value := VNone; stale := true |}]>
       (<[1 := {| is_expression := true; value := VNone; stale := true |}]> ∅)
  |}.

Definition sample_overrides : Options := Dict [("mipgap", VInt 1)].

(** Per-call options one of whose names is the empty string. *)
Definition bad_overrides : Options :=
  Dict [("mipgap", VInt 1); ("", VInt 2)].

Definition sample_results : SPSolverResults :=
  {| objective := defined (VInt 42); bound := undefined;
     solver_name := undefined; solver_time := undefined;
     solver_status := undefined; pysp_time := None;
     xhat := Some (Dict [("root", Dict [("x", VInt 7); ("cost", VInt 9)])])
  |}.

Definition set_threads (v : Self) : Self :=
  {| self_name := self_name v;
     self_options := <["threads" := VInt 4]> (self_options v);
     model_components := model_components v |}.

(** A strategy that changes an option of the solver and succeeds, and one
    that changes it and fails. *)
Definition sample_strategy : Strategy :=
  fun _ _ _ => modify set_threads ;; ret sample_results.

Definition failing_strategy : Strategy :=
  fun _ _ _ => modify set_threads ;; raise (UserException "solver failed").

(** A multi-stage solution: the nodes A and B of one stage both carry a
    value for the variable "y" of their stage. *)
Definition two_node_results : SPSolverResults :=
  {| objective := defined (VInt 42); bound := undefined;
     solver_name := undefined; solver_time := undefined;
     solver_status := undefined; pysp_time := None;
     xhat := Some (Dict [("A", Dict [("y", VInt 3)]);
                         ("B", Dict [("y", VInt 5)])])
  |}.

Definition two_node_strategy : Strategy :=
  fun _ _ _ => ret two_node_results.

Definition y_reference_model : ReferenceModel :=
  fun id_ => if String.eqb id_ "y" then Some 0 else None.

Definition sample_reference_model : ReferenceModel :=
  fun id_ => if String.eqb id_ "x" then Some 0
             else if String.eqb id_ "cost" then Some 1 else None.

(** *** Vocabulary for the rest of [solve] and for the factory *)

(** The (node, identifier) pairs the statistics of a tree-based program
    range over: the standard variables of the nodes of every stage but the
    last. *)
Definition counted_ids (stages : list (list TreeNode))
  : list (TreeNode * string) :=
  concat ((fun n : TreeNode =>
             (fun id_ : string => (n, id_)) <$> _standard_variable_ids n)
            <$> concat (but_last stages)).

(** The result [solve] hands on: the strategy's, with the elapsed time
    and the solver's name written on it. *)
Definition stamped (r0 : SPSolverResults) (solver : option string)
    (start stop : Z) : SPSolverResults :=
  {| objective := objective r0; bound := bound r0;
     solver_name := defined (name_value solver);
     solver_time := solver_time r0; solver_status := solver_status r0;
     pysp_time := Some (stop - start)%Z; xhat := xhat r0 |}.

(** The [finally] clause. *)
Definition restore (tmp_options : option Options) (orig_options : nat)
    (s : State) : State :=
  match tmp_options with
  | Some _ => set_solver_options orig_options s
  | None => s
  end.

(** A series of calls of [_register_solver]; a call that raises leaves
    the registry as it was and the series goes on. *)
Definition registrations (l : list (string * PyClass)) (reg : Registry)
  : Registry :=
  foldl (fun (r : Registry) (p : string * PyClass) =>
           (_register_solver p.1 p.2 r).2) reg l.

(** The type of the last call of the series that registers a solver type
    under [n]. *)
Definition last_registered (l : list (string * PyClass)) (n : string)
  : option PyClass :=
  snd <$> last (filter (fun p : string * PyClass =>
                          p.1 = n ∧ issubclass p.2 "SPSolver" = true) l).

Definition NotASolver : PyClass :=
  {| cls_name := "Plain"; cls_mro := ["Plain"; "object"] |}.

(** Solver classes that declare one option, "mipgap", with the default 0:
    their configuration block refuses any other key. *)
Definition sample_classes : SolverClasses (gmap string Value) :=
  {| register_options := fun _ => inr {["mipgap" := VInt 0]};
     config_setitem := fun key val config =>
       if bool_decide (is_Some (config !! key))
       then inr (<[key := val]> config)
       else inl (ValueError "key not defined in the configuration block");
     solver_init := fun _ _ => inr tt |}.

Definition sample_registrations : list (string * PyClass) :=
  [("ef", EF); ("ef", NotASolver); ("ddsip", DDSIP); ("ef", DDSIP)].

Definition sample_embedded_sp : SP :=
  EmbeddedSP ["t1"; "t2"; "t3"]
    (<["t1" := [({| is_continuous := true |}, false);
                ({| is_continuous := false |}, false);
                ({| is_continuous := true |}, true)]]>
     {["t2" := [({| is_continuous := true |}, false)]]}).

(** The second of three stages is missing from the map. *)
Definition broken_embedded_sp : SP :=
  EmbeddedSP ["t1"; "t2"; "t3"]
    {["t1" := [({| is_continuous := true |}, false)]]}.

Definition no_xhat_results : SPSolverResults :=
  {| objective := defined (VInt 42); bound := undefined;
     solver_name := undefined; solver_time := undefined;
     solver_status := undefined; pysp_time := None; xhat := None |}.

Definition no_xhat_strategy : Strategy :=
  fun _ _ _ => modify set_threads ;; ret no_xhat_results.

(** A reference model that does not know the identifier "cost". *)
Definition partial_reference_model : ReferenceModel :=
  fun id_ => if String.eqb id_ "x" then Some 0 else None.

End SPSolverSpec.

Module WorkerSpec.
Import Py WorkerPyro.

(** The nodes of the stages strictly between the root stage and the leaf
    stage, in the order [_init] visits them. *)
Definition interior_nodes (tree : ScenarioTree.t)
  : list ScenarioTree.TreeNode :=
  concat (ScenarioTree.nodes <$> interior (ScenarioTree.stages tree)).

(** No node is listed before its parent (nor is its own parent): the
    stages come root first. *)
Fixpoint parents_first (l : list ScenarioTree.TreeNode) : bool :=
  match l with
  | [] => true
  | n :: rest =>
      match ScenarioTree.parent n with
      | None => true
      | Some p => bool_decide (p ∉ ScenarioTree.name <$> n :: rest)
      end && parents_first rest
  end.

(** The call [_init] issues for an interior node, read off the finished
    mapping: a join split for a node of the compressed tree, an exclusion
    split for another node whose parent has a communicator, nothing
    otherwise. *)
Definition expected_call (comms : dict mpi4py.Comm)
    (tree : ScenarioTree.t) (node : ScenarioTree.TreeNode)
  : list mpi4py.Call :=
  match ScenarioTree.parent node with
  | None => []
  | Some p =>
      match comms !! p with
      | None => []
      | Some pc =>
          if ScenarioTree.contains_node tree (ScenarioTree.name node)
          then match comms !! ScenarioTree.name node with
               | Some c => [mpi4py.CallSplit pc (mpi4py.color 0) c]
               | None => []
               end
          else [mpi4py.CallSplit pc mpi4py.UNDEFINED mpi4py.COMM_NULL]
      end
  end.

(** The state of the communicators when the nodes [done] have been
    visited: the root has the communicator [rc]; beside the root, the
    mapping holds the visited nodes of the compressed tree, each below a
    parent that has a communicator; and the calls issued since [calls0]
    are the expected ones, node by node. *)
Definition communicators_built (tree : ScenarioTree.t) (root : string)
    (rc : mpi4py.Comm) (calls0 : list mpi4py.Call)
    (done : list ScenarioTree.TreeNode) (w : World) : Prop :=
  let comms := mpi_comm_tree (self w) in
  comms !! root = Some rc ∧
  (∀ n, is_Some (comms !! n) ↔
        n = root ∨ (n ∈ ScenarioTree.name <$> done ∧
                    ScenarioTree.contains_node tree n = true)) ∧
  (∀ d, d ∈ done →
        ScenarioTree.contains_node tree (ScenarioTree.name d) = true →
        ∃ p pc c, ScenarioTree.parent d = Some p ∧ comms !! p = Some pc ∧
                  comms !! ScenarioTree.name d = Some c) ∧
  (∀ d, d ∈ done → is_Some (ScenarioTree.parent d)) ∧
  mpi4py.calls (mpi w) =
    calls0 ++ concat (expected_call comms tree <$> done).

(** What [_init] leaves alone before it reaches the communicators, and
    what it leaves alone while it builds them. *)
Definition same_communicators (w w' : World) : Prop :=
  mpi w' = mpi w ∧ mpi_comm_tree (self w') = mpi_comm_tree (self w) ∧
  MPI (self w') = MPI (self w).

Definition same_manager (w w' : World) : Prop :=
  base (self w') = base (self w) ∧
  _worker_name (self w') = _worker_name (self w).

(** The malformed inputs the validation of [_init] refuses. *)
Definition refused (worker_init : WorkerInit) : bool :=
  match type_ worker_init with
  | Scenarios =>
      bool_decide (names worker_init = []) ||
      bool_decide (data worker_init ≠ None)
  | Bundles => bool_decide (names worker_init = [])
  end.

(** Two scenarios of the tree differ in objective sense. *)
Definition mixed_senses (tree : ScenarioTree.t) : Prop :=
  ∃ s1 s2, s1 ∈ ScenarioTree._scenarios tree ∧
           s2 ∈ ScenarioTree._scenarios tree ∧
           ScenarioTree.Sense_eqb (ScenarioTree._objective_sense s1)
                                  (ScenarioTree._objective_sense s2) = false.

(** *** Sample inputs *)

Definition sample_options : Options :=
  {| objective_sense_stage_based := None;
     output_instance_construction_time := false;
     compile_scenario_instances := false;
     verbose := false; profile_memory := false; output_times := false |}.

Definition sample_world : World :=
  {| self := __init__ sample_options;
     mpi := {| mpi4py.calls := []; mpi4py.next_handle := 1 |} |}.

Definition sample_members (key : string) : option InvocationType :=
  if String.eqb key "Single" then Some Single
  else if String.eqb key "PerScenario"
       then Some (Variant "PerScenario" false None)
  else if String.eqb key "OnScenario"
       then Some (Variant "OnScenario" true None)
  else None.

(** The module as it stands: its namespace does not bind
    [_map_deprecated_invocation_type]. *)
Definition sample_environment : Environment :=
  {| _map_deprecated_invocation_type := None;
     InvocationType_getattr := sample_members;
     dill_loads := Some (fun f => inr f);
     _invoke_function_by_worker := fun _ _ _ _ _ => ret (VInt 3);
     getattr_self := fun method_name =>
       if String.eqb method_name "ping"
       then Some (fun _ _ => ret (VStr "pong")) else None;
     base_init := inl NotImplementedError;
     base_close_impl := ret tt |}.

(** The same with the name bound to a function that maps every member
    to itself. *)
Definition patched_environment : Environment :=
  {| _map_deprecated_invocation_type := Some (fun a => inr a);
     InvocationType_getattr := sample_members;
     dill_loads := Some (fun f => inr f);
     _invoke_function_by_worker := fun _ _ _ _ _ => ret (VInt 3);
     getattr_self := fun method_name =>
       if String.eqb method_name "ping"
       then Some (fun _ _ => ret (VStr "pong")) else None;
     base_init := inl NotImplementedError;
     base_close_impl := ret tt |}.

Definition sample_scenario (n : string) (p : Q) : ScenarioTree.Scenario :=
  {| ScenarioTree.scenario_name := n; ScenarioTree._probability := p;
     ScenarioTree._objective_name := None;
     ScenarioTree._objective_sense := None |}.

Definition sample_node (n : string) (p : option string) (l : list string)
  : ScenarioTree.TreeNode :=
  {| ScenarioTree.name := n; ScenarioTree.parent := p;
     ScenarioTree.node_scenarios := l |}.

(** Every instance minimizes, but the one of scenario "s3". *)
Definition sample_factory (n : string)
  : Exn + ScenarioTree.Instance :=
  inr {| ScenarioTree.instance_objective_name := "cost";
         ScenarioTree.instance_objective_sense :=
           if String.eqb n "s3" then ScenarioTree.maximize
           else ScenarioTree.minimize |}.

(** Three stages: the root, the interior nodes A and B, and the leaves;
    scenarios s1 and s2 run through A, scenario s3 through B. *)
Definition sample_tree : ScenarioTree.t :=
  {| ScenarioTree.stages :=
       [ {| ScenarioTree.stage_name := "t1";
            ScenarioTree.nodes :=
              [sample_node "Root" None ["s1"; "s2"; "s3"]] |};
         {| ScenarioTree.stage_name := "t2";
            ScenarioTree.nodes :=
              [sample_node "A" (Some "Root") ["s1"; "s2"];
               sample_node "B" (Some "Root") ["s3"]] |};
         {| ScenarioTree.stage_name := "t3";
            ScenarioTree.nodes :=
              [sample_node "LA1" (Some "A") ["s1"];
               sample_node "LA2" (Some "A") ["s2"];
               sample_node "LB1" (Some "B") ["s3"]] |} ];
     ScenarioTree._scenarios :=
       [sample_scenario "s1" (1 # 4)%Q; sample_scenario "s2" (1 # 4)%Q;
        sample_scenario "s3" (1 # 2)%Q];
     ScenarioTree._bundles := ∅;
     ScenarioTree._scenario_instance_factory := sample_factory |}.

(** The scenario tree [_init] has once the instances are linked in
    (lines 136-184), as a function of its inputs. *)
Definition linked_tree
    (uncompressed_scenario_tree : ScenarioTree.t) (worker_init : WorkerInit)
    (opts : Options) : Exn + ScenarioTree.t :=
  match scenarios_to_construct worker_init (verbose opts) with
  | inl e => inl e
  | inr l =>
      let tree :=
        ScenarioTree.make_compressed uncompressed_scenario_tree l false in
      match ScenarioTree.construct_instances_for_scenario_tree
              (ScenarioTree._scenario_instance_factory
                 uncompressed_scenario_tree)
              tree (output_instance_construction_time opts)
              (profile_memory opts) (compile_scenario_instances opts) with
      | inl e => inl e
      | inr instances =>
          ScenarioTree.linkInInstances tree instances
            (objective_sense_stage_based opts) true
      end
  end.

Definition owns_A : WorkerInit :=
  {| type_ := Scenarios; names := ["s1"; "s2"]; data := None |}.

Definition owns_all : WorkerInit :=
  {| type_ := Scenarios; names := ["s1"; "s2"; "s3"]; data := None |}.

Definition no_names : WorkerInit :=
  {| type_ := Scenarios; names := []; data := None |}.

Definition empty_bundle : WorkerInit :=
  {| type_ := Bundles; names := ["b1"; "b2"];
     data := Some (<["b1" := []]> {["b2" := ["s1"]]}) |}.

(** A worker that [_init] has set up with the root communicator 0, its
    compressed tree and the root of that tree. *)
Definition mpi_world : World :=
  (_init sample_environment "server" sample_tree "w1" owns_A VNone
         (Some mpi4py.MPI_module) (Some (mpi4py.comm 0)) sample_world).2.

Definition mpi_tree : ScenarioTree.t :=
  default sample_tree (_scenario_tree (base (self mpi_world))).

Definition mpi_root : ScenarioTree.TreeNode :=
  sample_node "Root" None ["s1"; "s2"].

(** A worker that [_init] has set up, without communicators. *)
Definition initialized_world : World :=
  (_init sample_environment "server" sample_tree "w1" owns_A VNone
         None None sample_world).2.

(** *** Vocabulary for the rest of the worker *)

(** The value [invoke_method] hands back for the value [v] of the method:
    keyed by the worker's name unless the call is one-way, and put in an
    [AsyncResult] when the call is asynchronous. *)
Definition method_result (async oneway : bool) (w : World) (v : Value)
  : Value :=
  let keyed := if oneway then v
               else VDict [(name_value (_worker_name (self w)), v)] in
  if async then VAsyncResult keyed else keyed.

(** [isinstance(invocation_type, _EnumValueWithData)] *)
Definition accepts_data (it : InvocationType) : bool :=
  match it with
  | Variant _ true _ => true
  | _ => false
  end.

(** What the building of the communicators leaves alone: everything but
    the communicators themselves. *)
Definition same_worker (w w' : World) : Prop :=
  base (self w') = base (self w) ∧
  _modules_imported (self w') = _modules_imported (self w) ∧
  _server_name (self w') = _server_name (self w) ∧
  _worker_name (self w') = _worker_name (self w).

(** A tree without its bundles, and the worlds that differ in the bundles
    of the worker's tree only. *)
Definition without_bundles (tree : ScenarioTree.t) : ScenarioTree.t :=
  {| ScenarioTree.stages := ScenarioTree.stages tree;
     ScenarioTree._scenarios := ScenarioTree._scenarios tree;
     ScenarioTree._bundles := ∅;
     ScenarioTree._scenario_instance_factory :=
       ScenarioTree._scenario_instance_factory tree |}.

Definition same_but_bundles (w w' : World) : Prop :=
  mpi w' = mpi w ∧
  _modules_imported (self w') = _modules_imported (self w) ∧
  _server_name (self w') = _server_name (self w) ∧
  _worker_name (self w') = _worker_name (self w) ∧
  MPI (self w') = MPI (self w) ∧
  mpi_comm_tree (self w') = mpi_comm_tree (self w) ∧
  _options (base (self w')) = _options (base (self w)) ∧
  _uncompressed_scenario_tree (base (self w'))
    = _uncompressed_scenario_tree (base (self w)) ∧
  _instances (base (self w')) = _instances (base (self w)) ∧
  _objective_sense (base (self w')) = _objective_sense (base (self w)) ∧
  without_bundles <$> _scenario_tree (base (self w'))
    = without_bundles <$> _scenario_tree (base (self w)).

(** A helper that changes the worker before it returns, in a module whose
    namespace binds the name of line 345. *)
Definition effectful_environment : Environment :=
  {| _map_deprecated_invocation_type := Some (fun a => inr a);
     InvocationType_getattr := sample_members;
     dill_loads := None;
     _invoke_function_by_worker := fun _ _ _ _ _ =>
       modify (set_objective_sense (Some ScenarioTree.maximize)) ;;
       ret (VInt 3);
     getattr_self := fun method_name =>
       if String.eqb method_name "ping"
       then Some (fun _ _ => ret (VStr "pong")) else None;
     base_init := inl NotImplementedError;
     base_close_impl := raise (UserException "teardown failed") |}.

Definition two_bundles : WorkerInit :=
  {| type_ := Bundles; names := ["b1"; "b2"];
     data := Some (<["b1" := ["s1"]]> {["b2" := ["s2"]]}) |}.

Definition missing_bundle : WorkerInit :=
  {| type_ := Bundles; names := ["b1"; "b3"; "b2"];
     data := Some (<["b1" := ["s1"]]> {["b2" := ["s2"]]}) |}.

(** Two stages: the root and the leaves. *)
Definition two_stage_tree : ScenarioTree.t :=
  {| ScenarioTree.stages :=
       [ {| ScenarioTree.stage_name := "t1";
            ScenarioTree.nodes := [sample_node "Root" None ["s1"; "s2"]] |};
         {| ScenarioTree.stage_name := "t2";
            ScenarioTree.nodes :=
              [sample_node "L1" (Some "Root") ["s1"];
               sample_node "L2" (Some "Root") ["s2"]] |} ];
     ScenarioTree._scenarios :=
       [sample_scenario "s1" (1 # 2)%Q; sample_scenario "s2" (1 # 2)%Q];
     ScenarioTree._bundles := ∅;
     ScenarioTree._scenario_instance_factory := sample_factory |}.

End WorkerSpec.

(* ===================================================================== *)
(** ** Dictionaries                                                       *)
(* ===================================================================== *)

Section DictFacts.
Import Py.
Context {V : Type}.
Implicit Types (d : dict V) (k : string) (v : V).

Lemma dict_lookup_empty k : (∅ : dict V) !! k = None.
Proof. reflexivity. Qed.

Lemma dict_lookup_insert_eq d k v : <[k := v]> d !! k = Some v.
Proof.
  destruct d as [l]. unfold lookup, insert, dict_lookup, dict_insert. simpl.
  induction l as [|[k' v'] l IH]; simpl.
  - destruct (decide (k = k)); congruence.
  - destruct (decide (k' = k)) as [->|Hne]; simpl.
    + destruct (decide (k = k)); congruence.
    + destruct (decide (k' = k)); [congruence|exact IH].
Qed.

Lemma dict_lookup_insert_ne d k k' v :
  k ≠ k' → <[k := v]> d !! k' = d !! k'.
Proof.
  intros Hne. destruct d as [l].
  unfold lookup, insert, dict_lookup, dict_insert. simpl.
  induction l as [|[k0 v0] l IH]; simpl.
  - destruct (decide (k = k')); congruence.
  - destruct (decide (k0 = k)) as [->|Hne0]; simpl.
    + destruct (decide (k = k')); congruence.
    + destruct (decide (k0 = k')); [reflexivity|exact IH].
Qed.

Lemma dict_lookup_insert_Some d k k' v v' :
  <[k := v]> d !! k' = Some v' ↔
  (k = k' ∧ v = v') ∨ (k ≠ k' ∧ d !! k' = Some v').
Proof.
  destruct (decide (k = k')) as [->|Hne].
  - rewrite dict_lookup_insert_eq. split.
    + intros [= ->]. left. auto.
    + intros [[_ ->]|[Hne _]]; congruence.
  - rewrite dict_lookup_insert_ne by exact Hne. split.
    + intros H. right. auto.
    + intros [[Heq _]|[_ H]]; congruence.
Qed.

(** What a lookup finds is an item, so it is among the values. *)
Lemma dict_lookup_items d k v : d !! k = Some v → (k, v) ∈ dict_items d.
Proof.
  destruct d as [l]. unfold lookup, dict_lookup. simpl.
  induction l as [|[k0 v0] l IH]; simpl; [discriminate|].
  destruct (decide (k0 = k)) as [->|Hne].
  - intros [= ->]. left.
  - intros H. right. apply IH. exact H.
Qed.

Lemma dict_lookup_values d k v : d !! k = Some v → v ∈ dict_values d.
Proof.
  intros H. apply dict_lookup_items in H. unfold dict_values.
  apply list_elem_of_fmap. exists (k, v). split; [reflexivity|exact H].
Qed.

(** A key of the dictionary has an item. *)
Lemma dict_lookup_keys d k : k ∈ dict_keys d ↔ is_Some (d !! k).
Proof.
  destruct d as [l]. unfold lookup, dict_lookup, dict_keys. simpl.
  induction l as [|[k0 v0] l IH]; simpl.
  - split; [intros H; inversion H|intros [x H]; discriminate].
  - destruct (decide (k0 = k)) as [->|Hne].
    + split; [eauto|intros _; left].
    + rewrite elem_of_cons, IH. split; [intros [?|?]; congruence|auto].
Qed.

End DictFacts.

(* ===================================================================== *)
(** ** Statements about spsolver.py                                       *)
(* ===================================================================== *)

Section MonadFacts.
Import Py MonadSpec.
Context {S : Type}.

Lemma for_app {A} (l1 l2 : list A) (body : A -> M S unit) (s : S) :
  for_ (l1 ++ l2) body s = (for_ l1 body ;; for_ l2 body) s.
Proof.
  revert s. induction l1 as [|x l1 IH]; intros s; simpl.
  - reflexivity.
  - unfold bind in *. destruct (body x s) as [[e|[]] s1]; [reflexivity|].
    apply IH.
Qed.

Lemma for_ext {A} (l : list A) (body1 body2 : A -> M S unit) (s : S) :
  (∀ x, body1 x = body2 x) → for_ l body1 s = for_ l body2 s.
Proof.
  intros Heq. revert s. induction l as [|x l IH]; intros s; simpl.
  - reflexivity.
  - unfold bind. rewrite Heq.
    destruct (body2 x s) as [[e|[]] s1]; [reflexivity|apply IH].
Qed.

Lemma for_pointwise {A} (l : list A) (body1 body2 : A -> M S unit) (s : S) :
  (∀ x t, body1 x t = body2 x t) → for_ l body1 s = for_ l body2 s.
Proof.
  intros Heq. revert s. induction l as [|x l IH]; intros s; simpl.
  - reflexivity.
  - unfold bind. rewrite Heq.
    destruct (body2 x s) as [[e|[]] s1]; [reflexivity|apply IH].
Qed.

Lemma for_concat {A B} (l : list A) (f : A -> list B)
    (body : B -> M S unit) (s : S) :
  for_ l (fun x => for_ (f x) body) s = for_ (concat (f <$> l)) body s.
Proof.
  revert s. induction l as [|x l IH]; intros s; simpl; [reflexivity|].
  rewrite for_app. unfold bind.
  destruct (for_ (f x) body s) as [[e|[]] s1]; [reflexivity|]. apply IH.
Qed.

(** A property every iteration keeps, on both of its exits, is kept by
    the loop. *)
Lemma for_preserves {A} (P : S -> Prop) (l : list A) (body : A -> M S unit) :
  (∀ x s r s', x ∈ l → body x s = (r, s') → P s → P s') →
  ∀ s r s', for_ l body s = (r, s') → P s → P s'.
Proof.
  induction l as [|x l IH]; intros Hbody s r s' Hrun HP; simpl in Hrun.
  - inversion Hrun; subst; exact HP.
  - unfold bind in Hrun. destruct (body x s) as [[e|[]] s1] eqn:Hx.
    + inversion Hrun; subst. eapply Hbody; [left|exact Hx|exact HP].
    + eapply IH; [|exact Hrun|].
      * intros y t r' t' Hy. apply Hbody. right; exact Hy.
      * eapply Hbody; [left|exact Hx|exact HP].
Qed.

(** Rules for [keeps] under a reflexive and transitive relation. *)
Context (R : S -> S -> Prop) `{!PreOrder R}.

Lemma keeps_ret {A} (a : A) : keeps R (ret a).
Proof. intros s r s' H. inversion H; subst. reflexivity. Qed.

Lemma keeps_raise {A} (e : Exn) : keeps R (@raise S A e).
Proof. intros s r s' H. inversion H; subst. reflexivity. Qed.

Lemma keeps_lift {A} (x : Exn + A) : keeps R (lift x).
Proof. intros s r s' H. inversion H; subst. reflexivity. Qed.

Lemma keeps_get : keeps R (@get S).
Proof. intros s r s' H. inversion H; subst. reflexivity. Qed.

Lemma keeps_assert (b : bool) : keeps R (@assert_ S b).
Proof. destruct b; [apply keeps_ret|apply keeps_raise]. Qed.

Lemma keeps_modify (f : S -> S) : (∀ s, R s (f s)) → keeps R (modify f).
Proof. intros Hf s r s' H. inversion H; subst. apply Hf. Qed.

Lemma keeps_bind {A B} (c : M S A) (k : A -> M S B) :
  keeps R c → (∀ a, keeps R (k a)) → keeps R (bind c k).
Proof.
  intros Hc Hk s r s' H. unfold bind in H.
  destruct (c s) as [[e|a] s1] eqn:Hcs.
  - inversion H; subst. eapply Hc; eauto.
  - etransitivity; [eapply Hc; eauto|eapply Hk; eauto].
Qed.

Lemma keeps_for {A} (l : list A) (body : A -> M S unit) :
  (∀ x, keeps R (body x)) → keeps R (for_ l body).
Proof.
  intros Hbody. induction l as [|x l IH]; simpl.
  - apply keeps_ret.
  - apply keeps_bind; [apply Hbody|intros _; exact IH].
Qed.

End MonadFacts.

Section SPSolverFactoryFacts.
Import Py SPSolver SPSolverSpec.

(** A registration is refused exactly when the type does not derive from
    [SPSolver]; the name plays no part. *)
Lemma register_solver_outcome (name : string) (type_ : PyClass)
    (reg : Registry) :
  _register_solver name type_ reg =
    if issubclass type_ "SPSolver"
    then (inr tt, <[name := type_]> reg)
    else (inl (TypeError "Can not register SP solver type"), reg).
Proof.
  unfold _register_solver. destruct (issubclass type_ "SPSolver"); reflexivity.
Qed.

(** C5, as the code has it: registering a second solver type under a name
    that is already taken succeeds, and the second type replaces the
    first. *)
Theorem register_solver_same_name_replaces (n : string) (T1 T2 : PyClass)
    (reg reg1 : Registry) :
  _register_solver n T1 reg = (inr tt, reg1) →
  issubclass T2 "SPSolver" = true →
  reg1 !! n = Some T1 ∧
  ∃ reg2, _register_solver n T2 reg1 = (inr tt, reg2) ∧ reg2 !! n = Some T2.
Proof.
  intros H1 H2. rewrite register_solver_outcome in H1.
  destruct (issubclass T1 "SPSolver"); [|discriminate].
  injection H1 as <-. split; [apply lookup_insert_eq|].
  exists (<[n := T2]> (<[n := T1]> reg)).
  rewrite register_solver_outcome, H2. split; [reflexivity|].
  apply lookup_insert_eq.
Qed.

Lemma register_solver_same_name_replaces_witness :
  _register_solver "ef" EF _registered_solvers
    = (inr tt, <["ef" := EF]> _registered_solvers) ∧
  issubclass DDSIP "SPSolver" = true ∧
  (<["ef" := EF]> _registered_solvers : Registry) !! "ef" = Some EF ∧
  ∃ reg2, _register_solver "ef" DDSIP (<["ef" := EF]> _registered_solvers)
            = (inr tt, reg2) ∧ reg2 !! "ef" = Some DDSIP.
Proof.
  split; [reflexivity|]. split; [reflexivity|].
  apply (register_solver_same_name_replaces "ef" EF DDSIP
           _registered_solvers); reflexivity.
Defined.

(** C5, as the specification words it, fails: after [EF] is registered
    under "ef", registering [DDSIP] under "ef" is not rejected. *)
Lemma register_solver_second_not_rejected :
  (_register_solver "ef" EF _registered_solvers).1 = inr tt ∧
  (_register_solver "ef" DDSIP
     (_register_solver "ef" EF _registered_solvers).2).1 = inr tt ∧
  (_register_solver "ef" DDSIP
     (_register_solver "ef" EF _registered_solvers).2).2 !! "ef"
    = Some DDSIP.
Proof. vm_compute. repeat split; reflexivity. Qed.

(** An unregistered name is answered with a [ValueError], never with a
    solver. *)
Lemma SPSolverFactory_unknown_name {Config} (C : SolverClasses Config)
    (solver_name : string) (kwds : list (string * Value)) (reg : Registry) :
  reg !! solver_name = None →
  SPSolverFactory C solver_name kwds reg =
    (inl (ValueError "No SPSolver object has been registered with name"),
     reg).
Proof.
  intros H. unfold SPSolverFactory, bind, get. rewrite H. reflexivity.
Qed.

End SPSolverFactoryFacts.

Section SolveFacts.
Import Py MonadSpec SPSolver SPSolverSpec.

#[local] Instance same_but_current_preorder : PreOrder same_but_current.
Proof.
  split.
  - intros s. repeat split.
  - intros a b c (Hn & Ho & Hc & Hh) (Hn' & Ho' & Hc' & Hh').
    unfold same_but_current. repeat split; try congruence.
    intros l Hne. rewrite Hh' by congruence. apply Hh. exact Hne.
Qed.

(** *** Entering the scope of the per-call options *)

Lemma setitem_solver_options_run key val s :
  setitem_solver_options key val s =
    match Options__setitem__ key val (deref (heap s) (_solver_options s)) with
    | inl e => (inl e, s)
    | inr o => (inr tt, store_solver_options o s)
    end.
Proof.
  unfold setitem_solver_options, bind, get, lift, modify.
  destruct (Options__setitem__ key val _); reflexivity.
Qed.

Lemma setitem_solver_options_keeps key val :
  keeps same_but_current (setitem_solver_options key val).
Proof.
  intros s r s' H. rewrite setitem_solver_options_run in H.
  destruct (Options__setitem__ key val _) as [e|o]; inversion H; subst.
  - reflexivity.
  - unfold same_but_current. simpl. repeat split.
    intros l Hne. apply lookup_insert_ne. congruence.
Qed.

Lemma copy_items_keeps (items : list (string * Value)) :
  keeps same_but_current
        (for_ items (fun '(key, val) => setitem_solver_options key val)).
Proof.
  apply (@keeps_for _ same_but_current _). intros [key val].
  apply setitem_solver_options_keeps.
Qed.

Lemma new_reference_fresh s : new_reference s ≠ _solver_options s.
Proof.
  unfold new_reference. intros Heq.
  apply (is_fresh ({[_solver_options s]} ∪ dom (heap s))).
  rewrite Heq. set_solver.
Qed.

(** Entering the scope of per-call options, whether the copy of lines
    82-85 runs through or raises: the solver points at a new object, and
    the object it pointed at is as it was. *)
Lemma enter_options_frame (tmp : Options) (s : State) r s1 :
  enter_options (Some tmp) s = (r, s1) →
  _solver_options s1 = new_reference s ∧
  _name s1 = _name s ∧ components s1 = components s ∧
  heap s1 !! _solver_options s = heap s !! _solver_options s.
Proof.
  unfold enter_options, bind, get. unfold modify at 1.
  assert (Hnew : ∀ t, same_but_current (new_solver_options s) t →
            _solver_options t = new_reference s ∧
            _name t = _name s ∧ components t = components s ∧
            heap t !! _solver_options s = heap s !! _solver_options s).
  { intros t (Hn & Ho & Hc & Hh). simpl in *. repeat split; try assumption.
    rewrite Hh by (pose proof (new_reference_fresh s); congruence).
    apply lookup_insert_ne. apply new_reference_fresh. }
  destruct (for_ (dict_items (deref (heap s) (options s))) _
              (new_solver_options s)) as [[e|[]] sa] eqn:Ha.
  - intros H. inversion H; subst. apply Hnew.
    eapply copy_items_keeps. exact Ha.
  - intros Hb. apply Hnew. etransitivity.
    + eapply copy_items_keeps. exact Ha.
    + eapply copy_items_keeps. exact Hb.
Qed.

(** Loading a solution writes components only. *)
Lemma load_variable_frame rm entry s r s' :
  load_variable rm entry s = (r, s') →
  _name s' = _name s ∧ _solver_options s' = _solver_options s ∧
  heap s' = heap s.
Proof.
  destruct entry as [id_ val]. unfold load_variable, bind, get.
  destruct (find_component rm id_ s) as [[h var]|].
  - destruct (negb (is_expression var)); intros H; inversion H; subst;
      repeat split.
  - intros H; inversion H; subst; repeat split.
Qed.

(** The loop over the keys of a dictionary, with the subscript that reads
    the item of each key, visits the items. *)
Lemma elem_of_read_items {V} (d : dict V) k v :
  (k, v) ∈ read_items d ↔ d !! k = Some v.
Proof.
  unfold read_items. rewrite list_elem_of_omap. split.
  - intros (k' & _ & Hk). destruct (d !! k') as [v'|] eqn:Hd; [|discriminate].
    simpl in Hk. injection Hk as <- <-. exact Hd.
  - intros Hd. exists k. split.
    + apply dict_lookup_keys. eauto.
    + rewrite Hd. reflexivity.
Qed.

Lemma for_read_keys {V} (d : dict V) (body : string * V -> M State unit)
    (keys : list string) (s : State) :
  (∀ k, k ∈ keys → is_Some (d !! k)) →
  for_ keys (fun k => let* v := lift (getitem k d) in body (k, v)) s
    = for_ (omap (fun k => pair k <$> d !! k) keys) body s.
Proof.
  revert s. induction keys as [|k keys IH]; intros s Hall; [reflexivity|].
  destruct (Hall k) as [v Hv]; [left|]. simpl. rewrite Hv. simpl.
  unfold bind at 1 2. unfold lift, getitem. rewrite Hv.
  unfold bind at 2.
  destruct (body (k, v) s) as [[e|[]] s1]; [reflexivity|].
  apply IH. intros k' Hk'. apply Hall. right. exact Hk'.
Qed.

Lemma for_read_items {V} (d : dict V) (body : string * V -> M State unit)
    (s : State) :
  for_ (dict_keys d) (fun k => let* v := lift (getitem k d) in body (k, v)) s
    = for_ (read_items d) body s.
Proof.
  apply for_read_keys. intros k Hk. apply dict_lookup_keys. exact Hk.
Qed.

Lemma load_solution_entries rm x s :
  load_solution rm x s = for_ (entries x) (load_variable rm) s.
Proof.
  unfold load_solution, entries.
  rewrite <- (for_concat (read_items x)
                (fun p : string * dict Value => read_items p.2)).
  rewrite <- (for_read_items x
                (fun p => for_ (read_items p.2) (load_variable rm))).
  apply for_pointwise. intros t st. unfold bind at 1 3. unfold lift at 1 3.
  destruct (getitem t x) as [e|sol]; [reflexivity|].
  apply (for_read_items sol (load_variable rm)).
Qed.

Lemma load_solution_frame rm x s r s' :
  load_solution rm x s = (r, s') →
  _name s' = _name s ∧ _solver_options s' = _solver_options s ∧
  heap s' = heap s.
Proof.
  rewrite load_solution_entries. intros Hrun.
  apply (for_preserves
           (fun st => _name st = _name s ∧
                      _solver_options st = _solver_options s ∧
                      heap st = heap s)
           _ _ ) with (s := s) (r := r) (s' := s') in Hrun;
    [exact Hrun| |repeat split].
  intros e t r' t' _ He (Hn & Ho & Hh).
  apply load_variable_frame in He. destruct He as (Hn' & Ho' & Hh').
  repeat split; congruence.
Qed.

(** The guarded block: whatever its outcome, it ends with the solver
    pointing at [orig_options] again, and with every object but the one
    the strategy saw through [self.options] untouched. *)
Lemma solve_guarded_exit impl sp args kwds tmp orig start stop s1 :
  ∃ r s2,
    solve_guarded impl sp args kwds (Some tmp) orig start stop s1
      = (r, set_solver_options orig s2) ∧
    ∀ l, l ≠ _solver_options s1 → heap s2 !! l = heap s1 !! l.
Proof.
  unfold solve_guarded, try_finally, bind, lift, get, modify,
    call_solve_impl.
  destruct (problem_statistics sp) as [e|st].
  - exists (inl e), s1. repeat split.
  - destruct (impl sp args kwds (view s1)) as [[e|r0] v] eqn:Himpl.
    + exists (inl e), (update s1 v). split; [reflexivity|].
      intros l Hne. simpl. apply lookup_insert_ne. congruence.
    + eexists (inr _), (update s1 v). split; [reflexivity|].
      intros l Hne. simpl. apply lookup_insert_ne. congruence.
Qed.

(** The run of [solve], laid out by its outcomes. *)
Lemma solve_run impl sp args kwds rm tmp start stop s :
  solve impl sp args kwds rm tmp start stop s =
    match enter_options tmp s with
    | (inl e, s1) => (inl e, s1)
    | (inr _, s_in) =>
        match problem_statistics sp with
        | inl e => (inl e, restore tmp (options s) s_in)
        | inr _ =>
            match impl sp args kwds (view s_in) with
            | (inl e, v) => (inl e, restore tmp (options s) (update s_in v))
            | (inr r0, v) =>
                let s2 := restore tmp (options s) (update s_in v) in
                let results := stamped r0 (self_name v) start stop in
                match rm with
                | None => (inr results, s2)
                | Some rm =>
                    match xhat r0 with
                    | None => (inl (AttributeError "xhat"), s2)
                    | Some x =>
                        match load_solution rm x s2 with
                        | (inl e, s3) => (inl e, s3)
                        | (inr _, s3) => (inr (del_xhat results), s3)
                        end
                    end
                end
            end
        end
    end.
Proof.
  cbv zeta. unfold solve. unfold bind at 1 2. unfold get.
  destruct (enter_options tmp s) as [[e|[]] s_in]; [reflexivity|].
  unfold bind at 1.
  unfold solve_guarded, try_finally, bind, lift, get, call_solve_impl.
  destruct (problem_statistics sp) as [e|st].
  - destruct tmp; reflexivity.
  - destruct (impl sp args kwds (view s_in)) as [[e|r0] v].
    + destruct tmp; reflexivity.
    + destruct tmp; unfold modify, ret, restore; simpl;
        (destruct rm as [rm|]; [|reflexivity]);
        (destruct (xhat r0) as [x|]; [|reflexivity]);
        match goal with
        | |- context [load_solution rm x ?st] =>
            destruct (load_solution rm x st) as [[e|[]] s3]; reflexivity
        end.
Qed.

(** C2: the copy of lines 82-85 runs before the [try] of line 87.  With
    per-call options one of whose names is the empty string the
    assignment of line 85 raises [IndexError]; no strategy is run, and the
    solver is left pointing at the per-call object, which by then holds
    the per-call value of "mipgap": the option set seen after the call is
    not the one seen before it. *)
Theorem solve_copy_failure_keeps_override :
  observed_options sample_state = Dict [("mipgap", VInt 5)] ∧
  (solve sample_strategy sample_sp [] ∅ None (Some bad_overrides) 10 25
     sample_state).1 = inl IndexError ∧
  options (solve sample_strategy sample_sp [] ∅ None (Some bad_overrides)
             10 25 sample_state).2 ≠ options sample_state ∧
  observed_options (solve sample_strategy sample_sp [] ∅ None
                      (Some bad_overrides) 10 25 sample_state).2
    = Dict [("mipgap", VInt 1)] ∧
  (solve failing_strategy sample_sp [] ∅ None (Some bad_overrides) 10 25
     sample_state).1 = inl IndexError.
Proof. vm_compute. repeat split; try reflexivity. discriminate. Qed.

(** *** Loading the solution onto the reference model *)

Lemma elem_of_entries (x : XHat) (id_ : string) (v : Value) :
  (id_, v) ∈ entries x ↔
  ∃ t sol, x !! t = Some sol ∧ sol !! id_ = Some v.
Proof.
  unfold entries. rewrite list_elem_of_In, in_concat. split.
  - intros (l & Hl & Hin). apply list_elem_of_In, list_elem_of_fmap in Hl.
    destruct Hl as ([t sol] & -> & Hts). simpl in Hin.
    apply elem_of_read_items in Hts.
    apply list_elem_of_In, elem_of_read_items in Hin. eauto.
  - intros (t & sol & Ht & Hs). exists (read_items sol). split.
    + apply list_elem_of_In, list_elem_of_fmap. exists (t, sol).
      split; [reflexivity|]. apply elem_of_read_items. exact Ht.
    + apply list_elem_of_In, elem_of_read_items. exact Hs.
Qed.

Lemma load_variable_keeps_written rm id_ val s r s' h v :
  load_variable rm (id_, val) s = (r, s') →
  (rm id_ = Some h → val = v) →
  written h v (components s) → written h v (components s').
Proof.
  unfold load_variable, bind, get, find_component.
  intros Hrun Hval (c & Hc & He & Hv & Hs).
  destruct (rm id_) as [h'|] eqn:Hrm;
    [|inversion Hrun; subst; exists c; auto].
  destruct (components s !! h') as [c'|] eqn:Hc';
    [|inversion Hrun; subst; exists c; auto].
  destruct (is_expression c') eqn:He'; simpl in Hrun;
    [inversion Hrun; subst; exists c; auto|].
  unfold modify in Hrun. inversion Hrun; subst; simpl.
  destruct (decide (h' = h)) as [->|Hne].
  - rewrite Hval by reflexivity. eexists. rewrite lookup_insert_eq.
    split; [reflexivity|]. simpl. auto.
  - exists c. rewrite lookup_insert_ne by exact Hne. auto.
Qed.

Lemma load_variable_keeps_variable rm e s r s' h :
  load_variable rm e s = (r, s') →
  is_variable h (components s) → is_variable h (components s').
Proof.
  destruct e as [id_ val].
  unfold load_variable, bind, get, find_component.
  intros Hrun (c & Hc & He).
  destruct (rm id_) as [h'|] eqn:Hrm;
    [|inversion Hrun; subst; exists c; auto].
  destruct (components s !! h') as [c'|] eqn:Hc';
    [|inversion Hrun; subst; exists c; auto].
  destruct (is_expression c') eqn:He'; simpl in Hrun;
    [inversion Hrun; subst; exists c; auto|].
  unfold modify in Hrun. inversion Hrun; subst; simpl.
  destruct (decide (h' = h)) as [->|Hne].
  - eexists. rewrite lookup_insert_eq. split; [reflexivity|]. simpl.
    congruence.
  - exists c. rewrite lookup_insert_ne by exact Hne. auto.
Qed.

Lemma load_variable_writes rm id_ val s s' h :
  load_variable rm (id_, val) s = (inr tt, s') →
  rm id_ = Some h → is_variable h (components s) →
  written h val (components s').
Proof.
  unfold load_variable, bind, get, find_component.
  intros Hrun Hrm (c & Hc & He). rewrite Hrm, Hc, He in Hrun. simpl in Hrun.
  unfold modify in Hrun. inversion Hrun; subst; simpl.
  eexists. rewrite lookup_insert_eq. split; [reflexivity|]. simpl. auto.
Qed.

Lemma load_entries_keep_variable rm es s r s' h :
  for_ es (load_variable rm) s = (r, s') →
  is_variable h (components s) → is_variable h (components s').
Proof.
  intros Hrun.
  apply (for_preserves (fun st => is_variable h (components st)) es
           (load_variable rm)) with (s := s) (r := r) (s' := s');
    [|exact Hrun].
  intros e t r' t' _ Hstep. eapply load_variable_keeps_variable. exact Hstep.
Qed.

Lemma load_entries_keep_written rm es s r s' h v :
  for_ es (load_variable rm) s = (r, s') →
  (∀ id_ val, (id_, val) ∈ es → rm id_ = Some h → val = v) →
  written h v (components s) → written h v (components s').
Proof.
  intros Hrun Hall.
  apply (for_preserves (fun st => written h v (components st)) es
           (load_variable rm)) with (s := s) (r := r) (s' := s');
    [|exact Hrun].
  intros [id_ val] t r' t' Hin Hstep.
  eapply load_variable_keeps_written; [exact Hstep|]. apply Hall. exact Hin.
Qed.

(** The last element a predicate holds of splits the list. *)
Lemma last_filter_split {A} (P : A -> Prop) `{∀ x, Decision (P x)}
    (l : list A) (x : A) :
  last (filter P l) = Some x →
  ∃ l1 l2, l = l1 ++ x :: l2 ∧ P x ∧ ∀ y, y ∈ l2 → ¬ P y.
Proof.
  induction l as [|a l IH]; [discriminate|].
  rewrite filter_cons. destruct (decide (P a)) as [Ha|Ha].
  - destruct (filter P l) as [|b f] eqn:Hf.
    + intros [= <-]. exists [], l. split; [reflexivity|]. split; [exact Ha|].
      intros y Hy Py.
      assert (Hin : y ∈ filter P l) by (apply list_elem_of_filter; auto).
      rewrite Hf in Hin. inversion Hin.
    + rewrite last_cons. intros Hl.
      destruct (last (b :: f)) as [z|] eqn:Hz;
        [|apply last_None in Hz; discriminate].
      injection Hl as ->.
      destruct (IH eq_refl) as (l1 & l2 & -> & Px & Hl2).
      exists (a :: l1), l2. auto.
  - intros Hl. destruct (IH Hl) as (l1 & l2 & -> & Px & Hl2).
    exists (a :: l1), l2. auto.
Qed.

(** In a loading that runs through, the last entry that resolves to a
    variable decides its value. *)
Lemma load_entries_last rm es s s' h id_ v :
  for_ es (load_variable rm) s = (inr tt, s') →
  last (filter (fun e : string * Value => rm e.1 = Some h) es)
    = Some (id_, v) →
  is_variable h (components s) → written h v (components s').
Proof.
  intros Hrun Hlast Hvar.
  destruct (last_filter_split _ _ _ Hlast) as (l1 & l2 & -> & Hrm & Hl2).
  simpl in Hrm. rewrite for_app in Hrun. unfold bind in Hrun.
  destruct (for_ l1 (load_variable rm) s) as [[e|[]] s1] eqn:H1;
    [discriminate|].
  change (for_ ((id_, v) :: l2) (load_variable rm) s1)
    with ((load_variable rm (id_, v) ;; for_ l2 (load_variable rm)) s1)
    in Hrun.
  unfold bind in Hrun.
  destruct (load_variable rm (id_, v) s1) as [[e|[]] s2] eqn:H2;
    [discriminate|].
  eapply load_entries_keep_written; [exact Hrun| |].
  - intros id' v' Hin Hrm'. exfalso. apply (Hl2 _ Hin). exact Hrm'.
  - eapply load_variable_writes; [exact H2|exact Hrm|].
    eapply load_entries_keep_variable; [exact H1|exact Hvar].
Qed.

(** A guarded block that returns has run the strategy to its end; the
    result it returns carries the strategy's solution map, and the
    components are as the strategy left them. *)
Lemma solve_guarded_success impl sp args kwds tmp orig start stop s1 res s2 :
  solve_guarded impl sp args kwds tmp orig start stop s1 = (inr res, s2) →
  ∃ r0 v, impl sp args kwds (view s1) = (inr r0, v) ∧ xhat res = xhat r0 ∧
          components s2 = model_components v.
Proof.
  unfold solve_guarded, try_finally, bind, lift, get, call_solve_impl.
  destruct (problem_statistics sp) as [e|st].
  - destruct tmp; unfold modify, ret; intros H; inversion H.
  - destruct (impl sp args kwds (view s1)) as [[e|r0] v] eqn:Himpl.
    + destruct tmp; unfold modify, ret; intros H; inversion H.
    + exists r0, v. split; [reflexivity|].
      destruct tmp; unfold modify, ret in H; inversion H; subst;
        split; reflexivity.
Qed.

(** C9, as the code has it: after a successful [solve] with a reference
    model the result handed back has no [xhat], and every identifier of
    the strategy's solution that resolves to a component which is not an
    expression finds that component marked not stale and holding a value
    of the solution: the value of the last entry, in the order the loops
    visit [xhat], that resolves to the component.  That is the
    identifier's own value whenever the entries that resolve to the
    component agree, whatever the rest of the solution holds. *)
Theorem solve_loads_solution impl sp args kwds rm tmp start stop
    (s s' : State) (v1 : Self) (r0 res : SPSolverResults) (x : XHat) :
  impl sp args kwds (view (enter_options tmp s).2) = (inr r0, v1) →
  xhat r0 = Some x →
  solve impl sp args kwds (Some rm) tmp start stop s = (inr res, s') →
  xhat res = None ∧
  ∀ t sol id_ v h,
    x !! t = Some sol → sol !! id_ = Some v →
    rm id_ = Some h → is_variable h (model_components v1) →
    ∃ v', last_value rm x h = Some v' ∧
          written h v' (components s') ∧
          ((∀ t2 sol2 id2 v2, x !! t2 = Some sol2 → sol2 !! id2 = Some v2 →
                              rm id2 = Some h → v2 = v) →
           written h v (components s')).
Proof.
  intros Himpl Hx Hsolve. rewrite solve_run in Hsolve. cbv zeta in Hsolve.
  destruct (enter_options tmp s) as [[e|[]] s_in]; [discriminate|].
  simpl in Himpl.
  destruct (problem_statistics sp) as [e|st]; [discriminate|].
  rewrite Himpl, Hx in Hsolve.
  set (s2 := restore tmp (options s) (update s_in v1)) in Hsolve.
  assert (Hcomp : components s2 = model_components v1)
    by (unfold s2; destruct tmp; reflexivity).
  destruct (load_solution rm x s2) as [[e|[]] s3] eqn:Hload;
    [discriminate|].
  injection Hsolve as <- <-. split; [reflexivity|].
  intros t sol id_ v h Ht Hsol Hrm Hvar.
  rewrite load_solution_entries in Hload.
  assert (Hin : (id_, v) ∈ entries x) by (apply elem_of_entries; eauto).
  unfold last_value.
  destruct (last (filter (fun e : string * Value => rm e.1 = Some h)
                         (entries x))) as [[id' v']|] eqn:Hlast.
  - exists v'. split; [reflexivity|].
    assert (Hw : written h v' (components s3)).
    { eapply load_entries_last; [exact Hload|exact Hlast|].
      rewrite Hcomp. exact Hvar. }
    split; [exact Hw|]. intros Hagree.
    apply last_Some_elem_of in Hlast.
    apply list_elem_of_filter in Hlast. destruct Hlast as [Hrm' Hin'].
    apply elem_of_entries in Hin'. destruct Hin' as (t2 & sol2 & Ht2 & Hs2).
    rewrite <- (Hagree t2 sol2 id' v' Ht2 Hs2 Hrm'). exact Hw.
  - exfalso. apply last_None in Hlast.
    assert (Hf : (id_, v) ∈ filter (fun e : string * Value =>
                                      rm e.1 = Some h) (entries x))
      by (apply list_elem_of_filter; auto).
    rewrite Hlast in Hf. inversion Hf.
Qed.

Lemma solve_loads_solution_witness :
  ∃ res s',
    solve two_node_strategy sample_sp [] ∅ (Some y_reference_model)
          (Some sample_overrides) 10 25 sample_state = (inr res, s') ∧
    xhat res = None ∧
    last_value y_reference_model
      (Dict [("A", Dict [("y", VInt 3)]); ("B", Dict [("y", VInt 5)])]) 0
      = Some (VInt 5) ∧
    written 0 (VInt 5) (components s').
Proof.
  destruct (solve two_node_strategy sample_sp [] ∅ (Some y_reference_model)
              (Some sample_overrides) 10 25 sample_state)
    as [[e|res] s'] eqn:Hs.
  - vm_compute in Hs. discriminate Hs.
  - exists res, s'. split; [reflexivity|].
    destruct (solve_loads_solution two_node_strategy sample_sp [] ∅
                y_reference_model (Some sample_overrides) 10 25
                sample_state s'
                (two_node_strategy sample_sp [] ∅
                   (view (enter_options (Some sample_overrides)
                                        sample_state).2)).2
                two_node_results res
                (Dict [("A", Dict [("y", VInt 3)]);
                       ("B", Dict [("y", VInt 5)])])
                eq_refl eq_refl Hs)
      as [Hnone Hall].
    split; [exact Hnone|].
    destruct (Hall "A" (Dict [("y", VInt 3)]) "y" (VInt 3) 0)
      as (v' & Hlast & Hw & _); try reflexivity.
    { eexists. split; vm_compute; reflexivity. }
    assert (Hv : v' = VInt 5) by (vm_compute in Hlast; congruence).
    subst v'. split; [reflexivity|exact Hw].
Defined.

(** C9 as stated fails: on a multi-stage solution in which the nodes A
    and B both give a value to "y", the call succeeds, "y" resolves to a
    component that is not an expression, and that component holds the
    value of B: the value the solution has for "y" under A is not on the
    model. *)
Lemma solve_last_value_wins :
  ∃ res s',
    solve two_node_strategy sample_sp [] ∅ (Some y_reference_model) None
          10 25 sample_state = (inr res, s') ∧
    xhat two_node_results
      = Some (Dict [("A", Dict [("y", VInt 3)]);
                    ("B", Dict [("y", VInt 5)])]) ∧
    y_reference_model "y" = Some 0 ∧
    is_variable 0 (components sample_state) ∧
    written 0 (VInt 5) (components s') ∧
    ¬ written 0 (VInt 3) (components s').
Proof.
  destruct (solve two_node_strategy sample_sp [] ∅ (Some y_reference_model)
              None 10 25 sample_state) as [[e|res] s'] eqn:Hs.
  - vm_compute in Hs. discriminate Hs.
  - exists res, s'. split; [reflexivity|]. split; [reflexivity|].
    split; [reflexivity|]. vm_compute in Hs. injection Hs as <- <-.
    split; [eexists; split; vm_compute; reflexivity|].
    split; [eexists; split; [vm_compute; reflexivity|]; repeat split|].
    intros (c & Hc & _ & Hv & _). vm_compute in Hc. injection Hc as <-.
    discriminate Hv.
Qed.

(** A successful strategy whose solution resolves entirely makes [solve]
    return. *)
Lemma load_entries_return rm es s :
  (∀ e, e ∈ es → ∃ h, rm e.1 = Some h ∧ is_Some (components s !! h)) →
  ∃ s', for_ es (load_variable rm) s = (inr tt, s').
Proof.
  revert s. induction es as [|[id_ val] es IH]; intros s Hall; simpl.
  - eexists; reflexivity.
  - destruct (Hall (id_, val)) as (h & Hrm & [c Hc]); [left|]. simpl in Hrm.
    unfold bind at 1. unfold load_variable at 1.
    unfold bind, get, find_component. rewrite Hrm, Hc.
    assert (Hdom : ∀ s1, (∀ k, is_Some (components s !! k) →
                               is_Some (components s1 !! k)) →
                         ∃ s', for_ es (load_variable rm) s1 = (inr tt, s')).
    { intros s1 Hs1. apply IH. intros e He.
      destruct (Hall e) as (k & Hk & Hk'); [right; exact He|]. eauto. }
    destruct (is_expression c); simpl.
    + apply Hdom. auto.
    + unfold modify. apply Hdom. intros k Hk. simpl.
      destruct (decide (h = k)) as [->|Hne].
      * rewrite lookup_insert_eq. eauto.
      * rewrite lookup_insert_ne by exact Hne. exact Hk.
Qed.

Lemma solve_returns impl sp args kwds rm tmp start stop
    (s : State) (v1 : Self) (r0 : SPSolverResults) (x : XHat) st :
  (enter_options tmp s).1 = inr tt →
  problem_statistics sp = inr st →
  impl sp args kwds (view (enter_options tmp s).2) = (inr r0, v1) →
  xhat r0 = Some x →
  (∀ e, e ∈ entries x →
        ∃ h, rm e.1 = Some h ∧ is_Some (model_components v1 !! h)) →
  ∃ res s', solve impl sp args kwds (Some rm) tmp start stop s
              = (inr res, s') ∧ xhat res = None.
Proof.
  intros Henter Hst Himpl Hx Hres. rewrite solve_run. cbv zeta.
  destruct (enter_options tmp s) as [[e|[]] s_in]; [discriminate|].
  simpl in Himpl. rewrite Hst, Himpl, Hx.
  set (s2 := restore tmp (options s) (update s_in v1)).
  assert (Hcomp : components s2 = model_components v1)
    by (unfold s2; destruct tmp; reflexivity).
  rewrite load_solution_entries.
  destruct (load_entries_return rm (entries x) s2) as (s3 & Hrun).
  - rewrite Hcomp. exact Hres.
  - rewrite Hrun. eexists _, s3. split; reflexivity.
Qed.

End SolveFacts.

(* ===================================================================== *)
(** ** Statements about manager_worker_pyro.py: remote invocation         *)
(* ===================================================================== *)

Section InvocationFacts.
Import Py WorkerPyro WorkerSpec.

(** C8: with both flags set, [invoke_function] and [invoke_method] raise
    the usage error at once: whatever the environment holds (helper,
    methods, user functions), the outcome is the [ValueError] and the
    world is the one the call found, so nothing of it has run. *)
Theorem async_oneway_rejected (E : Environment) (function : Function)
    (module_name : option string) (invocation_type : InvocationArg)
    (function_args method_args : list Value)
    (function_kwds method_kwds : option (list (string * Value)))
    (method_name : string) (W : World) :
  invoke_function E function module_name invocation_type function_args
                  function_kwds true true W
    = (inl (ValueError "async oneway calls do not make sense"), W) ∧
  invoke_method E method_name method_args method_kwds true true W
    = (inl (ValueError "async oneway calls do not make sense"), W).
Proof. split; reflexivity. Qed.

(** With [result] unbound, the closing steps raise on every path. *)
Lemma wrap_function_result_unbound invocation_type async oneway W :
  wrap_function_result invocation_type async oneway None W
    = (inl (UnboundLocalError "result"), W).
Proof.
  unfold wrap_function_result.
  destruct oneway, async, (is_Single invocation_type); reflexivity.
Qed.

(** X30: [invoke_function] as written never returns a value: the name it
    calls first may be unbound, the arguments may be refused, the helper may
    raise, and where all that goes well line 364 or line 370 reads the
    unassigned [result]. *)
Lemma invoke_function_never_returns E function module_name invocation_type
    function_args function_kwds async oneway W :
  ∃ e, (invoke_function E function module_name invocation_type
          function_args function_kwds async oneway W).1 = inl e.
Proof.
  unfold invoke_function, bind, lift.
  destruct (async && oneway); [eexists; reflexivity|]. simpl.
  destruct (call_global _ _ _) as [e|it]; [eexists; reflexivity|].
  destruct (check_module_name function module_name) as [e|[]];
    [eexists; reflexivity|].
  destruct (_invoke_function_impl E function module_name it function_args
              function_kwds W) as [[e|v] W1]; [eexists; reflexivity|].
  rewrite wrap_function_result_unbound. eexists; reflexivity.
Qed.

(** C1: on the worker "w1", a default-mode call of [invoke_function]
    for the function "f" of the module "m" with the invocation type
    [Single] does not return the helper's value keyed by "w1".  With the
    module as it stands the call raises [NameError] on line 345; with the
    name of line 345 bound, the helper is run and returns 3, and the call
    raises [UnboundLocalError], since line 358 drops the value and line
    366 reads [result].  The sibling [invoke_method] assigns the value of
    its call to [result] and returns it keyed by "w1". *)
Theorem invoke_function_default_single_fails :
  _worker_name (self initialized_world) = Some "w1" ∧
  invoke_function sample_environment (FunctionName "f") (Some "m")
                  (AsEnum Single) [] None false false initialized_world
    = (inl (NameError "_map_deprecated_invocation_type"),
       initialized_world) ∧
  _invoke_function_impl patched_environment (FunctionName "f") (Some "m")
                        (AsEnum Single) [] None initialized_world
    = (inr (VInt 3), initialized_world) ∧
  invoke_function patched_environment (FunctionName "f") (Some "m")
                  (AsEnum Single) [] None false false initialized_world
    = (inl (UnboundLocalError "result"), initialized_world) ∧
  invoke_method patched_environment "ping" [] None false false
                initialized_world
    = (inr (VDict [(VStr "w1", VStr "pong")]), initialized_world).
Proof. vm_compute. repeat split; reflexivity. Qed.

(** The sibling entry point binds [result] and does wrap it. *)
Lemma invoke_method_default_wrapping E method_name method_args method_kwds
    method W v W1 :
  getattr_self E method_name = Some method →
  method method_args (default [] method_kwds) W = (inr v, W1) →
  invoke_method E method_name method_args method_kwds false false W
    = (inr (VDict [(name_value (_worker_name (self W1)), v)]), W1).
Proof.
  intros Hm Hrun. unfold invoke_method, bind, lift, get. simpl.
  rewrite Hm. destruct method_kwds; simpl in *; rewrite Hrun; reflexivity.
Qed.

End InvocationFacts.

(* ===================================================================== *)
(** ** Statements about manager_worker_pyro.py: _init and _close_impl     *)
(* ===================================================================== *)

Section InitFacts.
Import Py MonadSpec WorkerPyro WorkerSpec.

(** The run of lines 121-198 once the base-class check has passed. *)
Lemma build_scenario_tree_run E server unc wname wi mods W :
  base_init E = inl NotImplementedError →
  let W1 := set_bookkeeping mods server unc wname W in
  let opts := _options (base (self W)) in
  build_scenario_tree E server unc wname wi mods W =
  match scenarios_to_construct wi (verbose opts) with
  | inl e => (inl e, W1)
  | inr l =>
      let tree := ScenarioTree.make_compressed unc l false in
      let W2 := set_scenario_tree tree W1 in
      match ScenarioTree.construct_instances_for_scenario_tree
              (ScenarioTree._scenario_instance_factory unc) tree
              (output_instance_construction_time opts)
              (profile_memory opts) (compile_scenario_instances opts) with
      | inl e => (inl e, W2)
      | inr instances =>
          let W3 := set_instances instances W2 in
          match ScenarioTree.linkInInstances tree instances
                  (objective_sense_stage_based opts) true with
          | inl e => (inl e, W3)
          | inr linked =>
              let W4 := set_scenario_tree linked W3 in
              match ScenarioTree._scenarios linked with
              | [] => (inl IndexError, W4)
              | first :: _ =>
                  let W5 := set_objective_sense
                              (ScenarioTree._objective_sense first) W4 in
                  if forallb (fun _s => ScenarioTree.Sense_eqb
                                          (ScenarioTree._objective_sense _s)
                                          (ScenarioTree._objective_sense first))
                             (ScenarioTree._scenarios linked)
                  then match type_ wi with
                       | Bundles => for_ (names wi) (create_bundle wi) W5
                       | Scenarios => (inr tt, W5)
                       end
                  else (inl AssertionError, W5)
              end
          end
      end
  end.
Proof.
  intros Hbase. cbv zeta.
  unfold build_scenario_tree, check_base_init, bind, lift, get, modify.
  rewrite Hbase. simpl.
  destruct (scenarios_to_construct wi _) as [e|l]; [reflexivity|].
  destruct (ScenarioTree.construct_instances_for_scenario_tree _ _ _ _ _)
    as [e|instances]; [reflexivity|].
  destruct (ScenarioTree.linkInInstances _ _ _ _) as [e|linked];
    [reflexivity|].
  destruct (ScenarioTree._scenarios linked) as [|first rest] eqn:Hs;
    [reflexivity|].
  unfold assert_.
  destruct (forallb _ (first :: rest)); [|reflexivity].
  destruct (type_ wi); reflexivity.
Qed.

Lemma refused_validation wi v :
  refused wi = true → scenarios_to_construct wi v = inl AssertionError.
Proof.
  unfold refused, scenarios_to_construct.
  destruct (type_ wi).
  - intros H. apply orb_true_iff in H. destruct H as [H|H].
    + apply bool_decide_eq_true in H. rewrite H. reflexivity.
    + apply bool_decide_eq_true in H.
      destruct (data wi); [|congruence].
      destruct (negb _); reflexivity.
  - intros H. apply bool_decide_eq_true in H. rewrite H.
    destruct (data wi); reflexivity.
Qed.

(** C6, as the code has it: an empty name list, or auxiliary data on the
    scenarios variant, makes [_init] raise [AssertionError] before the
    tree is compressed, an instance is built or a communicator is made;
    by then it has assigned the four attributes of lines 129-134 and
    nothing else. *)
Theorem malformed_worker_init_refused E server unc wname wi mods MPI_ rc W :
  base_init E = inl NotImplementedError →
  refused wi = true →
  _init E server unc wname wi mods MPI_ rc W
    = (inl AssertionError, set_bookkeeping mods server unc wname W).
Proof.
  intros Hbase Hbad. unfold _init, bind.
  rewrite (build_scenario_tree_run E server unc wname wi mods W Hbase).
  cbv zeta. rewrite (refused_validation wi _ Hbad). reflexivity.
Qed.

Lemma malformed_worker_init_refused_witness :
  base_init sample_environment = inl NotImplementedError ∧
  refused no_names = true ∧
  _init sample_environment "server" sample_tree "w1" no_names VNone
        None None sample_world
    = (inl AssertionError,
       set_bookkeeping VNone "server" sample_tree "w1" sample_world).
Proof.
  split; [reflexivity|]. split; [reflexivity|].
  apply (malformed_worker_init_refused sample_environment "server"
           sample_tree "w1" no_names VNone None None sample_world);
    reflexivity.
Defined.

(** C6 as stated fails: [_init] on an empty name list raises only after
    it has changed the worker (the server name, for one, is set), and a
    bundle that maps to an empty scenario list passes the validation. *)
Lemma init_failure_after_assignments :
  (_init sample_environment "server" sample_tree "w1" no_names VNone
         None None sample_world).1 = inl AssertionError ∧
  _server_name (self sample_world) = None ∧
  _server_name (self (_init sample_environment "server" sample_tree "w1"
                            no_names VNone None None sample_world).2)
    = Some "server" ∧
  scenarios_to_construct empty_bundle false = inr ["s1"] ∧
  (_init sample_environment "server" sample_tree "w1" empty_bundle VNone
         None None sample_world).1 = inr tt.
Proof. vm_compute. repeat split; reflexivity. Qed.

Lemma Sense_eqb_eq a b : ScenarioTree.Sense_eqb a b = true ↔ a = b.
Proof.
  destruct a as [[]|], b as [[]|]; simpl; split; congruence.
Qed.

Lemma mixed_senses_check tree first rest :
  ScenarioTree._scenarios tree = first :: rest →
  mixed_senses tree →
  forallb (fun _s => ScenarioTree.Sense_eqb
                       (ScenarioTree._objective_sense _s)
                       (ScenarioTree._objective_sense first))
          (ScenarioTree._scenarios tree) = false.
Proof.
  intros Hs (s1 & s2 & H1 & H2 & Hne).
  apply not_true_is_false. intros Hall.
  rewrite forallb_forall in Hall.
  assert (E1 := Hall s1 (proj1 (list_elem_of_In _ _) H1)).
  assert (E2 := Hall s2 (proj1 (list_elem_of_In _ _) H2)).
  apply Sense_eqb_eq in E1, E2.
  rewrite E1, E2 in Hne.
  assert (Hrefl : ScenarioTree.Sense_eqb
                    (ScenarioTree._objective_sense first)
                    (ScenarioTree._objective_sense first) = true)
    by (apply Sense_eqb_eq; reflexivity).
  congruence.
Qed.

(** C7: when the scenarios of the compressed tree, with their instances
    linked in, do not all have one objective sense, [_init] does not
    return: it raises, and what it raises is the [AssertionError] of line
    188 whenever the base-class check has let it get that far. *)
Theorem mixed_objective_senses_abort E server unc wname wi mods MPI_ rc W
    (linked : ScenarioTree.t) :
  linked_tree unc wi (_options (base (self W))) = inr linked →
  mixed_senses linked →
  ∃ e, (_init E server unc wname wi mods MPI_ rc W).1 = inl e ∧
       (base_init E = inl NotImplementedError → e = AssertionError).
Proof.
  intros Hlinked Hmixed. unfold _init, bind.
  destruct (base_init E) as [e0|[]] eqn:Hbase.
  - assert (Hcases : e0 = NotImplementedError ∨ e0 ≠ NotImplementedError)
      by (destruct e0; (left; reflexivity) || (right; discriminate)).
    destruct Hcases as [->|Hne].
    + rewrite (build_scenario_tree_run E server unc wname wi mods W Hbase).
      cbv zeta. unfold linked_tree in Hlinked.
      destruct (scenarios_to_construct wi _) as [e|l]; [discriminate|].
      cbv zeta in Hlinked.
      destruct (ScenarioTree.construct_instances_for_scenario_tree _ _ _ _ _)
        as [e|instances]; [discriminate|].
      rewrite Hlinked.
      destruct (ScenarioTree._scenarios linked) as [|first rest] eqn:Hs.
      * destruct Hmixed as (s1 & _ & H1 & _). rewrite Hs in H1.
        inversion H1.
      * rewrite <- Hs.
        rewrite (mixed_senses_check linked first rest Hs Hmixed).
        exists AssertionError. split; [reflexivity|auto].
    + exists e0. split; [|congruence].
      unfold build_scenario_tree, check_base_init, bind. rewrite Hbase.
      destruct e0; try reflexivity. congruence.
  - exists AssertionError. split; [|auto].
    unfold build_scenario_tree, check_base_init, bind. rewrite Hbase.
    reflexivity.
Qed.

Lemma mixed_objective_senses_abort_witness :
  ∃ linked,
    linked_tree sample_tree owns_all
      (_options (base (self sample_world))) = inr linked ∧
    mixed_senses linked ∧
    ∃ e, (_init sample_environment "server" sample_tree "w1" owns_all VNone
                None None sample_world).1 = inl e ∧
         (base_init sample_environment = inl NotImplementedError →
          e = AssertionError).
Proof.
  destruct (linked_tree sample_tree owns_all
              (_options (base (self sample_world)))) as [e|linked] eqn:H.
  - vm_compute in H. discriminate H.
  - exists linked. split; [reflexivity|].
    assert (Hmixed : mixed_senses linked).
    { vm_compute in H. injection H as <-.
      eexists; eexists. split; [left|]. split; [right; right; left|].
      reflexivity. }
    split; [exact Hmixed|].
    apply (mixed_objective_senses_abort sample_environment "server"
             sample_tree "w1" owns_all VNone None None sample_world linked
             H Hmixed).
Defined.

(** *** What each half of [_init] leaves alone *)

#[local] Instance same_communicators_preorder : PreOrder same_communicators.
Proof.
  split.
  - intros w. repeat split.
  - intros a b c (H1 & H2 & H3) (H4 & H5 & H6).
    unfold same_communicators. repeat split; congruence.
Qed.

#[local] Instance same_manager_preorder : PreOrder same_manager.
Proof.
  split.
  - intros w. repeat split.
  - intros a b c (H1 & H2) (H3 & H4).
    unfold same_manager. repeat split; congruence.
Qed.

Ltac keeps_rule lem :=
  match goal with |- keeps ?R _ => apply (lem _ R _) end.

Ltac keeps_step :=
  first [ keeps_rule @keeps_ret | keeps_rule @keeps_raise
        | keeps_rule @keeps_lift | keeps_rule @keeps_get
        | keeps_rule @keeps_assert
        | keeps_rule @keeps_bind; [|intros ?]
        | keeps_rule @keeps_for; intros ?
        | keeps_rule @keeps_modify; intros ?; repeat split ].

Lemma the_scenario_tree_keeps R `{!PreOrder R} : keeps R the_scenario_tree.
Proof.
  unfold the_scenario_tree. keeps_rule @keeps_bind; [keeps_rule @keeps_get|].
  intros w. destruct (_scenario_tree (base (self w)));
    [keeps_rule @keeps_ret|keeps_rule @keeps_raise].
Qed.

Lemma create_bundle_keeps wi bundle_name :
  keeps same_communicators (create_bundle wi bundle_name).
Proof.
  unfold create_bundle.
  keeps_rule @keeps_bind; [apply the_scenario_tree_keeps; exact _|intros tree].
  repeat keeps_step.
Qed.

Lemma build_scenario_tree_keeps E server unc wname wi mods :
  keeps same_communicators
        (build_scenario_tree E server unc wname wi mods).
Proof.
  unfold build_scenario_tree. keeps_rule @keeps_bind.
  { unfold check_base_init. destruct (base_init E) as [[]|];
      keeps_step. }
  intros _. repeat keeps_step.
  destruct (type_ wi); [keeps_rule @keeps_ret|].
  keeps_rule @keeps_for. intros b. apply create_bundle_keeps.
Qed.

Lemma split_for_node_keeps tree node :
  keeps same_manager (split_for_node tree node).
Proof.
  assert (Hmpi : ∀ A (c : M mpi4py.Runtime A), keeps same_manager (on_mpi c)).
  { intros A c w r w' H. unfold on_mpi in H.
    destruct (c (mpi w)) as [r0 rt]. inversion H; subst. repeat split. }
  assert (Hparent : keeps same_manager (parent_name node)).
  { unfold parent_name. destruct (ScenarioTree.parent node); keeps_step. }
  assert (Hcomm : ∀ p, keeps same_manager (comm_of p)).
  { intros p. unfold comm_of. keeps_rule @keeps_bind; [keeps_rule @keeps_get|].
    intros w. destruct (mpi_comm_tree (self w) !! p); keeps_step. }
  unfold split_for_node.
  destruct (ScenarioTree.contains_node tree (ScenarioTree.name node)).
  - keeps_rule @keeps_bind; [exact Hparent|intros p].
    keeps_rule @keeps_bind; [apply Hcomm|intros pc].
    keeps_rule @keeps_bind; [apply Hmpi|intros c]. keeps_step.
  - keeps_rule @keeps_bind; [exact Hparent|intros p].
    keeps_rule @keeps_bind; [keeps_rule @keeps_get|intros w].
    destruct (bool_decide _); [|keeps_rule @keeps_ret].
    keeps_rule @keeps_bind; [apply Hcomm|intros pc].
    keeps_rule @keeps_bind; [apply Hmpi|intros c]. keeps_rule @keeps_ret.
Qed.

Lemma generate_communicators_keeps unc MPI_ rc :
  keeps same_manager (generate_communicators unc MPI_ rc).
Proof.
  unfold generate_communicators.
  destruct MPI_ as [ns|]; [|keeps_rule @keeps_assert].
  destruct rc as [rc|]; [|keeps_rule @keeps_raise].
  keeps_rule @keeps_bind; [apply the_scenario_tree_keeps; exact _|intros tree].
  repeat keeps_step. apply split_for_node_keeps.
Qed.

(** *** The compressed tree of a scenarios worker *)

Lemma init_inversion E server unc wname wi mods MPI_ rc W W' :
  _init E server unc wname wi mods MPI_ rc W = (inr tt, W') →
  ∃ W5, build_scenario_tree E server unc wname wi mods W = (inr tt, W5) ∧
        generate_communicators unc MPI_ rc W5 = (inr tt, W') ∧
        same_communicators W W5 ∧ same_manager W5 W' ∧
        base_init E = inl NotImplementedError.
Proof.
  unfold _init. unfold bind at 1. intros H.
  destruct (build_scenario_tree E server unc wname wi mods W)
    as [[e|[]] W5] eqn:Hbuild; [discriminate|].
  exists W5. split; [reflexivity|]. split; [exact H|].
  split; [eapply build_scenario_tree_keeps; exact Hbuild|].
  split; [eapply generate_communicators_keeps; exact H|].
  unfold build_scenario_tree, check_base_init in Hbuild.
  unfold bind at 1 in Hbuild.
  destruct (base_init E) as [e|[]]; [|discriminate].
  destruct e; try discriminate. reflexivity.
Qed.

Lemma link_scenarios_same instances o l l' :
  ScenarioTree.link_scenarios instances o l = inr l' →
  ScenarioTree.scenario_name <$> l' = ScenarioTree.scenario_name <$> l ∧
  ScenarioTree._probability <$> l' = ScenarioTree._probability <$> l.
Proof.
  revert l'. induction l as [|s l IH]; intros l' H; simpl in H.
  - injection H as <-. split; reflexivity.
  - destruct (instances !! ScenarioTree.scenario_name s) as [i|];
      [|discriminate].
    destruct (ScenarioTree.link_scenarios instances o l) as [e|rest];
      [discriminate|].
    injection H as <-. destruct (IH rest eq_refl) as [Hn Hp].
    split; rewrite !fmap_cons; [rewrite Hn|rewrite Hp]; reflexivity.
Qed.

Lemma link_scenarios_elem instances o l l' s :
  ScenarioTree.link_scenarios instances o l = inr l' → s ∈ l' →
  ∃ s0, s0 ∈ l ∧
        ScenarioTree.scenario_name s0 = ScenarioTree.scenario_name s ∧
        ScenarioTree._probability s = ScenarioTree._probability s0.
Proof.
  revert l'. induction l as [|a l IH]; intros l' H Hin; simpl in H.
  - injection H as <-. inversion Hin.
  - destruct (instances !! ScenarioTree.scenario_name a) as [i|];
      [|discriminate].
    destruct (ScenarioTree.link_scenarios instances o l) as [e|rest];
      [discriminate|].
    injection H as <-. apply elem_of_cons in Hin. destruct Hin as [->|Hin].
    + exists a. split; [left|]. split; reflexivity.
    + destruct (IH rest eq_refl Hin) as (s0 & H0 & Hn & Hp).
      exists s0. split; [right; exact H0|]. split; assumption.
Qed.

Lemma NoDup_fmap_filter {A B} (f : A -> B) (P : A -> Prop)
    `{∀ x, Decision (P x)} (l : list A) :
  NoDup (f <$> l) → NoDup (f <$> filter P l).
Proof.
  induction l as [|a l IH]; intros Hnd; [constructor|].
  simpl in Hnd. apply NoDup_cons in Hnd. destruct Hnd as [Ha Hl].
  rewrite filter_cons. destruct (decide (P a)); [|auto].
  simpl. apply NoDup_cons. split; [|auto].
  intros Hin. apply Ha. apply list_elem_of_fmap in Hin.
  destruct Hin as (x & -> & Hx). apply list_elem_of_filter in Hx.
  apply list_elem_of_fmap. exists x. split; [reflexivity|apply Hx].
Qed.

Lemma scenarios_variant_list wi v l :
  type_ wi = Scenarios → scenarios_to_construct wi v = inr l →
  l = names wi.
Proof.
  unfold scenarios_to_construct. intros -> H.
  destruct (negb _); [discriminate|].
  destruct (data wi); [discriminate|]. injection H as <-. reflexivity.
Qed.

(** C4: a scenarios worker whose [_init] has completed holds a tree with
    exactly the named scenarios, each with the probability it has in the
    uncompressed tree.  The names are distinct scenarios of that tree. *)
Theorem scenarios_worker_tree E server unc wname wi mods MPI_ rc W W' :
  type_ wi = Scenarios →
  NoDup (names wi) →
  names wi ⊆ ScenarioTree.scenario_names unc →
  NoDup (ScenarioTree.scenario_names unc) →
  _init E server unc wname wi mods MPI_ rc W = (inr tt, W') →
  ∃ tree,
    _scenario_tree (base (self W')) = Some tree ∧
    ScenarioTree.scenario_names tree ≡ₚ names wi ∧
    length (ScenarioTree._scenarios tree) = length (names wi) ∧
    ∀ s, s ∈ ScenarioTree._scenarios tree →
         ∃ s0, s0 ∈ ScenarioTree._scenarios unc ∧
               ScenarioTree.scenario_name s0 = ScenarioTree.scenario_name s ∧
               ScenarioTree._probability s = ScenarioTree._probability s0.
Proof.
  intros Hty Hnd Hsub Hndu Hinit.
  destruct (init_inversion _ _ _ _ _ _ _ _ _ _ Hinit)
    as (W5 & Hbuild & _ & _ & [Hbase _] & HE).
  rewrite (build_scenario_tree_run E server unc wname wi mods W HE) in Hbuild.
  cbv zeta in Hbuild.
  destruct (scenarios_to_construct wi _) as [e|l] eqn:Hl; [discriminate|].
  apply (scenarios_variant_list wi _ l Hty) in Hl. subst l.
  destruct (ScenarioTree.construct_instances_for_scenario_tree _ _ _ _ _)
    as [e|instances]; [discriminate|].
  destruct (ScenarioTree.linkInInstances _ _ _ _) as [e|linked] eqn:Hlink;
    [discriminate|].
  destruct (ScenarioTree._scenarios linked) as [|first rest] eqn:Hs;
    [discriminate|].
  destruct (forallb _ _); [|discriminate].
  rewrite Hty in Hbuild. injection Hbuild as <-.
  exists linked. split; [rewrite Hbase; reflexivity|].
  unfold ScenarioTree.linkInInstances in Hlink.
  destruct (ScenarioTree.link_scenarios _ _ _) as [e|l'] eqn:Hls;
    [discriminate|].
  injection Hlink as <-. simpl in *. clear Hs.
  destruct (link_scenarios_same _ _ _ _ Hls) as [Hnames _].
  assert (Hperm : ScenarioTree.scenario_name <$> l' ≡ₚ names wi).
  { rewrite Hnames. apply NoDup_Permutation.
    - apply NoDup_fmap_filter. exact Hndu.
    - exact Hnd.
    - intros x. rewrite list_elem_of_fmap. split.
      + intros (s & -> & Hin). apply list_elem_of_filter in Hin. apply Hin.
      + intros Hx. pose proof (Hsub x Hx) as Hu.
        apply list_elem_of_fmap in Hu. destruct Hu as (s & -> & Hin).
        exists s. split; [reflexivity|].
        apply list_elem_of_filter. split; assumption. }
  split; [exact Hperm|]. split.
  - rewrite <- (length_fmap ScenarioTree.scenario_name l').
    apply Permutation_length. exact Hperm.
  - intros s Hin.
    destruct (link_scenarios_elem _ _ _ _ s Hls Hin) as (s0 & H0 & Hn & Hp).
    apply list_elem_of_filter in H0. exists s0. split; [apply H0|].
    split; assumption.
Qed.

Lemma scenarios_worker_tree_witness :
  ∃ W', _init sample_environment "server" sample_tree "w1" owns_A VNone
              None None sample_world = (inr tt, W') ∧
  ∃ tree,
    _scenario_tree (base (self W')) = Some tree ∧
    ScenarioTree.scenario_names tree ≡ₚ names owns_A ∧
    length (ScenarioTree._scenarios tree) = length (names owns_A) ∧
    ∀ s, s ∈ ScenarioTree._scenarios tree →
         ∃ s0, s0 ∈ ScenarioTree._scenarios sample_tree ∧
               ScenarioTree.scenario_name s0 = ScenarioTree.scenario_name s ∧
               ScenarioTree._probability s = ScenarioTree._probability s0.
Proof.
  destruct (_init sample_environment "server" sample_tree "w1" owns_A VNone
                  None None sample_world) as [[e|[]] W'] eqn:H.
  - vm_compute in H. discriminate H.
  - exists W'. split; [reflexivity|].
    apply (scenarios_worker_tree sample_environment "server" sample_tree
             "w1" owns_A VNone None None sample_world W' eq_refl).
    + apply (bool_decide_unpack _). vm_compute. exact I.
    + apply (bool_decide_unpack _). vm_compute. exact I.
    + apply (bool_decide_unpack _). vm_compute. exact I.
    + exact H.
Defined.

(** *** The communicators *)

Lemma parents_first_middle (done : list ScenarioTree.TreeNode) n rest :
  parents_first (done ++ n :: rest) = true →
  (∀ d p, d ∈ done → ScenarioTree.parent d = Some p →
          p ≠ ScenarioTree.name n) ∧
  (∀ p, ScenarioTree.parent n = Some p → p ≠ ScenarioTree.name n).
Proof.
  induction done as [|a done IH]; simpl; intros H;
    apply andb_true_iff in H; destruct H as [Ha Hrest].
  - split; [intros d p Hd; inversion Hd|].
    intros p Hp. rewrite Hp in Ha. apply bool_decide_eq_true in Ha.
    intros ->. apply Ha. left.
  - destruct (IH Hrest) as [IH1 IH2]. split; [|exact IH2].
    intros d p Hd Hp. apply elem_of_cons in Hd. destruct Hd as [->|Hd].
    + rewrite Hp in Ha. apply bool_decide_eq_true in Ha.
      intros ->. apply Ha. right. rewrite fmap_app. apply elem_of_app.
      right. rewrite fmap_cons. left.
    + eapply IH1; eauto.
Qed.

Lemma expected_call_insert comms tree d k c :
  k ≠ ScenarioTree.name d →
  (∀ p, ScenarioTree.parent d = Some p → p ≠ k) →
  expected_call (<[k := c]> comms) tree d = expected_call comms tree d.
Proof.
  intros Hname Hparent. unfold expected_call.
  destruct (ScenarioTree.parent d) as [p|]; [|reflexivity].
  rewrite dict_lookup_insert_ne by (intros ->; eapply Hparent; eauto).
  rewrite dict_lookup_insert_ne by exact Hname. reflexivity.
Qed.

Lemma expected_calls_insert comms tree
    (done : list ScenarioTree.TreeNode) k c :
  (∀ d, d ∈ done → k ≠ ScenarioTree.name d) →
  (∀ d p, d ∈ done → ScenarioTree.parent d = Some p → p ≠ k) →
  expected_call (<[k := c]> comms) tree <$> done
    = expected_call comms tree <$> done.
Proof.
  intros Hname Hparent. induction done as [|d done IH]; [reflexivity|].
  rewrite !fmap_cons. f_equal.
  - apply expected_call_insert; [apply Hname; left|].
    intros p. apply Hparent. left.
  - apply IH.
    + intros x Hx. apply Hname. right. exact Hx.
    + intros x p Hx. apply Hparent. right. exact Hx.
Qed.

Lemma split_step tree root rc calls0
    (done : list ScenarioTree.TreeNode) n rest W W' :
  NoDup (root :: (ScenarioTree.name <$> done ++ n :: rest)) →
  parents_first (done ++ n :: rest) = true →
  split_for_node tree n W = (inr tt, W') →
  communicators_built tree root rc calls0 done W →
  communicators_built tree root rc calls0 (done ++ [n]) W'.
Proof.
  intros Hnd Hpf Hrun (Hroot & Hdom & Hin & Hpar & Hcalls).
  apply NoDup_cons in Hnd. destruct Hnd as [Hrootfresh Hnd].
  rewrite fmap_app, fmap_cons in Hrootfresh, Hnd.
  assert (F1 : ScenarioTree.name n ≠ root).
  { intros <-. apply Hrootfresh. apply elem_of_app. right. left. }
  assert (F2 : ∀ d, d ∈ done → ScenarioTree.name n ≠ ScenarioTree.name d).
  { intros d Hd Heq. apply NoDup_app in Hnd.
    destruct Hnd as (_ & Hdisj & _).
    apply (Hdisj (ScenarioTree.name d)).
    - apply list_elem_of_fmap. eauto.
    - rewrite <- Heq. left. }
  destruct (parents_first_middle done n rest Hpf) as [F3 F4].
  unfold split_for_node in Hrun.
  destruct (ScenarioTree.parent n) as [p|] eqn:Hp;
    [|destruct (ScenarioTree.contains_node tree (ScenarioTree.name n));
      unfold parent_name in Hrun; rewrite Hp in Hrun; discriminate].
  assert (Hpar' : ∀ d, d ∈ done ++ [n] → is_Some (ScenarioTree.parent d)).
  { intros d Hd. apply elem_of_app in Hd. destruct Hd as [Hd|Hd]; [auto|].
    apply list_elem_of_singleton in Hd. subst d. rewrite Hp. eauto. }
  unfold parent_name, comm_of, bind, get, on_mpi, modify in Hrun.
  rewrite Hp in Hrun. unfold ret in Hrun.
  destruct (ScenarioTree.contains_node tree (ScenarioTree.name n)) eqn:Hc.
  - (* a node of the compressed tree: join *)
    destruct (mpi_comm_tree (self W) !! p) as [pc|] eqn:Hpc;
      [|discriminate].
    simpl in Hrun. injection Hrun as <-.
    unfold communicators_built. simpl.
    set (c := mpi4py.comm (mpi4py.next_handle (mpi W))).
    assert (Hpne : p ≠ ScenarioTree.name n) by (apply F4; reflexivity).
    split; [rewrite dict_lookup_insert_ne by exact F1; exact Hroot|].
    split; [|split; [|split; [exact Hpar'|]]].
    + intros m. rewrite fmap_app, elem_of_app.
      destruct (decide (ScenarioTree.name n = m)) as [<-|Hne].
      * rewrite dict_lookup_insert_eq. split; [|eauto].
        intros _. right. split; [right; left|exact Hc].
      * rewrite dict_lookup_insert_ne by exact Hne. rewrite Hdom.
        split; (intros [->|[Hm Hcm]]; [left; reflexivity|right]).
        -- split; [left; exact Hm|exact Hcm].
        -- split; [|exact Hcm]. destruct Hm as [Hm|Hm]; [exact Hm|].
           apply list_elem_of_singleton in Hm. congruence.
    + intros d Hd Hcd. apply elem_of_app in Hd. destruct Hd as [Hd|Hd].
      * destruct (Hin d Hd Hcd) as (p' & pc' & c' & Hp' & Hpc' & Hc').
        exists p', pc', c'. split; [exact Hp'|].
        rewrite !dict_lookup_insert_ne; [auto| |].
        -- apply F2. exact Hd.
        -- intros Heq. eapply F3; eauto.
      * apply list_elem_of_singleton in Hd. subst d.
        exists p, pc, c. split; [exact Hp|].
        rewrite dict_lookup_insert_ne by congruence.
        rewrite dict_lookup_insert_eq. auto.
    + rewrite Hcalls, fmap_app, concat_app, <- app_assoc. f_equal.
      rewrite expected_calls_insert.
      * f_equal. simpl. rewrite app_nil_r. unfold expected_call.
        rewrite Hp, Hc. rewrite dict_lookup_insert_ne by congruence.
        rewrite Hpc, dict_lookup_insert_eq. reflexivity.
      * exact F2.
      * intros d q Hd Hq. eapply F3; eauto.
  - (* another node: exclusion, if the parent has a communicator *)
    destruct (mpi_comm_tree (self W) !! p) as [pc|] eqn:Hpc.
    + rewrite bool_decide_eq_true_2 in Hrun by eauto.
      simpl in Hrun. rewrite Hpc in Hrun. simpl in Hrun.
      injection Hrun as <-.
      unfold communicators_built. simpl.
      split; [exact Hroot|].
      split; [|split; [|split; [exact Hpar'|]]].
      * intros m. rewrite Hdom, fmap_app, elem_of_app.
        split; (intros [->|[Hm Hcm]]; [left; reflexivity|right]).
        -- split; [left; exact Hm|exact Hcm].
        -- split; [|exact Hcm]. destruct Hm as [Hm|Hm]; [exact Hm|].
           apply list_elem_of_singleton in Hm. congruence.
      * intros d Hd Hcd. apply elem_of_app in Hd. destruct Hd as [Hd|Hd];
          [auto|].
        apply list_elem_of_singleton in Hd. congruence.
      * rewrite Hcalls, fmap_app, concat_app, <- app_assoc. do 2 f_equal.
        simpl. rewrite app_nil_r. unfold expected_call.
        rewrite Hp, Hc, Hpc. reflexivity.
    + rewrite bool_decide_eq_false_2 in Hrun
        by (intros [x Hx]; congruence).
      injection Hrun as <-.
      unfold communicators_built.
      split; [exact Hroot|].
      split; [|split; [|split; [exact Hpar'|]]].
      * intros m. rewrite Hdom, fmap_app, elem_of_app.
        split; (intros [->|[Hm Hcm]]; [left; reflexivity|right]).
        -- split; [left; exact Hm|exact Hcm].
        -- split; [|exact Hcm]. destruct Hm as [Hm|Hm]; [exact Hm|].
           apply list_elem_of_singleton in Hm. congruence.
      * intros d Hd Hcd. apply elem_of_app in Hd. destruct Hd as [Hd|Hd];
          [auto|].
        apply list_elem_of_singleton in Hd. congruence.
      * rewrite Hcalls, fmap_app, concat_app.
        replace (concat (expected_call (mpi_comm_tree (self W)) tree <$> [n]))
          with (@nil mpi4py.Call); [rewrite app_nil_r; reflexivity|].
        simpl. unfold expected_call. rewrite Hp, Hpc. reflexivity.
Qed.

Lemma split_loop tree root rc calls0 todo :
  ∀ (done : list ScenarioTree.TreeNode) W W',
    NoDup (root :: (ScenarioTree.name <$> done ++ todo)) →
    parents_first (done ++ todo) = true →
    for_ todo (split_for_node tree) W = (inr tt, W') →
    communicators_built tree root rc calls0 done W →
    communicators_built tree root rc calls0 (done ++ todo) W'.
Proof.
  induction todo as [|n rest IH]; intros done W W' Hnd Hpf Hrun Hinv.
  - simpl in Hrun. injection Hrun as <-. rewrite app_nil_r. exact Hinv.
  - simpl in Hrun. unfold bind in Hrun.
    destruct (split_for_node tree n W) as [[e|[]] W1] eqn:Hstep;
      [discriminate|].
    assert (Heq : done ++ n :: rest = (done ++ [n]) ++ rest)
      by (rewrite <- app_assoc; reflexivity).
    rewrite Heq. apply (IH (done ++ [n]) W1 W').
    + rewrite <- Heq. exact Hnd.
    + rewrite <- Heq. exact Hpf.
    + exact Hrun.
    + eapply split_step; eauto.
Qed.

Lemma generate_communicators_run unc ns rc W5 tree root :
  _scenario_tree (base (self W5)) = Some tree →
  ScenarioTree.findRootNode tree = Some root →
  generate_communicators unc (Some ns) (Some rc) W5 =
    for_ (interior_nodes unc) (split_for_node tree)
         (set_comm (ScenarioTree.name root) rc (set_MPI ns W5)).
Proof.
  intros Htree Hroot.
  unfold generate_communicators, the_scenario_tree, bind, get, lift, modify.
  rewrite Htree. unfold ret. rewrite Hroot.
  unfold interior_nodes. rewrite <- for_concat. reflexivity.
Qed.

Lemma generate_communicators_built unc ns rc W5 W' tree root :
  mpi_comm_tree (self W5) = ∅ →
  _scenario_tree (base (self W5)) = Some tree →
  ScenarioTree.findRootNode tree = Some root →
  NoDup (ScenarioTree.name root ::
           (ScenarioTree.name <$> interior_nodes unc)) →
  parents_first (interior_nodes unc) = true →
  generate_communicators unc (Some ns) (Some rc) W5 = (inr tt, W') →
  communicators_built tree (ScenarioTree.name root) rc
                      (mpi4py.calls (mpi W5)) (interior_nodes unc) W'.
Proof.
  intros Hempty Htree Hroot Hnd Hpf Hrun.
  rewrite (generate_communicators_run unc ns rc W5 tree root Htree Hroot)
    in Hrun.
  apply (split_loop tree (ScenarioTree.name root) rc
           (mpi4py.calls (mpi W5)) (interior_nodes unc) []
           (set_comm (ScenarioTree.name root) rc (set_MPI ns W5)) W');
    [exact Hnd|exact Hpf|exact Hrun|].
  unfold communicators_built. simpl. rewrite Hempty.
  split; [apply dict_lookup_insert_eq|].
  split; [|split; [|split]].
  - intros n. split.
    + intros [c Hc]. apply dict_lookup_insert_Some in Hc.
      destruct Hc as [[<- _]|[_ Hc]]; [left; reflexivity|].
      rewrite dict_lookup_empty in Hc. discriminate.
    + intros [->|[Hn _]]; [rewrite dict_lookup_insert_eq; eauto|inversion Hn].
  - intros d Hd. inversion Hd.
  - intros d Hd. inversion Hd.
  - rewrite app_nil_r. reflexivity.
Qed.

(** C3: after a successful [_init] with a communication layer and a root
    communicator, on a worker that held no communicator before, the
    mapping holds the root with the communicator supplied, and beside it
    exactly the interior nodes the compressed tree contains, each with the
    result of a join split of its parent's communicator; for an interior
    node the tree does not contain and whose parent has a communicator,
    the exclusion split on the parent's communicator has been issued and
    the node has no entry.  The calls issued are those and no others, in
    the order of the nodes.  The node names are distinct and a parent
    comes before its children. *)
Theorem init_builds_communicators E server unc wname wi mods ns rc
    (W0 W' : World) (tree : ScenarioTree.t) (root : ScenarioTree.TreeNode) :
  mpi_comm_tree (self W0) = ∅ →
  _init E server unc wname wi mods (Some ns) (Some rc) W0 = (inr tt, W') →
  _scenario_tree (base (self W')) = Some tree →
  ScenarioTree.findRootNode tree = Some root →
  NoDup (ScenarioTree.name root ::
           (ScenarioTree.name <$> interior_nodes unc)) →
  parents_first (interior_nodes unc) = true →
  let comms := mpi_comm_tree (self W') in
  comms !! ScenarioTree.name root = Some rc ∧
  (∀ n, is_Some (comms !! n) ↔
        n = ScenarioTree.name root ∨
        (n ∈ ScenarioTree.name <$> interior_nodes unc ∧
         ScenarioTree.contains_node tree n = true)) ∧
  (∀ node, node ∈ interior_nodes unc →
     ScenarioTree.contains_node tree (ScenarioTree.name node) = true →
     ∃ p pc c,
       ScenarioTree.parent node = Some p ∧ comms !! p = Some pc ∧
       comms !! ScenarioTree.name node = Some c ∧
       mpi4py.CallSplit pc (mpi4py.color 0) c ∈ mpi4py.calls (mpi W')) ∧
  (∀ node p pc, node ∈ interior_nodes unc →
     ScenarioTree.contains_node tree (ScenarioTree.name node) = false →
     ScenarioTree.parent node = Some p → comms !! p = Some pc →
     mpi4py.CallSplit pc mpi4py.UNDEFINED mpi4py.COMM_NULL
       ∈ mpi4py.calls (mpi W') ∧
     comms !! ScenarioTree.name node = None) ∧
  mpi4py.calls (mpi W') =
    mpi4py.calls (mpi W0) ++
    concat (expected_call comms tree <$> interior_nodes unc).
Proof.
  intros Hempty Hinit Htree Hroot Hnd Hpf comms.
  destruct (init_inversion _ _ _ _ _ _ _ _ _ _ Hinit)
    as (W5 & _ & Hgen & (Hmpi & Hcomm & _) & (Hbase & _) & _).
  rewrite Hbase in Htree. rewrite Hempty in Hcomm.
  destruct (generate_communicators_built unc ns rc W5 W' tree root
              Hcomm Htree Hroot Hnd Hpf Hgen)
    as (Hr & Hdom & Hin & Hpar & Hcalls).
  rewrite Hmpi in Hcalls. fold comms in Hr, Hdom, Hin, Hcalls.
  assert (Hcall : ∀ node, node ∈ interior_nodes unc →
            ∀ x, x ∈ expected_call comms tree node →
                 x ∈ mpi4py.calls (mpi W')).
  { intros node Hnode x Hx. rewrite Hcalls. apply elem_of_app. right.
    apply list_elem_of_In, in_concat.
    exists (expected_call comms tree node). split.
    - apply list_elem_of_In, list_elem_of_fmap. eauto.
    - apply list_elem_of_In. exact Hx. }
  split; [exact Hr|]. split; [exact Hdom|]. split; [|split; [|exact Hcalls]].
  - intros node Hnode Hc.
    destruct (Hin node Hnode Hc) as (p & pc & c & Hp & Hpc & Hc').
    exists p, pc, c. repeat (split; [assumption|]).
    apply (Hcall node Hnode). unfold expected_call.
    rewrite Hp, Hpc, Hc, Hc'. left.
  - intros node p pc Hnode Hc Hp Hpc. split.
    + apply (Hcall node Hnode). unfold expected_call.
      rewrite Hp, Hpc, Hc. left.
    + apply eq_None_not_Some. intros Hsome. apply Hdom in Hsome.
      destruct Hsome as [Heq|[_ Hc']]; [|congruence].
      apply NoDup_cons in Hnd. destruct Hnd as [Hfresh _].
      apply Hfresh. rewrite <- Heq. apply list_elem_of_fmap. eauto.
Qed.

Lemma init_builds_communicators_witness :
  let comms := mpi_comm_tree (self mpi_world) in
  comms !! "Root" = Some (mpi4py.comm 0) ∧
  (∀ n, is_Some (comms !! n) ↔
        n = "Root" ∨
        (n ∈ ScenarioTree.name <$> interior_nodes sample_tree ∧
         ScenarioTree.contains_node mpi_tree n = true)) ∧
  (∀ node, node ∈ interior_nodes sample_tree →
     ScenarioTree.contains_node mpi_tree (ScenarioTree.name node) = true →
     ∃ p pc c,
       ScenarioTree.parent node = Some p ∧ comms !! p = Some pc ∧
       comms !! ScenarioTree.name node = Some c ∧
       mpi4py.CallSplit pc (mpi4py.color 0) c
         ∈ mpi4py.calls (mpi mpi_world)) ∧
  (∀ node p pc, node ∈ interior_nodes sample_tree →
     ScenarioTree.contains_node mpi_tree (ScenarioTree.name node) = false →
     ScenarioTree.parent node = Some p → comms !! p = Some pc →
     mpi4py.CallSplit pc mpi4py.UNDEFINED mpi4py.COMM_NULL
       ∈ mpi4py.calls (mpi mpi_world) ∧
     comms !! ScenarioTree.name node = None) ∧
  mpi4py.calls (mpi mpi_world) =
    mpi4py.calls (mpi sample_world) ++
    concat (expected_call comms mpi_tree <$> interior_nodes sample_tree).
Proof.
  apply (init_builds_communicators sample_environment "server" sample_tree
           "w1" owns_A VNone mpi4py.MPI_module (mpi4py.comm 0)
           sample_world mpi_world mpi_tree mpi_root).
  - reflexivity.
  - vm_compute. reflexivity.
  - vm_compute. reflexivity.
  - vm_compute. reflexivity.
  - apply (bool_decide_unpack _). vm_compute. exact I.
  - vm_compute. reflexivity.
Defined.

(** The scenario of the specification: the worker owns scenarios under A
    only; A has a communicator, B has none, and both splits of the root
    communicator were issued. *)
Lemma three_stage_scenario :
  dict_items (mpi_comm_tree (self mpi_world))
    = [("Root", mpi4py.comm 0); ("A", mpi4py.comm 1)] ∧
  mpi4py.calls (mpi mpi_world)
    = [mpi4py.CallSplit (mpi4py.comm 0) (mpi4py.color 0) (mpi4py.comm 1);
       mpi4py.CallSplit (mpi4py.comm 0) mpi4py.UNDEFINED mpi4py.COMM_NULL].
Proof. vm_compute. split; reflexivity. Qed.

(** *** Teardown *)

Lemma free_loop (l : list mpi4py.Comm) (W : World) :
  for_ l (fun comm_ => on_mpi (mpi4py.Free comm_)) W =
    (inr tt,
     {| self := self W;
        mpi := {| mpi4py.calls := mpi4py.calls (mpi W) ++
                                  (mpi4py.CallFree <$> l);
                  mpi4py.next_handle := mpi4py.next_handle (mpi W) |} |}).
Proof.
  revert W. induction l as [|c l IH]; intros W; simpl.
  - rewrite app_nil_r. destruct W as [s [cs nh]]. reflexivity.
  - unfold bind, on_mpi at 1, mpi4py.Free. simpl. rewrite IH. simpl.
    rewrite <- app_assoc. reflexivity.
Qed.

(** A successful teardown frees every communicator of the mapping, and
    issues nothing else. *)
Lemma close_impl_frees E W m :
  base_close_impl E (base (self W)) = (inr tt, m) →
  ∃ W', _close_impl E W = (inr tt, W') ∧
        mpi4py.calls (mpi W') =
          mpi4py.calls (mpi W) ++
          (mpi4py.CallFree <$> dict_values (mpi_comm_tree (self W))).
Proof.
  intros Hbase. unfold _close_impl, bind, get, on_base.
  rewrite Hbase. rewrite free_loop. eexists. split; reflexivity.
Qed.

Lemma split_for_node_keeps_root tree n W r W' root rc :
  ScenarioTree.name n ≠ root →
  split_for_node tree n W = (r, W') →
  mpi_comm_tree (self W) !! root = Some rc →
  mpi_comm_tree (self W') !! root = Some rc.
Proof.
  intros Hne Hrun Hroot.
  unfold split_for_node, parent_name, comm_of, bind, get, on_mpi, modify
    in Hrun.
  unfold ret, raise in Hrun.
  destruct (ScenarioTree.contains_node tree (ScenarioTree.name n));
    destruct (ScenarioTree.parent n) as [p|]; simpl in Hrun;
    try (inversion Hrun; subst; exact Hroot).
  - destruct (mpi_comm_tree (self W) !! p) as [pc|]; simpl in Hrun;
      inversion Hrun; subst; [|exact Hroot].
    simpl. rewrite dict_lookup_insert_ne by exact Hne. exact Hroot.
  - destruct (bool_decide _); [|inversion Hrun; subst; exact Hroot].
    destruct (mpi_comm_tree (self W) !! p) as [pc|]; simpl in Hrun;
      inversion Hrun; subst; exact Hroot.
Qed.

Lemma init_keeps_root_communicator E server unc wname wi mods ns rc
    W0 W tree root :
  _init E server unc wname wi mods (Some ns) (Some rc) W0 = (inr tt, W) →
  _scenario_tree (base (self W)) = Some tree →
  ScenarioTree.findRootNode tree = Some root →
  ScenarioTree.name root ∉ ScenarioTree.name <$> interior_nodes unc →
  mpi_comm_tree (self W) !! ScenarioTree.name root = Some rc.
Proof.
  intros Hinit Htree Hroot Hfresh.
  destruct (init_inversion _ _ _ _ _ _ _ _ _ _ Hinit)
    as (W5 & _ & Hgen & _ & (Hbase & _) & _).
  rewrite Hbase in Htree.
  rewrite (generate_communicators_run unc ns rc W5 tree root Htree Hroot)
    in Hgen.
  apply (for_preserves
           (fun w => mpi_comm_tree (self w) !! ScenarioTree.name root
                     = Some rc)
           (interior_nodes unc) (split_for_node tree))
    with (s := set_comm (ScenarioTree.name root) rc (set_MPI ns W5))
         (r := inr tt); [|exact Hgen|apply dict_lookup_insert_eq].
  intros n w r w' Hn Hstep Hw.
  eapply split_for_node_keeps_root; [|exact Hstep|exact Hw].
  intros Heq. apply Hfresh. rewrite <- Heq. apply list_elem_of_fmap. eauto.
Qed.

(** C10: the teardown of a worker that [_init] has given communicators
    calls [Free] on every communicator of the mapping, and among them on
    the root communicator the caller handed to [_init]. *)
Theorem close_impl_frees_root_communicator E server unc wname wi mods ns rc
    (W0 W : World) (tree : ScenarioTree.t) (root : ScenarioTree.TreeNode)
    (m : Manager) :
  _init E server unc wname wi mods (Some ns) (Some rc) W0 = (inr tt, W) →
  _scenario_tree (base (self W)) = Some tree →
  ScenarioTree.findRootNode tree = Some root →
  ScenarioTree.name root ∉ ScenarioTree.name <$> interior_nodes unc →
  base_close_impl E (base (self W)) = (inr tt, m) →
  ∃ W' frees,
    _close_impl E W = (inr tt, W') ∧
    mpi4py.calls (mpi W') = mpi4py.calls (mpi W) ++ frees ∧
    mpi4py.CallFree rc ∈ frees ∧
    ∀ n c, mpi_comm_tree (self W) !! n = Some c → mpi4py.CallFree c ∈ frees.
Proof.
  intros Hinit Htree Hroot Hfresh Hbase.
  destruct (close_impl_frees E W m Hbase) as (W' & Hclose & Hcalls).
  exists W', (mpi4py.CallFree <$> dict_values (mpi_comm_tree (self W))).
  split; [exact Hclose|]. split; [exact Hcalls|].
  assert (Hall : ∀ n c, mpi_comm_tree (self W) !! n = Some c →
            mpi4py.CallFree c
              ∈ mpi4py.CallFree <$> dict_values (mpi_comm_tree (self W))).
  { intros n c Hc. apply list_elem_of_fmap. exists c. split; [reflexivity|].
    eapply dict_lookup_values. exact Hc. }
  split; [|exact Hall].
  apply (Hall (ScenarioTree.name root)).
  eapply init_keeps_root_communicator; eauto.
Qed.

Lemma close_impl_frees_root_communicator_witness :
  ∃ W' frees,
    _close_impl sample_environment mpi_world = (inr tt, W') ∧
    mpi4py.calls (mpi W') = mpi4py.calls (mpi mpi_world) ++ frees ∧
    mpi4py.CallFree (mpi4py.comm 0) ∈ frees ∧
    ∀ n c, mpi_comm_tree (self mpi_world) !! n = Some c →
           mpi4py.CallFree c ∈ frees.
Proof.
  apply (close_impl_frees_root_communicator sample_environment "server"
           sample_tree "w1" owns_A VNone mpi4py.MPI_module (mpi4py.comm 0)
           sample_world mpi_world mpi_tree mpi_root
           (base (self mpi_world))).
  - vm_compute. reflexivity.
  - vm_compute. reflexivity.
  - vm_compute. reflexivity.
  - apply (bool_decide_unpack _). vm_compute. exact I.
  - reflexivity.
Defined.

End InitFacts.


(* ===================================================================== *)
(** ** Further statements about spsolver.py                               *)
(* ===================================================================== *)

Section StatisticsFacts.
Import Py SPSolver SPSolverSpec.

Lemma count_embedded_stage_le vars na cont :
  cont ≤ na →
  (count_embedded_stage vars (na, cont)).2
    ≤ (count_embedded_stage vars (na, cont)).1.
Proof.
  unfold count_embedded_stage. revert na cont.
  induction vars as [|[var derived] vars IH]; intros na cont Hle; simpl.
  - exact Hle.
  - destruct derived; [apply IH; exact Hle|].
    destruct (is_continuous var); apply IH; lia.
Qed.

Lemma count_embedded_le stages map_ acc r :
  acc.2 ≤ acc.1 → count_embedded stages map_ acc = inr r → r.2 ≤ r.1.
Proof.
  revert acc. induction stages as [|st stages IH]; intros acc Hle H;
    simpl in H.
  - injection H as <-. exact Hle.
  - destruct (map_ !! st) as [vars|]; [|discriminate].
    eapply IH; [|exact H]. destruct acc as [na cont].
    apply count_embedded_stage_le. exact Hle.
Qed.

Lemma count_continuous_bound (n : TreeNode) ids cont :
  foldl (fun c id_ => if is_variable_discrete n id_ then c else S c) cont ids
    = cont + length (filter (fun id_ => is_variable_discrete n id_ = false)
                            ids).
Proof.
  revert cont. induction ids as [|i ids IH]; intros cont; simpl.
  - lia.
  - rewrite IH, filter_cons.
    destruct (is_variable_discrete n i) eqn:Hd.
    + destruct (decide (true = false)); [discriminate|]. reflexivity.
    + destruct (decide (false = false)); [|congruence]. simpl. lia.
Qed.

Lemma count_tree_nodes_spec (nodes : list TreeNode) na cont :
  foldl (fun a n => count_tree_node n a) (na, cont) nodes =
    (na + length (concat ((fun n : TreeNode =>
                             (fun id_ : string => (n, id_))
                               <$> _standard_variable_ids n) <$> nodes)),
     cont + length (filter (fun p : TreeNode * string =>
                              is_variable_discrete p.1 p.2 = false)
                           (concat ((fun n : TreeNode =>
                                       (fun id_ : string => (n, id_))
                                         <$> _standard_variable_ids n)
                                      <$> nodes)))).
Proof.
  revert na cont. induction nodes as [|n nodes IH]; intros na cont; simpl.
  - f_equal; lia.
  - rewrite count_continuous_bound, IH.
    rewrite filter_app, !length_app, length_fmap.
    assert (Hf : length (filter (fun p : TreeNode * string =>
                                   is_variable_discrete p.1 p.2 = false)
                                ((fun id_ : string => (n, id_))
                                   <$> _standard_variable_ids n))
                 = length (filter (fun id_ => is_variable_discrete n id_
                                              = false)
                                  (_standard_variable_ids n))).
    { induction (_standard_variable_ids n) as [|i ids IHi]; [reflexivity|].
      rewrite fmap_cons, !filter_cons. simpl.
      destruct (decide (is_variable_discrete n i = false)); simpl;
        rewrite IHi; reflexivity. }
    rewrite Hf, !Nat.add_assoc. reflexivity.
Qed.

Lemma count_tree_spec (stages : list (list TreeNode)) na cont :
  foldl (fun acc stage => foldl (fun a n => count_tree_node n a) acc stage)
        (na, cont) stages =
    foldl (fun a n => count_tree_node n a) (na, cont) (concat stages).
Proof.
  revert na cont. induction stages as [|st stages IH]; intros na cont.
  - reflexivity.
  - simpl. rewrite foldl_app.
    destruct (foldl (fun a n => count_tree_node n a) (na, cont) st)
      as [na' cont']. apply IH.
Qed.

(** X1: for a tree-based program the statistics never raise; the stage
    count is the number of stages, the scenario count the number of
    scenarios, and the variable counts range over the nodes of every stage
    but the last: all their standard variables, and those of them that are
    not discrete. *)
Theorem problem_statistics_tree (scenarios : list string)
    (stages : list (list TreeNode)) :
  problem_statistics (ScenarioTreeSP scenarios stages) =
    inr {| num_scenarios := Some (length scenarios);
           num_stages := length stages;
           num_na_variables := length (counted_ids stages);
           num_na_continuous_variables :=
             length (filter (fun p : TreeNode * string =>
                               is_variable_discrete p.1 p.2 = false)
                            (counted_ids stages)) |}.
Proof.
  unfold problem_statistics, count_tree, counted_ids.
  rewrite count_tree_spec, count_tree_nodes_spec. reflexivity.
Qed.

(** X2: whatever the program, the continuous variables the statistics
    count are among the variables they count, so the number of discrete
    ones they print is not negative. *)
Theorem problem_statistics_continuous_le (sp : SP) (st : Statistics) :
  problem_statistics sp = inr st →
  num_na_continuous_variables st ≤ num_na_variables st.
Proof.
  destruct sp as [time_stages map_|scenarios stages].
  - unfold problem_statistics.
    destruct (count_embedded (but_last time_stages) map_ (0, 0))
      as [e|[na cont]] eqn:Hc; [discriminate|].
    intros H. injection H as <-. simpl.
    apply (count_embedded_le (but_last time_stages) map_ (0, 0) (na, cont));
      [simpl; lia|exact Hc].
  - unfold problem_statistics, count_tree.
    rewrite count_tree_spec, count_tree_nodes_spec.
    intros H. injection H as <-. simpl. apply length_filter.
Qed.

Lemma problem_statistics_continuous_le_witness :
  ∃ st, problem_statistics sample_embedded_sp = inr st ∧
        num_na_variables st = 3 ∧ num_na_continuous_variables st = 2 ∧
        num_na_continuous_variables st ≤ num_na_variables st.
Proof.
  destruct (problem_statistics sample_embedded_sp) as [e|st] eqn:H.
  - vm_compute in H. discriminate H.
  - exists st. split; [reflexivity|].
    pose proof (problem_statistics_continuous_le sample_embedded_sp st H)
      as Hle.
    vm_compute in H. injection H as <-. repeat split. exact Hle.
Defined.

Lemma count_embedded_missing l1 st l2 map_ acc :
  (∀ x, x ∈ l1 → is_Some (map_ !! x)) → map_ !! st = None →
  count_embedded (l1 ++ st :: l2) map_ acc = inl (KeyError st).
Proof.
  revert acc. induction l1 as [|a l1 IH]; intros acc Hall Hst; simpl.
  - rewrite Hst. reflexivity.
  - destruct (Hall a) as [vars Hv]; [left|]. rewrite Hv.
    apply IH; [|exact Hst]. intros x Hx. apply Hall. right. exact Hx.
Qed.

Lemma count_embedded_present l map_ acc :
  (∀ x, x ∈ l → is_Some (map_ !! x)) →
  ∃ r, count_embedded l map_ acc = inr r.
Proof.
  revert acc. induction l as [|a l IH]; intros acc Hall; simpl.
  - eauto.
  - destruct (Hall a) as [vars Hv]; [left|]. rewrite Hv.
    apply IH. intros x Hx. apply Hall. right. exact Hx.
Qed.

(** X3: for an embedded program the statistics look every stage but the
    last up in the stage-to-variables map: the first of them that the map
    lacks is reported as a [KeyError]; the last stage is never looked
    up. *)
Theorem problem_statistics_missing_stage (l1 l2 : list string)
    (st last_stage : string) map_ :
  (∀ x, x ∈ l1 → is_Some (map_ !! x)) →
  map_ !! st = None →
  problem_statistics (EmbeddedSP (l1 ++ st :: l2 ++ [last_stage]) map_)
    = inl (KeyError st).
Proof.
  intros Hall Hst. unfold problem_statistics, but_last.
  replace (l1 ++ st :: l2 ++ [last_stage])
    with ((l1 ++ st :: l2) ++ [last_stage])
    by (rewrite <- app_assoc; reflexivity).
  rewrite removelast_last.
  rewrite (count_embedded_missing l1 st l2 map_ (0, 0) Hall Hst).
  reflexivity.
Qed.

Lemma problem_statistics_missing_stage_witness :
  problem_statistics broken_embedded_sp = inl (KeyError "t2").
Proof.
  apply (problem_statistics_missing_stage ["t1"] [] "t2" "t3").
  - intros x Hx. apply list_elem_of_singleton in Hx. subst x.
    vm_compute. eauto.
  - vm_compute. reflexivity.
Defined.

(** X4: an embedded program whose stages, the last one apart, are all in
    the map has statistics: the scenario count is unknown and the stage
    count is the number of stages, the last included, whether the map
    knows the last stage or not. *)
Theorem problem_statistics_embedded (stages : list string)
    (last_stage : string) map_ :
  (∀ x, x ∈ stages → is_Some (map_ !! x)) →
  ∃ st, problem_statistics (EmbeddedSP (stages ++ [last_stage]) map_)
          = inr st ∧
        num_scenarios st = None ∧ num_stages st = S (length stages).
Proof.
  intros Hall. unfold problem_statistics, but_last.
  rewrite removelast_last.
  destruct (count_embedded_present stages map_ (0, 0) Hall) as [[na cont] Hr].
  rewrite Hr. eexists. split; [reflexivity|]. simpl. split; [reflexivity|].
  rewrite length_app. simpl. lia.
Qed.

Lemma problem_statistics_embedded_witness :
  ∃ st, problem_statistics sample_embedded_sp = inr st ∧
        num_scenarios st = None ∧ num_stages st = 3.
Proof.
  apply (problem_statistics_embedded ["t1"; "t2"] "t3").
  intros x Hx. apply elem_of_cons in Hx. destruct Hx as [->|Hx].
  - vm_compute. eauto.
  - apply list_elem_of_singleton in Hx. subst x. vm_compute. eauto.
Defined.

End StatisticsFacts.

Section SolveRunFacts.
Import Py MonadSpec SPSolver SPSolverSpec.





(** A copy that meets an empty name raises [IndexError]. *)
Lemma copy_items_raises (items : list (string * Value)) :
  "" ∈ items.*1 →
  ∀ s, (for_ items (fun '(key, val) => setitem_solver_options key val) s).1
       = inl IndexError.
Proof.
  induction items as [|[k0 v0] items IH]; intros Hempty s.
  - inversion Hempty.
  - simpl. unfold bind. rewrite setitem_solver_options_run.
    unfold Options__setitem__.
    destruct (String.eqb k0 "") eqn:Hk0; [reflexivity|].
    simpl in Hempty. apply elem_of_cons in Hempty.
    destruct Hempty as [Heq|Hin].
    + apply String.eqb_neq in Hk0. congruence.
    + destruct (String.prefix "_" k0); apply IH; exact Hin.
Qed.




(** X6: when the statistics raise, [solve] raises the same exception
    without running the strategy: the outcome does not depend on the
    strategy, and name, observed options and components are as before the
    call, with or without per-call options (whose copy has run
    through). *)
Theorem solve_statistics_failure impl sp args kwds rm tmp start stop
    (s : State) (e : Exn) :
  (enter_options tmp s).1 = inr tt →
  problem_statistics sp = inl e →
  (solve impl sp args kwds rm tmp start stop s).1 = inl e ∧
  view (solve impl sp args kwds rm tmp start stop s).2 = view s.
Proof.
  intros Henter Hst. rewrite solve_run. cbv zeta.
  destruct (enter_options tmp s) as [[e0|[]] s_in] eqn:Hrun; [discriminate|].
  rewrite Hst. split; [reflexivity|]. simpl.
  destruct tmp as [tmp|]; [|inversion Hrun; reflexivity].
  destruct (enter_options_frame _ _ _ _ Hrun) as (_ & Hn & Hc & Hh).
  unfold view, observed_options, deref, options. simpl.
  rewrite Hn, Hc, Hh. reflexivity.
Qed.

Lemma solve_statistics_failure_witness :
  (solve sample_strategy broken_embedded_sp [] ∅
     (Some sample_reference_model) (Some sample_overrides) 10 25
     sample_state).1 = inl (KeyError "t2") ∧
  view (solve sample_strategy broken_embedded_sp [] ∅
          (Some sample_reference_model) (Some sample_overrides) 10 25
          sample_state).2 = view sample_state.
Proof.
  apply (solve_statistics_failure sample_strategy broken_embedded_sp [] ∅
           (Some sample_reference_model) (Some sample_overrides) 10 25
           sample_state (KeyError "t2")); vm_compute; reflexivity.
Defined.

(** X7: without a reference model, a [solve] whose strategy returns
    hands back the strategy's result with two attributes written on it,
    the elapsed time and the name the solver has when the strategy is
    done; objective, bound, status, solver time and the solution map
    [xhat] are the strategy's. *)
Theorem solve_stamps_result impl sp args kwds tmp start stop (s : State)
    (st : Statistics) (r0 : SPSolverResults) (v : Self) :
  (enter_options tmp s).1 = inr tt →
  problem_statistics sp = inr st →
  impl sp args kwds (view (enter_options tmp s).2) = (inr r0, v) →
  (solve impl sp args kwds None tmp start stop s).1 =
    inr {| objective := objective r0; bound := bound r0;
           solver_name := defined (name_value (self_name v));
           solver_time := solver_time r0; solver_status := solver_status r0;
           pysp_time := Some (stop - start)%Z; xhat := xhat r0 |}.
Proof.
  intros Henter Hst Himpl. rewrite solve_run. cbv zeta.
  destruct (enter_options tmp s) as [[e0|[]] s_in]; [discriminate|].
  simpl in Himpl. rewrite Hst, Himpl. reflexivity.
Qed.

Lemma solve_stamps_result_witness :
  (solve sample_strategy sample_sp [] ∅ None (Some sample_overrides) 10 25
     sample_state).1 =
    inr {| objective := defined (VInt 42); bound := undefined;
           solver_name := defined (VStr "ef");
           solver_time := undefined; solver_status := undefined;
           pysp_time := Some 15%Z; xhat := xhat sample_results |}.
Proof.
  destruct (problem_statistics sample_sp) as [e|st] eqn:Hst.
  - vm_compute in Hst. discriminate Hst.
  - apply (solve_stamps_result sample_strategy sample_sp [] ∅
             (Some sample_overrides) 10 25 sample_state st sample_results
             (sample_strategy sample_sp [] ∅
                (view (enter_options (Some sample_overrides)
                                     sample_state).2)).2 eq_refl Hst).
    reflexivity.
Defined.

(** X8: an exception of the strategy leaves [solve] as it is, with or
    without per-call options and reference model, and nothing is loaded
    onto the model: the components are as the strategy left them. *)
Theorem solve_propagates_failure impl sp args kwds rm tmp start stop
    (s : State) (st : Statistics) (e : Exn) (v : Self) :
  (enter_options tmp s).1 = inr tt →
  problem_statistics sp = inr st →
  impl sp args kwds (view (enter_options tmp s).2) = (inl e, v) →
  (solve impl sp args kwds rm tmp start stop s).1 = inl e ∧
  components (solve impl sp args kwds rm tmp start stop s).2
    = model_components v.
Proof.
  intros Henter Hst Himpl. rewrite solve_run. cbv zeta.
  destruct (enter_options tmp s) as [[e0|[]] s_in]; [discriminate|].
  simpl in Himpl. rewrite Hst, Himpl.
  split; [reflexivity|]. destruct tmp; reflexivity.
Qed.

Lemma solve_propagates_failure_witness :
  (solve failing_strategy sample_sp [] ∅ (Some sample_reference_model)
     (Some sample_overrides) 10 25 sample_state).1
    = inl (UserException "solver failed") ∧
  components (solve failing_strategy sample_sp [] ∅
                (Some sample_reference_model) (Some sample_overrides)
                10 25 sample_state).2
    = components sample_state.
Proof.
  destruct (problem_statistics sample_sp) as [e|st] eqn:Hst.
  - vm_compute in Hst. discriminate Hst.
  - apply (solve_propagates_failure failing_strategy sample_sp [] ∅
             (Some sample_reference_model) (Some sample_overrides) 10 25
             sample_state st (UserException "solver failed")
             (failing_strategy sample_sp [] ∅
                (view (enter_options (Some sample_overrides)
                                     sample_state).2)).2 eq_refl Hst).
    reflexivity.
Defined.

(** X9: without per-call options [solve] makes no copy: the strategy
    works on the persistent options, and what it leaves in them, and the
    name it leaves, is what the solver has after the call, whether the
    strategy returned or raised. *)
Theorem solve_without_options_keeps_changes impl sp args kwds start stop
    (s : State) (st : Statistics) (r : Exn + SPSolverResults) (v : Self) :
  problem_statistics sp = inr st →
  impl sp args kwds (view s) = (r, v) →
  options (solve impl sp args kwds None None start stop s).2 = options s ∧
  observed_options (solve impl sp args kwds None None start stop s).2
    = self_options v ∧
  _name (solve impl sp args kwds None None start stop s).2 = self_name v.
Proof.
  intros Hst Himpl. rewrite solve_run. cbv zeta.
  unfold enter_options, ret. rewrite Hst, Himpl.
  destruct r as [e|r0]; simpl; unfold observed_options, deref, options;
    simpl; rewrite lookup_insert_eq; repeat split.
Qed.

Lemma solve_without_options_keeps_changes_witness :
  options (solve sample_strategy sample_sp [] ∅ None None 10 25
             sample_state).2 = options sample_state ∧
  observed_options (solve sample_strategy sample_sp [] ∅ None None 10 25
                      sample_state).2
    = Dict [("mipgap", VInt 5); ("threads", VInt 4)] ∧
  _name (solve sample_strategy sample_sp [] ∅ None None 10 25
           sample_state).2 = Some "ef".
Proof.
  destruct (problem_statistics sample_sp) as [e|st] eqn:Hst.
  - vm_compute in Hst. discriminate Hst.
  - apply (solve_without_options_keeps_changes sample_strategy sample_sp
             [] ∅ 10 25 sample_state st (inr sample_results)
             (sample_strategy sample_sp [] ∅ (view sample_state)).2 Hst).
    reflexivity.
Defined.

(** X31: when [solve] is given per-call options whose copy (lines 80-85)
    runs through, the options object seen through [solver.options] after
    the call is the one seen before it, with the content it had, whatever
    the outcome of the call: the statistics, the strategy or the loading
    of the solution may have raised, or the call may have returned. *)
Theorem solve_restores_options_after_copy (impl : Strategy) sp args kwds rm
    (tmp : Options) start stop (s : State) :
  (enter_options (Some tmp) s).1 = inr tt →
  options (solve impl sp args kwds rm (Some tmp) start stop s).2 = options s ∧
  observed_options (solve impl sp args kwds rm (Some tmp) start stop s).2
    = observed_options s.
Proof.
  intros Henter. unfold solve, bind, get.
  destruct (enter_options (Some tmp) s) as [[e0|[]] s1] eqn:Hrun;
    [discriminate|].
  destruct (enter_options_frame _ _ _ _ Hrun) as (Ho1 & _ & _ & Hh1).
  pose proof (new_reference_fresh s) as Hfresh.
  destruct (solve_guarded_exit impl sp args kwds tmp (options s) start stop
              s1) as (r & s2 & Hguard & Hh2).
  rewrite Hguard.
  assert (Hgoal : options (set_solver_options (options s) s2) = options s ∧
                  observed_options (set_solver_options (options s) s2)
                    = observed_options s).
  { split; [reflexivity|]. unfold observed_options, deref, options; simpl.
    rewrite Hh2 by congruence. rewrite Hh1. reflexivity. }
  assert (Hkeep : ∀ t, _solver_options t = _solver_options
                         (set_solver_options (options s) s2) →
                       heap t = heap (set_solver_options (options s) s2) →
                       options t = options s ∧
                       observed_options t = observed_options s).
  { intros t Ho Hh. destruct Hgoal as [G1 G2].
    unfold observed_options, options in *. rewrite Ho, Hh. auto. }
  destruct r as [e|res]; simpl; [exact Hgoal|].
  destruct rm as [rm|]; simpl; [|exact Hgoal].
  destruct (xhat res) as [x|]; simpl; [|exact Hgoal].
  unfold bind.
  destruct (load_solution rm x (set_solver_options (options s) s2))
    as [[e|[]] s3] eqn:Hload; simpl;
    apply load_solution_frame in Hload; destruct Hload as (_ & Ho & Hh);
    apply Hkeep; assumption.
Qed.

Lemma solve_restores_options_after_copy_witness :
  (options (solve sample_strategy sample_sp [] ∅
              (Some sample_reference_model) (Some sample_overrides) 10 25
              sample_state).2 = options sample_state ∧
   observed_options (solve sample_strategy sample_sp [] ∅
                       (Some sample_reference_model) (Some sample_overrides)
                       10 25 sample_state).2
     = observed_options sample_state) ∧
  (options (solve failing_strategy sample_sp [] ∅ None
              (Some sample_overrides) 10 25 sample_state).2
     = options sample_state ∧
   observed_options (solve failing_strategy sample_sp [] ∅ None
                       (Some sample_overrides) 10 25 sample_state).2
     = observed_options sample_state).
Proof.
  split.
  - apply (solve_restores_options_after_copy sample_strategy sample_sp [] ∅
             (Some sample_reference_model) sample_overrides 10 25
             sample_state). reflexivity.
  - apply (solve_restores_options_after_copy failing_strategy sample_sp [] ∅
             None sample_overrides 10 25 sample_state). reflexivity.
Defined.

End SolveRunFacts.

Section LoadingFacts.
Import Py SPSolver SPSolverSpec.

Lemma load_variable_untouched rm e s r s' h :
  load_variable rm e s = (r, s') →
  rm e.1 ≠ Some h ∨ (∀ c, components s !! h = Some c → is_expression c = true) →
  components s' !! h = components s !! h.
Proof.
  destruct e as [id_ val].
  unfold load_variable, bind, get, find_component. simpl.
  intros Hrun Hcase.
  destruct (rm id_) as [h'|] eqn:Hrm; [|inversion Hrun; reflexivity].
  destruct (components s !! h') as [c'|] eqn:Hc';
    [|inversion Hrun; reflexivity].
  destruct (is_expression c') eqn:He'; simpl in Hrun;
    [inversion Hrun; reflexivity|].
  unfold modify in Hrun. inversion Hrun; subst; simpl.
  apply lookup_insert_ne. intros ->.
  destruct Hcase as [Hne|Hexpr]; [congruence|].
  rewrite (Hexpr c' Hc') in He'. discriminate.
Qed.

Lemma load_entries_untouched rm es s r s' h :
  for_ es (load_variable rm) s = (r, s') →
  (∀ e, e ∈ es → rm e.1 ≠ Some h) ∨
  (∀ c, components s !! h = Some c → is_expression c = true) →
  components s' !! h = components s !! h.
Proof.
  intros Hrun Hcase.
  apply (for_preserves
           (fun st => components st !! h = components s !! h) es
           (load_variable rm)) with (s := s) (r := r) (s' := s');
    [|exact Hrun|reflexivity].
  intros e t r' t' Hin Hstep Ht.
  rewrite <- Ht. eapply load_variable_untouched; [exact Hstep|].
  destruct Hcase as [Hne|Hexpr]; [left; apply Hne; exact Hin|].
  right. rewrite Ht. exact Hexpr.
Qed.

(** X10: loading the solution writes only on variables the solution
    names: a component that is an expression, and a component no
    identifier of the solution resolves to, is after [solve] as the
    strategy left it, whether the loading went through or raised. *)
Theorem solve_loading_frame impl sp args kwds rm tmp start stop
    (s : State) (st : Statistics) (r0 : SPSolverResults) (v : Self)
    (x : XHat) (h : nat) :
  (enter_options tmp s).1 = inr tt →
  problem_statistics sp = inr st →
  impl sp args kwds (view (enter_options tmp s).2) = (inr r0, v) →
  xhat r0 = Some x →
  (∀ t sol id_ val, x !! t = Some sol → sol !! id_ = Some val →
                    rm id_ ≠ Some h) ∨
  (∀ c, model_components v !! h = Some c → is_expression c = true) →
  components (solve impl sp args kwds (Some rm) tmp start stop s).2 !! h
    = model_components v !! h.
Proof.
  intros Henter Hst Himpl Hx Hcase. rewrite solve_run. cbv zeta.
  destruct (enter_options tmp s) as [[e0|[]] s_in]; [discriminate|].
  simpl in Himpl. rewrite Hst, Himpl, Hx.
  set (s2 := restore tmp (options s) (update s_in v)).
  assert (Hs2 : components s2 = model_components v)
    by (unfold s2; destruct tmp; reflexivity).
  destruct (load_solution rm x s2) as [r s3] eqn:Hload.
  rewrite load_solution_entries in Hload.
  assert (Hgoal : components s3 !! h = components s2 !! h).
  { eapply load_entries_untouched; [exact Hload|].
    destruct Hcase as [Hne|Hexpr].
    - left. intros [id_ val] Hin. apply elem_of_entries in Hin.
      destruct Hin as (t & sol & Ht & Hsol). simpl. eapply Hne; eauto.
    - right. rewrite Hs2. exact Hexpr. }
  rewrite Hs2 in Hgoal. destruct r as [e|[]]; exact Hgoal.
Qed.

Lemma solve_loading_frame_witness :
  components (solve sample_strategy sample_sp [] ∅
                (Some sample_reference_model) (Some sample_overrides)
                10 25 sample_state).2 !! 1
    = Some {| is_expression := true; value := VNone; stale := true |}.
Proof.
  destruct (problem_statistics sample_sp) as [e|st] eqn:Hst.
  - vm_compute in Hst. discriminate Hst.
  - rewrite (solve_loading_frame sample_strategy sample_sp [] ∅
               sample_reference_model (Some sample_overrides) 10 25
               sample_state st sample_results
               (sample_strategy sample_sp [] ∅
                  (view (enter_options (Some sample_overrides)
                                       sample_state).2)).2
               (Dict [("root", Dict [("x", VInt 7); ("cost", VInt 9)])]) 1
               eq_refl Hst eq_refl eq_refl).
    + vm_compute. reflexivity.
    + right. intros c Hc. vm_compute in Hc. injection Hc as <-. reflexivity.
Defined.

Lemma load_entries_unresolved rm es s id_ val :
  (id_, val) ∈ es → rm id_ = None →
  (for_ es (load_variable rm) s).1 = inl (AttributeError "is_expression").
Proof.
  revert s. induction es as [|e es IH]; intros s Hin Hrm.
  - inversion Hin.
  - simpl. unfold bind.
    destruct (load_variable rm e s) as [[x|[]] s1] eqn:Hstep.
    + simpl. destruct e as [i w].
      unfold load_variable, bind, get in Hstep.
      destruct (find_component rm i s) as [[h var]|].
      * destruct (negb (is_expression var)); inversion Hstep.
      * inversion Hstep. reflexivity.
    + apply elem_of_cons in Hin. destruct Hin as [<-|Hin].
      * exfalso. unfold load_variable, bind, get, find_component in Hstep.
        rewrite Hrm in Hstep. discriminate.
      * apply IH; assumption.
Qed.

(** X11: when an identifier of the solution does not resolve on the
    reference model, [solve] raises an [AttributeError] although the
    strategy has returned; no result is handed back. *)
Theorem solve_unresolved_identifier impl sp args kwds rm tmp start stop
    (s : State) (st : Statistics) (r0 : SPSolverResults) (v : Self)
    (x : XHat) (t : string) (sol : dict Value) (id_ : string)
    (val : Value) :
  (enter_options tmp s).1 = inr tt →
  problem_statistics sp = inr st →
  impl sp args kwds (view (enter_options tmp s).2) = (inr r0, v) →
  xhat r0 = Some x →
  x !! t = Some sol → sol !! id_ = Some val → rm id_ = None →
  (solve impl sp args kwds (Some rm) tmp start stop s).1
    = inl (AttributeError "is_expression").
Proof.
  intros Henter Hst Himpl Hx Ht Hsol Hrm. rewrite solve_run. cbv zeta.
  destruct (enter_options tmp s) as [[e0|[]] s_in]; [discriminate|].
  simpl in Himpl. rewrite Hst, Himpl, Hx.
  set (s2 := restore tmp (options s) (update s_in v)).
  pose proof (load_entries_unresolved rm (entries x) s2 id_ val) as Hun.
  rewrite <- load_solution_entries in Hun.
  assert (Hent : (id_, val) ∈ entries x) by (apply elem_of_entries; eauto).
  specialize (Hun Hent Hrm).
  destruct (load_solution rm x s2) as [[e|[]] s3]; simpl in *.
  - injection Hun as ->. reflexivity.
  - discriminate Hun.
Qed.

Lemma solve_unresolved_identifier_witness :
  (solve sample_strategy sample_sp [] ∅ (Some partial_reference_model)
     (Some sample_overrides) 10 25 sample_state).1
    = inl (AttributeError "is_expression").
Proof.
  destruct (problem_statistics sample_sp) as [e|st] eqn:Hst.
  - vm_compute in Hst. discriminate Hst.
  - apply (solve_unresolved_identifier sample_strategy sample_sp [] ∅
             partial_reference_model (Some sample_overrides) 10 25
             sample_state st sample_results
             (sample_strategy sample_sp [] ∅
                (view (enter_options (Some sample_overrides)
                                     sample_state).2)).2
             (Dict [("root", Dict [("x", VInt 7); ("cost", VInt 9)])])
             "root" (Dict [("x", VInt 7); ("cost", VInt 9)]) "cost" (VInt 9)
             eq_refl Hst eq_refl eq_refl); vm_compute; reflexivity.
Defined.

(** X12: when a reference model is given and the strategy's result has no
    [xhat], [solve] raises an [AttributeError]; nothing is written on the
    model, and the per-call options are gone as after any other exit. *)
Theorem solve_missing_xhat impl sp args kwds rm tmp start stop
    (s : State) (st : Statistics) (r0 : SPSolverResults) (v : Self) :
  (enter_options tmp s).1 = inr tt →
  problem_statistics sp = inr st →
  impl sp args kwds (view (enter_options tmp s).2) = (inr r0, v) →
  xhat r0 = None →
  (solve impl sp args kwds (Some rm) tmp start stop s).1
    = inl (AttributeError "xhat") ∧
  components (solve impl sp args kwds (Some rm) tmp start stop s).2
    = model_components v ∧
  options (solve impl sp args kwds (Some rm) tmp start stop s).2
    = options s.
Proof.
  intros Henter Hst Himpl Hx. rewrite solve_run. cbv zeta.
  destruct (enter_options tmp s) as [[e0|[]] s_in] eqn:Hrun; [discriminate|].
  simpl in Himpl. rewrite Hst, Himpl, Hx.
  split; [reflexivity|]. destruct tmp; repeat split.
  inversion Hrun. reflexivity.
Qed.

Lemma solve_missing_xhat_witness :
  (solve no_xhat_strategy sample_sp [] ∅ (Some sample_reference_model)
     (Some sample_overrides) 10 25 sample_state).1
    = inl (AttributeError "xhat") ∧
  components (solve no_xhat_strategy sample_sp [] ∅
                (Some sample_reference_model) (Some sample_overrides)
                10 25 sample_state).2 = components sample_state ∧
  options (solve no_xhat_strategy sample_sp [] ∅
             (Some sample_reference_model) (Some sample_overrides)
             10 25 sample_state).2 = options sample_state.
Proof.
  destruct (problem_statistics sample_sp) as [e|st] eqn:Hst.
  - vm_compute in Hst. discriminate Hst.
  - apply (solve_missing_xhat no_xhat_strategy sample_sp [] ∅
             sample_reference_model (Some sample_overrides) 10 25
             sample_state st no_xhat_results
             (no_xhat_strategy sample_sp [] ∅
                (view (enter_options (Some sample_overrides)
                                     sample_state).2)).2 eq_refl Hst);
      reflexivity.
Defined.

End LoadingFacts.

Section RegistryFacts.
Import Py SPSolver SPSolverSpec.

Lemma registrations_lookup (l : list (string * PyClass)) (reg : Registry)
    (n : string) :
  registrations l reg !! n =
    match last_registered l n with
    | Some T => Some T
    | None => reg !! n
    end.
Proof.
  revert reg. induction l as [|[m T] l IH]; intros reg.
  - reflexivity.
  - change (registrations ((m, T) :: l) reg)
      with (registrations l (_register_solver m T reg).2).
    rewrite IH. unfold last_registered. rewrite filter_cons. simpl.
    rewrite register_solver_outcome.
    destruct (issubclass T "SPSolver") eqn:Hsub; simpl.
    + destruct (decide (m = n ∧ true = true)) as [[-> _]|Hno].
      * rewrite last_cons.
        destruct (last (filter _ l)) as [[a b]|]; simpl; [reflexivity|].
        apply lookup_insert_eq.
      * destruct (last (filter _ l)) as [[a b]|]; simpl; [reflexivity|].
        apply lookup_insert_ne. intros ->. apply Hno. split; reflexivity.
    + destruct (decide (m = n ∧ false = true)) as [[_ Hf]|Hno];
        [discriminate|reflexivity].
Qed.

(** X13: after any series of registrations on the empty registry, failed
    ones included, the factory never changes the registry; for a name
    under which no call of the series registered a solver type it raises
    the [ValueError] of line 165; a solver it returns is of the type
    registered last under the name, with the configuration block of that
    type to which every keyword has been assigned, in order; and when the
    block of that type refuses a keyword, the exception of the
    assignment leaves the factory although the name is registered. *)
Theorem SPSolverFactory_after_registrations {Config}
    (C : SolverClasses Config) (l : list (string * PyClass)) (n : string)
    (kwds : list (string * Value)) :
  (SPSolverFactory C n kwds (registrations l _registered_solvers)).2
    = registrations l _registered_solvers ∧
  (last_registered l n = None →
   (SPSolverFactory C n kwds (registrations l _registered_solvers)).1
     = inl (ValueError "No SPSolver object has been registered with name")) ∧
  (∀ solver,
     (SPSolverFactory C n kwds (registrations l _registered_solvers)).1
       = inr solver →
     last_registered l n = Some (solver_type solver) ∧
     ∃ config, register_options C (solver_type solver) = inr config ∧
               populate C kwds config = inr (solver_config solver) ∧
               solver_init C (solver_type solver) (solver_config solver)
                 = inr tt) ∧
  (∀ T config e,
     last_registered l n = Some T →
     register_options C T = inr config →
     populate C kwds config = inl e →
     (SPSolverFactory C n kwds (registrations l _registered_solvers)).1
       = inl e).
Proof.
  unfold SPSolverFactory, bind, get, lift.
  rewrite registrations_lookup.
  destruct (last_registered l n) as [T|]; simpl.
  - split; [|split; [discriminate|split]].
    + destruct (register_options C T) as [e|c0]; [reflexivity|].
      destruct (populate C kwds c0) as [e|c1]; [reflexivity|].
      destruct (solver_init C T c1) as [e|[]]; reflexivity.
    + intros solver.
      destruct (register_options C T) as [e|c0] eqn:Hr; [discriminate|].
      destruct (populate C kwds c0) as [e|c1] eqn:Hp; [discriminate|].
      destruct (solver_init C T c1) as [e|[]] eqn:Hi; [discriminate|].
      simpl. intros [= <-]. simpl. split; [reflexivity|].
      exists c0. auto.
    + intros T' c0 e [= <-] Hr Hp. rewrite Hr, Hp. reflexivity.
  - unfold _registered_solvers. rewrite lookup_empty. simpl.
    split; [reflexivity|]. split; [reflexivity|].
    split; [intros solver; discriminate|intros T c0 e; discriminate].
Qed.

(** The sample series: the second call is refused, the last one replaces
    the type of the first; "mipgap" is an option the sample classes
    declare, "threads" is not. *)
Lemma SPSolverFactory_after_registrations_witness :
  last_registered sample_registrations "ef" = Some DDSIP ∧
  (SPSolverFactory sample_classes "ef" [("mipgap", VInt 1)]
     (registrations sample_registrations _registered_solvers)).1
    = inr {| solver_type := DDSIP;
             solver_config := {["mipgap" := VInt 1]} |} ∧
  (SPSolverFactory sample_classes "ef" [("threads", VInt 4)]
     (registrations sample_registrations _registered_solvers)).1
    = inl (ValueError "key not defined in the configuration block") ∧
  (SPSolverFactory sample_classes "cc" []
     (registrations sample_registrations _registered_solvers)).1
    = inl (ValueError "No SPSolver object has been registered with name").
Proof.
  split; [vm_compute; reflexivity|]. split; [vm_compute; reflexivity|].
  split.
  - apply (proj2 (proj2 (proj2
             (SPSolverFactory_after_registrations sample_classes
                sample_registrations "ef" [("threads", VInt 4)])))
             DDSIP {["mipgap" := VInt 0]}); vm_compute; reflexivity.
  - apply (proj1 (proj2
             (SPSolverFactory_after_registrations sample_classes
                sample_registrations "cc" []))). vm_compute. reflexivity.
Defined.

End RegistryFacts.

(* ===================================================================== *)
(** ** Further statements about manager_worker_pyro.py                    *)
(* ===================================================================== *)

Section MethodFacts.
Import Py WorkerPyro WorkerSpec.

(** X14: a call of [invoke_method] whose flags are not both set and whose
    method returns the value [v] returns [v] keyed by the worker's name
    (the name the worker has when the method is done); a one-way call
    hands [v] back as it is, not keyed and not dropped; an asynchronous
    call hands the keyed value back inside an [AsyncResult]. *)
Theorem invoke_method_result E method_name method_args method_kwds method
    (async oneway : bool) (W W1 : World) (v : Value) :
  async && oneway = false →
  getattr_self E method_name = Some method →
  method method_args (default [] method_kwds) W = (inr v, W1) →
  invoke_method E method_name method_args method_kwds async oneway W
    = (inr (method_result async oneway W1 v), W1).
Proof.
  intros Hflags Hm Hrun. unfold invoke_method, bind, lift, get.
  rewrite Hflags, Hm. simpl.
  destruct method_kwds; simpl in *; rewrite Hrun; unfold method_result, ret;
    destruct oneway, async; reflexivity.
Qed.

Lemma invoke_method_result_witness :
  invoke_method patched_environment "ping" [] None false false
                initialized_world
    = (inr (VDict [(VStr "w1", VStr "pong")]), initialized_world) ∧
  invoke_method patched_environment "ping" [] None false true
                initialized_world
    = (inr (VStr "pong"), initialized_world) ∧
  invoke_method patched_environment "ping" [] None true false
                initialized_world
    = (inr (VAsyncResult (VDict [(VStr "w1", VStr "pong")])),
       initialized_world).
Proof.
  split; [|split].
  - apply (invoke_method_result patched_environment "ping" [] None
             (fun _ _ => ret (VStr "pong")) false false initialized_world
             initialized_world (VStr "pong")); reflexivity.
  - apply (invoke_method_result patched_environment "ping" [] None
             (fun _ _ => ret (VStr "pong")) false true initialized_world
             initialized_world (VStr "pong")); reflexivity.
  - apply (invoke_method_result patched_environment "ping" [] None
             (fun _ _ => ret (VStr "pong")) true false initialized_world
             initialized_world (VStr "pong")); reflexivity.
Defined.

(** X15: the name of an attribute the worker does not have makes both
    [invoke_method] and [_invoke_method_impl] raise [AttributeError] with
    the worker as it was. *)
Theorem invoke_method_unknown_attribute E method_name method_args
    method_kwds (async oneway : bool) (W : World) :
  async && oneway = false →
  getattr_self E method_name = None →
  invoke_method E method_name method_args method_kwds async oneway W
    = (inl (AttributeError method_name), W) ∧
  _invoke_method_impl E method_name method_args method_kwds W
    = (inl (AttributeError method_name), W).
Proof.
  intros Hflags Hm. unfold invoke_method, _invoke_method_impl, bind, lift.
  rewrite Hflags, Hm. split; reflexivity.
Qed.

Lemma invoke_method_unknown_attribute_witness :
  invoke_method patched_environment "pong" [] None false false
                initialized_world
    = (inl (AttributeError "pong"), initialized_world) ∧
  _invoke_method_impl patched_environment "pong" [] None initialized_world
    = (inl (AttributeError "pong"), initialized_world).
Proof.
  apply (invoke_method_unknown_attribute patched_environment "pong" [] None
           false false initialized_world); reflexivity.
Defined.

(** X16: in default mode [invoke_method] is [_invoke_method_impl] with the
    value keyed by the worker's name: an exception of the one is the
    exception of the other, and both leave the same worker. *)
Theorem invoke_method_wraps_impl E method_name method_args method_kwds
    (W : World) :
  invoke_method E method_name method_args method_kwds false false W =
    match _invoke_method_impl E method_name method_args method_kwds W with
    | (inl e, W1) => (inl e, W1)
    | (inr v, W1) =>
        (inr (VDict [(name_value (_worker_name (self W1)), v)]), W1)
    end.
Proof.
  unfold invoke_method, _invoke_method_impl, bind, lift, get. simpl.
  destruct (getattr_self E method_name) as [method|]; [|reflexivity].
  destruct (method method_args _ W) as [[e|v] W1]; reflexivity.
Qed.

End MethodFacts.

Section FunctionFacts.
Import Py WorkerPyro WorkerSpec.

(** X17: in a module whose namespace does not bind
    [_map_deprecated_invocation_type], which is the module as it stands,
    every call of [invoke_function] whose flags are not both set raises
    [NameError] on line 345: the arguments are not checked, the function
    is not run and the worker is as it was. *)
Theorem invoke_function_unbound_global E function module_name
    invocation_type function_args function_kwds (async oneway : bool)
    (W : World) :
  async && oneway = false →
  _map_deprecated_invocation_type E = None →
  invoke_function E function module_name invocation_type function_args
                  function_kwds async oneway W
    = (inl (NameError "_map_deprecated_invocation_type"), W).
Proof.
  intros Hflags Hg. unfold invoke_function, bind, lift, call_global.
  rewrite Hflags, Hg. reflexivity.
Qed.

Lemma invoke_function_unbound_global_witness :
  invoke_function sample_environment (FunctionObject VNone) (Some "m")
                  (AsEnum Single) [] None true false initialized_world
    = (inl (NameError "_map_deprecated_invocation_type"),
       initialized_world).
Proof.
  apply (invoke_function_unbound_global sample_environment
           (FunctionObject VNone) (Some "m") (AsEnum Single) [] None
           true false initialized_world); reflexivity.
Defined.

(** X18: a function object together with a module name, and a function
    name without one, are refused with a [ValueError] before anything of
    the function runs: the worker is as it was.  The flags are not both
    set and the call of line 345 returns. *)
Theorem invoke_function_usage_errors E g (invocation_type it' : InvocationArg)
    function_args function_kwds (async oneway : bool) (W : World) :
  async && oneway = false →
  _map_deprecated_invocation_type E = Some g →
  g invocation_type = inr it' →
  (∀ blob module_name,
     invoke_function E (FunctionObject blob) (Some module_name)
                     invocation_type function_args function_kwds
                     async oneway W
       = (inl (ValueError "The module_name keyword must be None when the function argument is not a string."), W)) ∧
  (∀ function_name,
     invoke_function E (FunctionName function_name) None
                     invocation_type function_args function_kwds
                     async oneway W
       = (inl (ValueError "A module name is required when a function name is given"), W)).
Proof.
  intros Hflags Hg Hit. unfold invoke_function, bind, lift, call_global.
  rewrite Hflags, Hg, Hit. split; intros; reflexivity.
Qed.

Lemma invoke_function_usage_errors_witness :
  invoke_function patched_environment (FunctionObject VNone) (Some "m")
                  (AsEnum Single) [] None false false initialized_world
    = (inl (ValueError "The module_name keyword must be None when the function argument is not a string."), initialized_world) ∧
  invoke_function patched_environment (FunctionName "f") None
                  (AsEnum Single) [] None false false initialized_world
    = (inl (ValueError "A module name is required when a function name is given"), initialized_world).
Proof.
  pose proof (invoke_function_usage_errors patched_environment
                (fun a => inr a) (AsEnum Single) (AsEnum Single) [] None
                false false initialized_world eq_refl eq_refl eq_refl)
    as [Hobject Hname].
  split; [apply (Hobject VNone "m")|apply (Hname "f")].
Defined.

(** X19: when the arguments of [invoke_function] pass the checks, the
    function is run through [_invoke_function_impl] and what it did to the
    worker stays; if it raised, its exception leaves the call; if it
    returned, its value is lost and the call raises [UnboundLocalError],
    in every mode. *)
Theorem invoke_function_keeps_effects E g function module_name
    (invocation_type it' : InvocationArg) function_args function_kwds
    (async oneway : bool) (W W1 : World) (r : Exn + Value) :
  async && oneway = false →
  _map_deprecated_invocation_type E = Some g →
  g invocation_type = inr it' →
  check_module_name function module_name = inr tt →
  _invoke_function_impl E function module_name it' function_args
                        function_kwds W = (r, W1) →
  invoke_function E function module_name invocation_type function_args
                  function_kwds async oneway W
    = (match r with
       | inl e => inl e
       | inr _ => inl (UnboundLocalError "result")
       end, W1).
Proof.
  intros Hflags Hg Hit Hcheck Hrun.
  unfold invoke_function, bind, lift, call_global.
  rewrite Hflags, Hg. simpl. rewrite Hit, Hcheck. simpl. rewrite Hrun.
  destruct r as [e|v]; [reflexivity|]. simpl.
  apply wrap_function_result_unbound.
Qed.

Lemma invoke_function_keeps_effects_witness :
  invoke_function effectful_environment (FunctionName "f") (Some "m")
                  (AsEnum Single) [] None false false initialized_world
    = (inl (UnboundLocalError "result"),
       set_objective_sense (Some ScenarioTree.maximize) initialized_world).
Proof.
  apply (invoke_function_keeps_effects effectful_environment
           (fun a => inr a) (FunctionName "f") (Some "m") (AsEnum Single)
           (AsEnum Single) [] None false false initialized_world
           (set_objective_sense (Some ScenarioTree.maximize)
                                initialized_world) (inr (VInt 3)));
    reflexivity.
Defined.

(** X20: an invocation type sent as a (key, data) tuple is treated as the
    member the key names: without data as the member itself, with data as
    the member called on the data, when the member accepts data. *)
Theorem invoke_function_impl_tuple E function module_name (key : string)
    function_args function_kwds (W : World) :
  (∀ it, InvocationType_getattr E key = Some it →
     _invoke_function_impl E function module_name (AsTuple key None)
                           function_args function_kwds W
       = _invoke_function_impl E function module_name (AsEnum it)
                               function_args function_kwds W) ∧
  (∀ tag p d, InvocationType_getattr E key = Some (Variant tag true p) →
     _invoke_function_impl E function module_name (AsTuple key (Some d))
                           function_args function_kwds W
       = _invoke_function_impl E function module_name
                               (AsEnum (Variant tag true (Some d)))
                               function_args function_kwds W).
Proof.
  split; intros; unfold _invoke_function_impl, resolve_invocation_type;
    rewrite H; reflexivity.
Qed.

Lemma invoke_function_impl_tuple_witness :
  _invoke_function_impl patched_environment (FunctionName "f") (Some "m")
                        (AsTuple "PerScenario" None) [] None
                        initialized_world
    = _invoke_function_impl patched_environment (FunctionName "f")
                            (Some "m")
                            (AsEnum (Variant "PerScenario" false None))
                            [] None initialized_world ∧
  _invoke_function_impl patched_environment (FunctionName "f") (Some "m")
                        (AsTuple "OnScenario" (Some (VStr "s1"))) [] None
                        initialized_world
    = _invoke_function_impl patched_environment (FunctionName "f")
                            (Some "m")
                            (AsEnum (Variant "OnScenario" true
                                             (Some (VStr "s1"))))
                            [] None initialized_world.
Proof.
  split.
  - apply (proj1 (invoke_function_impl_tuple patched_environment
                    (FunctionName "f") (Some "m") "PerScenario" [] None
                    initialized_world)). reflexivity.
  - apply (proj2 (invoke_function_impl_tuple patched_environment
                    (FunctionName "f") (Some "m") "OnScenario" [] None
                    initialized_world) "OnScenario" None (VStr "s1")).
    reflexivity.
Defined.

(** X21: [_invoke_function_impl] raises without running the function,
    the worker being as it was, when the key of the tuple names no member
    ([AttributeError]), when data comes for a member that takes none
    ([AssertionError]), and when there is no module name and no
    serializer to load the function with ([AssertionError]). *)
Theorem invoke_function_impl_rejects E function module_name
    function_args function_kwds (W : World) :
  (∀ key payload, InvocationType_getattr E key = None →
     _invoke_function_impl E function module_name (AsTuple key payload)
                           function_args function_kwds W
       = (inl (AttributeError key), W)) ∧
  (∀ key it d, InvocationType_getattr E key = Some it →
     accepts_data it = false →
     _invoke_function_impl E function module_name (AsTuple key (Some d))
                           function_args function_kwds W
       = (inl AssertionError, W)) ∧
  (∀ a it, resolve_invocation_type E a = inr it → dill_loads E = None →
     _invoke_function_impl E function None a function_args function_kwds W
       = (inl AssertionError, W)).
Proof.
  split; [|split].
  - intros key payload Hk.
    unfold _invoke_function_impl, resolve_invocation_type, bind, lift.
    rewrite Hk. reflexivity.
  - intros key it d Hk Hacc.
    unfold _invoke_function_impl, resolve_invocation_type, bind, lift.
    rewrite Hk. destruct it as [|tag [] p]; try discriminate; reflexivity.
  - intros a it Ha Hd. unfold _invoke_function_impl, bind, lift.
    rewrite Ha, Hd. reflexivity.
Qed.

Lemma invoke_function_impl_rejects_witness :
  _invoke_function_impl effectful_environment (FunctionName "f") (Some "m")
                        (AsTuple "PerBundle" None) [] None initialized_world
    = (inl (AttributeError "PerBundle"), initialized_world) ∧
  _invoke_function_impl effectful_environment (FunctionName "f") (Some "m")
                        (AsTuple "Single" (Some (VStr "s1"))) [] None
                        initialized_world
    = (inl AssertionError, initialized_world) ∧
  _invoke_function_impl effectful_environment (FunctionObject VNone) None
                        (AsEnum Single) [] None initialized_world
    = (inl AssertionError, initialized_world).
Proof.
  split; [|split].
  - apply (proj1 (invoke_function_impl_rejects effectful_environment
                    (FunctionName "f") (Some "m") [] None
                    initialized_world)). reflexivity.
  - apply (proj1 (proj2 (invoke_function_impl_rejects effectful_environment
                           (FunctionName "f") (Some "m") [] None
                           initialized_world)) "Single" Single (VStr "s1"));
      reflexivity.
  - apply (proj2 (proj2 (invoke_function_impl_rejects effectful_environment
                           (FunctionObject VNone) None [] None
                           initialized_world)) (AsEnum Single) Single);
      reflexivity.
Defined.

End FunctionFacts.
Section InitOutcomeFacts.
Import Py MonadSpec WorkerPyro WorkerSpec.

#[local] Existing Instance same_communicators_preorder.

#[local] Instance same_worker_preorder : PreOrder same_worker.
Proof.
  split.
  - intros w. repeat split.
  - intros a b c (H1 & H2 & H3 & H4) (H5 & H6 & H7 & H8).
    unfold same_worker. repeat split; congruence.
Qed.

#[local] Instance same_but_bundles_preorder : PreOrder same_but_bundles.
Proof.
  split.
  - intros w. repeat split.
  - intros a b c H1 H2. unfold same_but_bundles in *.
    destruct H1 as (?&?&?&?&?&?&?&?&?&?&?).
    destruct H2 as (?&?&?&?&?&?&?&?&?&?&?).
    repeat split; congruence.
Qed.

Ltac frame_rule lem :=
  match goal with |- keeps ?R _ => apply (lem _ R _) end.

Ltac frame_step :=
  first [ frame_rule @keeps_ret | frame_rule @keeps_raise
        | frame_rule @keeps_lift | frame_rule @keeps_get
        | frame_rule @keeps_assert
        | frame_rule @keeps_bind; [|intros ?]
        | frame_rule @keeps_for; intros ?
        | frame_rule @keeps_modify; intros ?; repeat split ].

Lemma split_for_node_same_worker tree node :
  keeps same_worker (split_for_node tree node).
Proof.
  assert (Hmpi : ∀ A (c : M mpi4py.Runtime A), keeps same_worker (on_mpi c)).
  { intros A c w r w' H. unfold on_mpi in H.
    destruct (c (mpi w)) as [r0 rt]. inversion H; subst. repeat split. }
  assert (Hparent : keeps same_worker (parent_name node)).
  { unfold parent_name. destruct (ScenarioTree.parent node); frame_step. }
  assert (Hcomm : ∀ p, keeps same_worker (comm_of p)).
  { intros p. unfold comm_of. frame_rule @keeps_bind; [frame_rule @keeps_get|].
    intros w. destruct (mpi_comm_tree (self w) !! p); frame_step. }
  unfold split_for_node.
  destruct (ScenarioTree.contains_node tree (ScenarioTree.name node)).
  - frame_rule @keeps_bind; [exact Hparent|intros p].
    frame_rule @keeps_bind; [apply Hcomm|intros pc].
    frame_rule @keeps_bind; [apply Hmpi|intros c]. frame_step.
  - frame_rule @keeps_bind; [exact Hparent|intros p].
    frame_rule @keeps_bind; [frame_rule @keeps_get|intros w].
    destruct (bool_decide _); [|frame_rule @keeps_ret].
    frame_rule @keeps_bind; [apply Hcomm|intros pc].
    frame_rule @keeps_bind; [apply Hmpi|intros c]. frame_rule @keeps_ret.
Qed.

Lemma generate_communicators_same_worker unc MPI_ rc :
  keeps same_worker (generate_communicators unc MPI_ rc).
Proof.
  unfold generate_communicators.
  destruct MPI_ as [ns|]; [|frame_rule @keeps_assert].
  destruct rc as [rc|]; [|frame_rule @keeps_raise].
  frame_rule @keeps_bind; [apply the_scenario_tree_keeps; exact _|intros tree].
  repeat frame_step. apply split_for_node_same_worker.
Qed.

Lemma create_bundle_same_but_bundles wi bundle_name :
  keeps same_but_bundles (create_bundle wi bundle_name).
Proof.
  intros w r w' H.
  unfold create_bundle, the_scenario_tree, bind, get, lift, modify in H.
  destruct (_scenario_tree (base (self w))) as [tree|] eqn:Htree;
    [|inversion H; subst; reflexivity].
  unfold ret at 1 in H.
  destruct (negb (ScenarioTree.contains_bundle tree bundle_name));
    [|inversion H; subst; reflexivity].
  unfold assert_ at 1, ret at 1 in H.
  destruct (match data wi with
            | Some d => _
            | None => _
            end) as [e|l]; [inversion H; subst; reflexivity|].
  destruct (ScenarioTree.add_bundle tree bundle_name l) as [e|tree'] eqn:Hadd;
    [inversion H; subst; reflexivity|].
  assert (Hw' : w' = set_scenario_tree tree' w).
  { destruct (ScenarioTree.contains_bundle tree' bundle_name);
      inversion H; reflexivity. }
  subst w'. unfold same_but_bundles. simpl. rewrite Htree. simpl.
  repeat split. f_equal.
  unfold ScenarioTree.add_bundle in Hadd.
  destruct (ScenarioTree.contains_bundle tree bundle_name); [discriminate|].
  injection Hadd as <-. reflexivity.
Qed.

Lemma interior_short {A} (l : list A) : length l ≤ 2 → interior l = [].
Proof.
  destruct l as [|a [|b [|c l]]]; simpl; intros H; try reflexivity. lia.
Qed.

Lemma extend_bundles_all d (bundle_names : list string) ls :
  Forall2 (λ b l, d !! b = Some l) bundle_names ls →
  ∀ acc, extend_bundles d bundle_names acc = inr (acc ++ concat ls).
Proof.
  induction 1 as [|b l bs ls Hb _ IH]; intros acc; simpl.
  - rewrite app_nil_r. reflexivity.
  - rewrite Hb, IH, app_assoc. reflexivity.
Qed.

Lemma extend_bundles_missing d (pre : list string) b post :
  Forall (λ n, is_Some (d !! n)) pre → d !! b = None →
  ∀ acc, extend_bundles d (pre ++ b :: post) acc = inl (KeyError b).
Proof.
  intros Hpre Hb. induction Hpre as [|n pre [l Hn] _ IH]; intros acc; simpl.
  - rewrite Hb. reflexivity.
  - rewrite Hn. apply IH.
Qed.

(** X22: without the MPI namespace, or without a root communicator,
    [_init] does nothing to the communication layer, whatever its outcome:
    no call is issued, the mapping of communicators and the attribute
    [MPI] of the worker are as before. *)
Theorem init_leaves_communicators E server unc wname wi mods MPI_ rc W :
  same_communicators W (_init E server unc wname wi mods None rc W).2 ∧
  same_communicators W (_init E server unc wname wi mods MPI_ None W).2.
Proof.
  assert (H : ∀ m r, m = None ∨ r = None →
            keeps same_communicators (_init E server unc wname wi mods m r)).
  { intros m r Hmr. unfold _init. frame_rule @keeps_bind.
    - apply build_scenario_tree_keeps.
    - intros _. unfold generate_communicators.
      destruct m as [ns|]; [|frame_rule @keeps_assert].
      destruct r as [c|]; [|frame_rule @keeps_raise].
      destruct Hmr; discriminate. }
  split.
  - destruct (_init E server unc wname wi mods None rc W) as [r W'] eqn:Hrun.
    eapply H; [left; reflexivity|exact Hrun].
  - destruct (_init E server unc wname wi mods MPI_ None W) as [r W'] eqn:Hrun.
    eapply H; [right; reflexivity|exact Hrun].
Qed.

(** X23: an MPI namespace without a root communicator, and a root
    communicator without the namespace, are refused with an
    [AssertionError] only when the scenario tree has been built: the
    worker keeps the tree, the instances and the objective sense of the
    attempt. *)
Theorem init_mismatch_fails_late E server unc wname wi mods ns rc
    (W W5 : World) :
  build_scenario_tree E server unc wname wi mods W = (inr tt, W5) →
  _init E server unc wname wi mods (Some ns) None W
    = (inl AssertionError, W5) ∧
  _init E server unc wname wi mods None (Some rc) W
    = (inl AssertionError, W5).
Proof.
  intros Hbuild. unfold _init, bind. rewrite Hbuild. split; reflexivity.
Qed.

Lemma init_mismatch_fails_late_witness :
  ∃ W5 tree,
    _scenario_tree (base (self sample_world)) = None ∧
    _scenario_tree (base (self W5)) = Some tree ∧
    _init sample_environment "server" sample_tree "w1" owns_A VNone
          (Some mpi4py.MPI_module) None sample_world
      = (inl AssertionError, W5) ∧
    _init sample_environment "server" sample_tree "w1" owns_A VNone
          None (Some (mpi4py.comm 0)) sample_world
      = (inl AssertionError, W5).
Proof.
  destruct (build_scenario_tree sample_environment "server" sample_tree "w1"
              owns_A VNone sample_world) as [[e|[]] W5] eqn:Hbuild;
    [vm_compute in Hbuild; discriminate|].
  destruct (_scenario_tree (base (self W5))) as [tree|] eqn:Htree;
    [|apply (f_equal (λ x, _scenario_tree (base (self x.2)))) in Hbuild;
      simpl in Hbuild; rewrite Htree in Hbuild; vm_compute in Hbuild;
      discriminate].
  exists W5, tree. split; [reflexivity|]. split; [exact Htree|].
  apply (init_mismatch_fails_late sample_environment "server" sample_tree
           "w1" owns_A VNone mpi4py.MPI_module (mpi4py.comm 0) sample_world
           W5 Hbuild).
Defined.

(** X24: for an uncompressed tree of at most two stages a completed
    [_init] with MPI splits nothing: it issues no call, and the only
    change of the mapping is the root communicator stored under the name
    of the root of the worker's tree. *)
Theorem init_two_stages_no_split E server unc wname wi mods ns rc
    (W0 W' : World) :
  length (ScenarioTree.stages unc) ≤ 2 →
  _init E server unc wname wi mods (Some ns) (Some rc) W0 = (inr tt, W') →
  ∃ tree root,
    _scenario_tree (base (self W')) = Some tree ∧
    ScenarioTree.findRootNode tree = Some root ∧
    mpi_comm_tree (self W')
      = <[ScenarioTree.name root := rc]> (mpi_comm_tree (self W0)) ∧
    MPI (self W') = Some ns ∧
    mpi W' = mpi W0.
Proof.
  intros Hlen Hinit.
  destruct (init_inversion _ _ _ _ _ _ _ _ _ _ Hinit)
    as (W5 & _ & Hgen & (Hmpi & Hcomms & _) & _ & _).
  unfold generate_communicators, the_scenario_tree, bind, get in Hgen.
  destruct (_scenario_tree (base (self W5))) as [tree|] eqn:Htree;
    [|discriminate].
  unfold ret at 1, modify, lift in Hgen.
  destruct (ScenarioTree.findRootNode tree) as [root|] eqn:Hroot;
    [|discriminate].
  rewrite (interior_short _ Hlen) in Hgen. simpl in Hgen.
  injection Hgen as <-. exists tree, root. simpl.
  rewrite Htree, Hcomms, Hmpi. repeat split. exact Hroot.
Qed.

Lemma init_two_stages_no_split_witness :
  ∃ W',
    _init sample_environment "server" two_stage_tree "w1" owns_A VNone
          (Some mpi4py.MPI_module) (Some (mpi4py.comm 7)) sample_world
      = (inr tt, W') ∧
    ∃ tree root,
      _scenario_tree (base (self W')) = Some tree ∧
      ScenarioTree.findRootNode tree = Some root ∧
      mpi_comm_tree (self W')
        = <[ScenarioTree.name root := mpi4py.comm 7]>
            (mpi_comm_tree (self sample_world)) ∧
      MPI (self W') = Some mpi4py.MPI_module ∧
      mpi W' = mpi sample_world.
Proof.
  destruct (_init sample_environment "server" two_stage_tree "w1" owns_A
              VNone (Some mpi4py.MPI_module) (Some (mpi4py.comm 7))
              sample_world) as [[e|[]] W'] eqn:Hinit;
    [vm_compute in Hinit; discriminate|].
  exists W'. split; [reflexivity|].
  apply (init_two_stages_no_split sample_environment "server" two_stage_tree
           "w1" owns_A VNone mpi4py.MPI_module (mpi4py.comm 7) sample_world
           W'); [simpl; lia|exact Hinit].
Defined.

(** X25: for a bundles worker whose bundle names all have an entry, the
    scenarios to construct are the entries of the named bundles, one
    after the other in the order of the names; a scenario listed twice is
    kept twice, and [verbose] makes no difference. *)
Theorem scenarios_to_construct_bundles wi d (ls : list (list string))
    (verbose_ : bool) :
  type_ wi = Bundles →
  data wi = Some d →
  names wi ≠ [] →
  Forall2 (λ b l, d !! b = Some l) (names wi) ls →
  scenarios_to_construct wi verbose_ = inr (concat ls).
Proof.
  intros Ht Hd Hn Hall. unfold scenarios_to_construct. rewrite Ht, Hd.
  destruct (names wi) as [|b bs] eqn:Hnames; [done|]. simpl negb.
  cbv iota.
  rewrite (extend_bundles_all _ _ _ Hall []).
  destruct verbose_; reflexivity.
Qed.

Lemma scenarios_to_construct_bundles_witness :
  scenarios_to_construct two_bundles true = inr ["s1"; "s2"] ∧
  scenarios_to_construct empty_bundle false = inr ["s1"].
Proof.
  split.
  - apply (scenarios_to_construct_bundles two_bundles
             (<["b1" := ["s1"]]> {["b2" := ["s2"]]}) [["s1"]; ["s2"]] true);
      [reflexivity|reflexivity|discriminate|].
    repeat constructor.
  - apply (scenarios_to_construct_bundles empty_bundle
             (<["b1" := []]> {["b2" := ["s1"]]}) [[]; ["s1"]] false);
      [reflexivity|reflexivity|discriminate|].
    repeat constructor.
Defined.

(** X26: a bundles worker one of whose names has no entry in the data
    makes [_init] raise [KeyError] for the first such name; by then the
    four attributes of lines 129-134 are assigned and nothing else is
    changed: no tree is compressed, no instance constructed. *)
Theorem init_missing_bundle E server unc wname wi mods MPI_ rc W d
    (pre : list string) (b : string) (post : list string) :
  base_init E = inl NotImplementedError →
  type_ wi = Bundles →
  data wi = Some d →
  names wi = pre ++ b :: post →
  Forall (λ n, is_Some (d !! n)) pre →
  d !! b = None →
  _init E server unc wname wi mods MPI_ rc W
    = (inl (KeyError b), set_bookkeeping mods server unc wname W).
Proof.
  intros Hbase Ht Hd Hn Hpre Hb. unfold _init. unfold bind at 1.
  rewrite (build_scenario_tree_run _ _ _ _ _ _ _ Hbase). cbv zeta.
  assert (Hs : ∀ v, scenarios_to_construct wi v = inl (KeyError b)).
  { intros v. unfold scenarios_to_construct. rewrite Ht, Hd, Hn.
    replace (negb (0 <? length (pre ++ b :: post))) with false
      by (rewrite length_app; simpl; symmetry; apply negb_false_iff;
          apply Nat.ltb_lt; lia).
    rewrite (extend_bundles_missing _ _ _ _ Hpre Hb []).
    destruct v; reflexivity. }
  rewrite Hs. reflexivity.
Qed.

Lemma init_missing_bundle_witness :
  _init sample_environment "server" sample_tree "w1" missing_bundle VNone
        None None sample_world
    = (inl (KeyError "b3"),
       set_bookkeeping VNone "server" sample_tree "w1" sample_world).
Proof.
  apply (init_missing_bundle sample_environment "server" sample_tree "w1"
           missing_bundle VNone None None sample_world
           (<["b1" := ["s1"]]> {["b2" := ["s2"]]}) ["b1"] "b3" ["b2"]);
    try reflexivity.
  repeat constructor. exists ["s1"]. reflexivity.
Defined.

Lemma bundle_loop_same_but_bundles wi (l : list string) :
  keeps same_but_bundles (for_ l (create_bundle wi)).
Proof.
  frame_rule @keeps_for. intros b. apply create_bundle_same_but_bundles.
Qed.

(** X27: when [_init] returns, the worker carries the server name, the
    worker name, the imported modules and the uncompressed tree it was
    given, its options are untouched, its tree is the linked compressed
    tree (with the bundles of the worker added), and its objective sense
    is the objective sense of every scenario of that tree, of which there
    is at least one. *)
Theorem init_success_state E server unc wname wi mods MPI_ rc
    (W W' : World) :
  _init E server unc wname wi mods MPI_ rc W = (inr tt, W') →
  _modules_imported (self W') = Some mods ∧
  _server_name (self W') = Some server ∧
  _worker_name (self W') = Some wname ∧
  _uncompressed_scenario_tree (base (self W')) = Some unc ∧
  _options (base (self W')) = _options (base (self W)) ∧
  ∃ linked tree,
    linked_tree unc wi (_options (base (self W))) = inr linked ∧
    _scenario_tree (base (self W')) = Some tree ∧
    without_bundles tree = without_bundles linked ∧
    ScenarioTree._scenarios tree ≠ [] ∧
    ∀ s, s ∈ ScenarioTree._scenarios tree →
         ScenarioTree._objective_sense s = _objective_sense (base (self W')).
Proof.
  intros Hinit.
  destruct (init_inversion _ _ _ _ _ _ _ _ _ _ Hinit)
    as (W5 & Hbuild & Hgen & _ & _ & Hbase).
  pose proof (generate_communicators_same_worker _ _ _ _ _ _ Hgen)
    as (Hb & Hm & Hsv & Hw).
  rewrite Hb, Hm, Hsv, Hw. clear Hgen Hinit Hb Hm Hsv Hw W'.
  rewrite (build_scenario_tree_run _ _ _ _ _ _ _ Hbase) in Hbuild.
  cbv zeta in Hbuild. unfold linked_tree.
  destruct (scenarios_to_construct wi _) as [e|l]; [discriminate|].
  destruct (ScenarioTree.construct_instances_for_scenario_tree _ _ _ _ _)
    as [e|instances]; [discriminate|].
  destruct (ScenarioTree.linkInInstances _ _ _ _) as [e|linked];
    [discriminate|].
  destruct (ScenarioTree._scenarios linked) as [|first rest] eqn:Hsc;
    [discriminate|].
  destruct (forallb _ _) eqn:Hall; [|discriminate].
  set (W4 := set_objective_sense _ _) in Hbuild.
  assert (Hrel : same_but_bundles W4 W5).
  { destruct (type_ wi).
    - injection Hbuild as <-. reflexivity.
    - eapply bundle_loop_same_but_bundles; exact Hbuild. }
  destruct Hrel as (_ & Hm & Hsv & Hw & _ & _ & Ho & Hu & _ & Hs & Ht).
  rewrite Hm, Hsv, Hw, Ho, Hu, Hs. subst W4. simpl.
  repeat (split; [reflexivity|]).
  exists linked. simpl in Ht.
  destruct (_scenario_tree (base (self W5))) as [tree|]; [|discriminate].
  injection Ht as Hst Hscs Hfac.
  assert (Ht' : without_bundles tree = without_bundles linked)
    by (unfold without_bundles; congruence).
  exists tree.
  split; [reflexivity|]. split; [reflexivity|]. split; [exact Ht'|].
  assert (Hsame : ScenarioTree._scenarios tree = first :: rest).
  { apply (f_equal ScenarioTree._scenarios) in Ht'. simpl in Ht'.
    rewrite Ht'. exact Hsc. }
  rewrite Hsame. split; [discriminate|].
  intros s Hin. rewrite forallb_forall in Hall.
  apply Sense_eqb_eq. apply Hall. apply list_elem_of_In. exact Hin.
Qed.

Lemma init_success_state_witness :
  ∃ W',
    _init sample_environment "server" sample_tree "w1" two_bundles VNone
          None None sample_world = (inr tt, W') ∧
    _modules_imported (self W') = Some VNone ∧
    _server_name (self W') = Some "server" ∧
    _worker_name (self W') = Some "w1" ∧
    _uncompressed_scenario_tree (base (self W')) = Some sample_tree ∧
    _options (base (self W')) = _options (base (self sample_world)) ∧
    ∃ linked tree,
      linked_tree sample_tree two_bundles
        (_options (base (self sample_world))) = inr linked ∧
      _scenario_tree (base (self W')) = Some tree ∧
      without_bundles tree = without_bundles linked ∧
      ScenarioTree._scenarios tree ≠ [] ∧
      ∀ s, s ∈ ScenarioTree._scenarios tree →
           ScenarioTree._objective_sense s
             = _objective_sense (base (self W')).
Proof.
  destruct (_init sample_environment "server" sample_tree "w1" two_bundles
              VNone None None sample_world) as [[e|[]] W'] eqn:Hinit;
    [vm_compute in Hinit; discriminate|].
  exists W'. split; [reflexivity|].
  apply (init_success_state sample_environment "server" sample_tree "w1"
           two_bundles VNone None None sample_world W' Hinit).
Defined.

End InitOutcomeFacts.

Section CloseFacts.
Import Py MonadSpec WorkerPyro WorkerSpec.


(** On the worker of the three-stage sample the root communicator is
    freed first, then the communicator of A; with a base teardown that
    raises, none is. *)
Lemma close_impl_keeps_mapping_sample :
  mpi4py.calls (mpi (_close_impl sample_environment mpi_world).2)
    = mpi4py.calls (mpi mpi_world) ++
      [mpi4py.CallFree (mpi4py.comm 0); mpi4py.CallFree (mpi4py.comm 1)] ∧
  dict_items (mpi_comm_tree
                (self (_close_impl sample_environment mpi_world).2))
    = [("Root", mpi4py.comm 0); ("A", mpi4py.comm 1)] ∧
  _close_impl effectful_environment mpi_world
    = (inl (UserException "teardown failed"), mpi_world).
Proof. vm_compute. repeat split. Qed.

End CloseFacts.
